(** * pipage: a mutable pipeline of streams presented as one duplex stream

    Shallow embedding of [lib/pipeline.js] (class [Pipeline], which extends
    Node's [Stream.Duplex]) and proofs about its splice engine, its event
    rebinder and its flow controller.

    Stream objects are identified by object references (natural numbers).
    What the pipeline does to a member stream is recorded in that stream's
    [stage_state]: its listener table (Node's EventEmitter), the list of
    destinations it is piped to, the [_pipageListeners] registry the pipeline
    stashes on it, the chunks handed to its [write], the chunks its [read]
    will return, and the [end()] calls it received.

    Numbers are the integer-valued ones ([Z]); [NaN], infinities and
    fractions are outside the model.  Event names are strings; objects are
    ordinary ones, on which a property can be set.  A registry is the plain
    object the code makes it, so it answers for the names every object
    inherits as well as for its own.  Listeners that are not the
    pipeline's own return without touching what the model records. *)

From Stdlib Require Import ZArith Lia.
From stdpp Require Import base option list gmap strings.

(** ** Values and references *)

Definition stage := nat.
Definition chunk := string.
Definition encoding := string.

(** JavaScript values as far as the pipeline inspects them: [typeof] of an
    index, the payload of an event, the error object that gets tagged. *)
Inductive jsval :=
  | VUndefined
  | VNull
  | VBool (b : bool)
  | VNum (z : Z)
  | VStr (s : string)
  | VObj (ref : nat).

(** Function values passed around as continuations: the [next] that the
    host's writable side hands to [_write], and callbacks given by the user. *)
Inductive callback :=
  | CbHost (k : nat)
  | CbUser (k : nat).

(** Listener functions that can sit in a stream's listener table.  The first
    three are the closures built once in the constructor; a [Forwarder] is
    the closure allocated by one successful [bind] (the [k] is its identity,
    [event] the name it re-emits); [External] is anybody else's listener;
    [Inherited name] is the function every object inherits from
    [Object.prototype] under [name] ([toString], [hasOwnProperty], ...),
    which a registry made as [{}] answers with when asked for that name. *)
Inductive handler :=
  | ReadHandler
  | EndHandler
  | ErrorHandler
  | Forwarder (event : string) (k : nat)
  | External (k : nat)
  | Inherited (name : string).

#[global] Instance jsval_eq_dec : EqDecision jsval.
Proof. solve_decision. Defined.
#[global] Instance callback_eq_dec : EqDecision callback.
Proof. solve_decision. Defined.
#[global] Instance handler_eq_dec : EqDecision handler.
Proof. solve_decision. Defined.

(** ** A member stream as the pipeline sees it *)

Record stage_state := StageState {
  st_listeners : gmap string (list handler);
  st_pipes : list stage;
  st_registry : option (gmap string (option handler));
  st_inbox : list (chunk * option encoding * callback);
  st_readable : list chunk;
  st_end_calls : nat;
}.

(** A stream nobody has touched yet. *)
Definition blank_stage : stage_state := StageState ∅ [] None [] [] 0.

Definition set_listeners (ls : gmap string (list handler)) (st : stage_state) :=
  StageState ls (st_pipes st) (st_registry st) (st_inbox st) (st_readable st)
    (st_end_calls st).
Definition set_pipes (ps : list stage) (st : stage_state) :=
  StageState (st_listeners st) ps (st_registry st) (st_inbox st) (st_readable st)
    (st_end_calls st).
Definition set_registry (r : option (gmap string (option handler)))
    (st : stage_state) :=
  StageState (st_listeners st) (st_pipes st) r (st_inbox st) (st_readable st)
    (st_end_calls st).
Definition set_inbox (i : list (chunk * option encoding * callback))
    (st : stage_state) :=
  StageState (st_listeners st) (st_pipes st) (st_registry st) i (st_readable st)
    (st_end_calls st).
Definition set_readable (r : list chunk) (st : stage_state) :=
  StageState (st_listeners st) (st_pipes st) (st_registry st) (st_inbox st) r
    (st_end_calls st).
Definition set_end_calls (n : nat) (st : stage_state) :=
  StageState (st_listeners st) (st_pipes st) (st_registry st) (st_inbox st)
    (st_readable st) n.

(** ** Host primitives on one stream: EventEmitter and pipe/unpipe *)

Module Emitter.

(** [emitter.listeners(ev)] *)
Definition listeners (st : stage_state) (ev : string) : list handler :=
  default [] (st_listeners st !! ev).

(** [emitter.on(ev, h)]: appended, duplicates are kept. *)
Definition on (ev : string) (h : handler) (st : stage_state) : stage_state :=
  set_listeners (<[ev := listeners st ev ++ [h]]> (st_listeners st)) st.

(** Drop the most recently added instance of [h], if there is one. *)
Fixpoint remove_last (h : handler) (l : list handler) : list handler :=
  match l with
  | [] => []
  | x :: r =>
      if decide (h ∈ r) then x :: remove_last h r
      else if decide (x = h) then r else x :: r
  end.

(** [emitter.removeListener(ev, h)]: at most one instance goes, the last
    one added; an emptied entry is deleted from the table. *)
Definition removeListener (ev : string) (h : handler) (st : stage_state)
    : stage_state :=
  match st_listeners st !! ev with
  | None => st
  | Some l =>
      match remove_last h l with
      | [] => set_listeners (delete ev (st_listeners st)) st
      | l' => set_listeners (<[ev := l']> (st_listeners st)) st
      end
  end.

(** Drop the first occurrence of [d]. *)
Fixpoint remove_first (d : stage) (l : list stage) : list stage :=
  match l with
  | [] => []
  | x :: r => if decide (x = d) then r else x :: remove_first d r
  end.

(** [source.pipe(dest)]: one more destination. *)
Definition pipe (dest : stage) (st : stage_state) : stage_state :=
  set_pipes (st_pipes st ++ [dest]) st.

(** [source.unpipe(dest)]: one destination fewer, nothing if not piped. *)
Definition unpipe (dest : stage) (st : stage_state) : stage_state :=
  set_pipes (remove_first dest (st_pipes st)) st.

End Emitter.

(** ** [Array.prototype] as used by the pipeline *)

Module JsArray.

(** [arr.splice(start, deleteCount, ...items)], returning the removed
    elements and the array afterwards.  A negative [start] counts from the
    end and is floored at 0, a large one is capped at the length; the count
    is clamped to what is left after the start. *)
Definition splice {A} (arr : list A) (start deleteCount : Z) (items : list A)
    : list A * list A :=
  let len := Z.of_nat (length arr) in
  let actualStart :=
    if (start <? 0)%Z then Z.max (len + start) 0 else Z.min start len in
  let actualDeleteCount := Z.min (Z.max deleteCount 0) (len - actualStart) in
  let i := Z.to_nat actualStart in
  let k := Z.to_nat actualDeleteCount in
  (take k (drop i arr), take i arr ++ items ++ drop (i + k) arr).

(** Index of the first element equal to [x] in [arr], counted from [k]. *)
Fixpoint find_from `{EqDecision A} (x : A) (arr : list A) (k : Z) : Z :=
  match arr with
  | [] => (-1)%Z
  | y :: r => if decide (y = x) then k else find_from x r (k + 1)%Z
  end.

(** [arr.indexOf(x, fromIndex)]: strict equality, -1 when absent. *)
Definition indexOf `{EqDecision A} (arr : list A) (x : A) (fromIndex : option Z)
    : Z :=
  let len := Z.of_nat (length arr) in
  let n := default 0%Z fromIndex in
  if (len <=? n)%Z then (-1)%Z
  else
    let k := if (0 <=? n)%Z then n else Z.max (len + n) 0 in
    find_from x (drop (Z.to_nat k) arr) k.

(** The downward scan of [lastIndexOf]: the greatest index at most [k] that
    holds [x], or -1. *)
Fixpoint scan_down `{EqDecision A} (x : A) (arr : list A) (k : nat) : Z :=
  if decide (arr !! k = Some x) then Z.of_nat k
  else match k with
       | 0 => (-1)%Z
       | S k' => scan_down x arr k'
       end.

(** [arr.lastIndexOf(x, fromIndex)] with the second argument present; an
    [undefined] one has been converted to 0 by the caller, as
    [ToIntegerOrInfinity] does. *)
Definition lastIndexOf `{EqDecision A} (arr : list A) (x : A) (fromIndex : Z)
    : Z :=
  let len := Z.of_nat (length arr) in
  if (len =? 0)%Z then (-1)%Z
  else
    let k :=
      if (0 <=? fromIndex)%Z then Z.min fromIndex (len - 1)
      else (len + fromIndex)%Z in
    if (k <? 0)%Z then (-1)%Z else scan_down x arr (Z.to_nat k).

End JsArray.

(** ** The pipeline object

    Besides the stream list and the stream objects, the state keeps what
    the composite's own duplex sides have seen: the closures allocated so
    far, the error objects with their properties, what was pushed to the
    readable side, the pending [once('_read', ..)] retries and
    [once('finish', ..)] callbacks, the callbacks called, the events emitted
    on the composite, and [observers]: one entry per listener that somebody
    outside has put on the composite, under the event name it listens
    for. *)

Record pipeline := PipelineState {
  _streams : list stage;
  heap : gmap stage stage_state;
  closures : nat;
  objects : gmap nat (gmap string jsval);
  pushed : list (option chunk * option encoding);
  read_waiters : nat;
  finish_once : list callback;
  called : list callback;
  emitted : list (string * list jsval);
  ending : bool;
  observers : list string;
}.

Definition set_streams (l : list stage) (p : pipeline) :=
  PipelineState l (heap p) (closures p) (objects p) (pushed p) (read_waiters p)
    (finish_once p) (called p) (emitted p) (ending p) (observers p).
Definition set_heap (h : gmap stage stage_state) (p : pipeline) :=
  PipelineState (_streams p) h (closures p) (objects p) (pushed p)
    (read_waiters p) (finish_once p) (called p) (emitted p) (ending p) (observers p).
Definition set_closures (n : nat) (p : pipeline) :=
  PipelineState (_streams p) (heap p) n (objects p) (pushed p) (read_waiters p)
    (finish_once p) (called p) (emitted p) (ending p) (observers p).
Definition set_objects (o : gmap nat (gmap string jsval)) (p : pipeline) :=
  PipelineState (_streams p) (heap p) (closures p) o (pushed p) (read_waiters p)
    (finish_once p) (called p) (emitted p) (ending p) (observers p).
Definition set_pushed (o : list (option chunk * option encoding))
    (p : pipeline) :=
  PipelineState (_streams p) (heap p) (closures p) (objects p) o (read_waiters p)
    (finish_once p) (called p) (emitted p) (ending p) (observers p).
Definition set_read_waiters (n : nat) (p : pipeline) :=
  PipelineState (_streams p) (heap p) (closures p) (objects p) (pushed p) n
    (finish_once p) (called p) (emitted p) (ending p) (observers p).
Definition set_finish_once (l : list callback) (p : pipeline) :=
  PipelineState (_streams p) (heap p) (closures p) (objects p) (pushed p)
    (read_waiters p) l (called p) (emitted p) (ending p) (observers p).
Definition set_called (l : list callback) (p : pipeline) :=
  PipelineState (_streams p) (heap p) (closures p) (objects p) (pushed p)
    (read_waiters p) (finish_once p) l (emitted p) (ending p) (observers p).
Definition set_emitted (l : list (string * list jsval)) (p : pipeline) :=
  PipelineState (_streams p) (heap p) (closures p) (objects p) (pushed p)
    (read_waiters p) (finish_once p) (called p) l (ending p) (observers p).
Definition set_ending (b : bool) (p : pipeline) :=
  PipelineState (_streams p) (heap p) (closures p) (objects p) (pushed p)
    (read_waiters p) (finish_once p) (called p) (emitted p) b (observers p).
Definition set_observers (l : list string) (p : pipeline) :=
  PipelineState (_streams p) (heap p) (closures p) (objects p) (pushed p)
    (read_waiters p) (finish_once p) (called p) (emitted p) (ending p) l.

(** The state of stream [s]; a stream not yet in the heap is blank. *)
Definition stage_at (p : pipeline) (s : stage) : stage_state :=
  default blank_stage (heap p !! s).

(** Apply a host primitive to stream [s]. *)
Definition with_stage (s : stage) (f : stage_state → stage_state) (p : pipeline)
    : pipeline :=
  set_heap (<[s := f (stage_at p s)]> (heap p)) p.

(** [streams.forEach((stream, i) => { next = streams[i+1]; if (next) f(stream, next) })] *)
Fixpoint forEach_next (f : stage → stage → pipeline → pipeline)
    (streams : list stage) (p : pipeline) : pipeline :=
  match streams with
  | stream :: ((next :: _) as rest) => forEach_next f rest (f stream next p)
  | _ => p
  end.

(** The closure the registry of a stream holds under [event] as a property
    of its own (one that [bind] has set and [unbind] has not yet nulled). *)
Definition registry_get (st : stage_state) (event : string) : option handler :=
  match st_registry st with
  | Some r => match r !! event with Some (Some h) => Some h | _ => None end
  | None => None
  end.

(** [stream._pipageListeners[event] = v] on an existing registry object. *)
Definition registry_set (event : string) (v : option handler) (st : stage_state)
    : stage_state :=
  match st_registry st with
  | Some r => set_registry (Some (<[event := v]> r)) st
  | None => st
  end.

(** The function-valued properties every object inherits from
    [Object.prototype].  The registry is made as [{}], so reading one of
    these names from it gives the inherited function unless the registry
    has a property of its own under that name; ["__proto__"] is inherited as
    well and reads as the prototype object. *)
Definition inherited_functions : list string :=
  ["constructor"; "hasOwnProperty"; "isPrototypeOf"; "propertyIsEnumerable";
   "toLocaleString"; "toString"; "valueOf"; "__defineGetter__";
   "__defineSetter__"; "__lookupGetter__"; "__lookupSetter__"].

Definition inherited (event : string) : bool :=
  bool_decide (event ∈ "__proto__" :: inherited_functions).

(** What reading a property of the registry gives. *)
Inductive property :=
  | PUndefined
  | PNull
  | PFunction (h : handler)
  | PObject.

(** [v == null] *)
Definition is_nullish (v : property) : bool :=
  match v with PUndefined | PNull => true | _ => false end.

(** [stream._pipageListeners[event]]: the property of its own if the
    registry has one, what [Object.prototype] provides otherwise.  (On a
    stream without a registry the methods do not get as far as reading.) *)
Definition registry_lookup (st : stage_state) (event : string) : property :=
  match st_registry st with
  | None => PUndefined
  | Some r =>
      match r !! event with
      | Some (Some h) => PFunction h
      | Some None => PNull
      | None =>
          if decide (event = "__proto__") then PObject
          else if decide (event ∈ inherited_functions)
               then PFunction (Inherited event)
               else PUndefined
      end
  end.

(** ** What the host's stream implementation decides

    [push_more] is the boolean [this.push(..)] returns, given everything
    pushed to the composite's readable side so far (the consumer's
    saturation signal); [write_more] is the boolean a member's [write]
    returns, given the member and what it has been handed so far.  Both are
    Node's business and are left arbitrary. *)
Record host := Host {
  push_more : list (option chunk * option encoding) → bool;
  write_more : stage → list (chunk * option encoding * callback) → bool;
}.

(** The stream side of a member: [read], [write], [end]. *)
Module Duplex.

(** [stream.read()]: the next buffered chunk, or [null]. *)
Definition read (st : stage_state) : option chunk * stage_state :=
  match st_readable st with
  | [] => (None, st)
  | c :: rest => (Some c, set_readable rest st)
  end.

(** [stream.write(chunk, encoding, next)] *)
Definition write (H : host) (s : stage) (c : chunk) (e : option encoding)
    (next : callback) (st : stage_state) : bool * stage_state :=
  let st := set_inbox (st_inbox st ++ [(c, e, next)]) st in
  (write_more H s (st_inbox st), st).

(** [stream.end()] *)
Definition end_ (st : stage_state) : stage_state :=
  set_end_calls (S (st_end_calls st)) st.

End Duplex.

(** The result of a call that may throw. *)
Inductive outcome (A : Type) :=
  | Returned (a : A) (p : pipeline)
  | Thrown (message : string) (p : pipeline).
Arguments Returned {A} a p.
Arguments Thrown {A} message p.

(** The pipeline a call leaves behind, whether it returned or threw. *)
Definition state_after {A} (o : outcome A) : pipeline :=
  match o with Returned _ p | Thrown _ p => p end.

(** The options of the composite's writable side, as the constructor hands
    them to [Stream.Duplex]. *)
Record writable_options := WritableOptions {
  objectMode : bool;
  decodeStrings : bool;
  highWaterMark : Z;
}.

(** [new Pipeline(streams)] without options. *)
Definition default_options : writable_options := WritableOptions false true 16384%Z.

(** The form in which the host's writable side hands a string chunk and its
    encoding on to [_write].  The encoding defaults to ['utf8']; unless the
    side is in object mode or was told not to decode strings, the chunk
    becomes a [Buffer] ([to_buffer] is [Buffer.from]) and the encoding
    ['buffer']. *)
Definition handed (o : writable_options) (to_buffer : chunk → encoding → chunk)
    (c : chunk) (e : option encoding) : chunk * encoding :=
  let e := default "utf8" e in
  if objectMode o || negb (decodeStrings o) then (c, e)
  else (to_buffer c e, "buffer").

(** ** class Pipeline *)

Module Pipeline.

(** [get length()] *)
Definition length (p : pipeline) : nat := List.length (_streams p).

(** [_beforeMutate()] *)
Definition _beforeMutate (p : pipeline) : pipeline :=
  let p :=
    match last (_streams p) with
    | Some l =>
        with_stage l (Emitter.removeListener "end" EndHandler)
          (with_stage l (Emitter.removeListener "readable" ReadHandler) p)
    | None => p
    end in
  forEach_next (λ stream next, with_stage stream (Emitter.unpipe next))
    (_streams p) p.

(** [_afterMutate()] *)
Definition _afterMutate (p : pipeline) : pipeline :=
  let p :=
    match last (_streams p) with
    | Some l =>
        with_stage l (Emitter.on "end" EndHandler)
          (with_stage l (Emitter.on "readable" ReadHandler) p)
    | None => p
    end in
  forEach_next (λ stream next, with_stage stream (Emitter.pipe next))
    (_streams p) p.

(** [bind(stream, events)]; [events] is already [[].concat(events)]. *)
Definition bind (stream : stage) (events : list string) (p : pipeline)
    : pipeline :=
  let p :=
    with_stage stream
      (λ st, set_registry (Some (default ∅ (st_registry st))) st) p in
  foldl (λ p event,
    if is_nullish (registry_lookup (stage_at p stream) event) then
      let h := Forwarder event (closures p) in
      let p := set_closures (S (closures p)) p in
      with_stage stream (Emitter.on event h)
        (with_stage stream (registry_set event (Some h)) p)
    else p) p events.

(** The [events.forEach] of [unbind].  What the registry answers that is
    not [null] goes to [removeListener], which throws a [TypeError] when
    handed something that is not a function, and the name gets a [null]
    property of the registry's own. *)
Fixpoint unbind_each (stream : stage) (events : list string) (p : pipeline)
    : outcome unit :=
  match events with
  | [] => Returned tt p
  | event :: events =>
      match registry_lookup (stage_at p stream) event with
      | PUndefined | PNull => unbind_each stream events p
      | PFunction h =>
          unbind_each stream events
            (with_stage stream (registry_set event None)
               (with_stage stream (Emitter.removeListener event h) p))
      | PObject => Thrown "The listener argument must be of type function" p
      end
  end.

(** [unbind(stream, events)] as a call that may throw. *)
Definition unbind_call (stream : stage) (events : list string) (p : pipeline)
    : outcome unit :=
  match st_registry (stage_at p stream) with
  | None => Returned tt p
  | Some _ => unbind_each stream events p
  end.

(** [unbind(stream, events)]: the pipeline after the call. *)
Definition unbind (stream : stage) (events : list string) (p : pipeline)
    : pipeline :=
  state_after (unbind_call stream events p).

(** [unbindAll(stream)]; the keys stand for [Object.keys(..)], the names of
    the registry's own properties, on which [unbind] does not throw. *)
Definition unbindAll (stream : stage) (p : pipeline) : pipeline :=
  match st_registry (stage_at p stream) with
  | Some r =>
      with_stage stream (set_registry None)
        (unbind stream (map_to_list r).*1 p)
  | None => p
  end.

(** [indexOf(stream, fromIndex)] *)
Definition indexOf (stream : stage) (fromIndex : option Z) (p : pipeline)
    : Z :=
  JsArray.indexOf (_streams p) stream fromIndex.

(** [splice(index, remove, ...streams)]; [remove = None] is a missing
    ([undefined] or [null]) second argument. *)
Definition splice (index : Z) (remove : option Z) (streams : list stage)
    (p : pipeline) : list stage * pipeline :=
  let n := Z.of_nat (List.length (_streams p)) in
  let index := if (0 <=? index)%Z then index else (n + index)%Z in
  let remove := match remove with Some r => r | None => (n - index)%Z end in
  let remove := Z.max 0 (Z.min (n - index) remove) in
  let p := _beforeMutate p in
  let p :=
    foldl (λ p stream, with_stage stream (Emitter.on "error" ErrorHandler) p)
      p streams in
  let '(removed, streams') := JsArray.splice (_streams p) index remove streams in
  let p := set_streams streams' p in
  let p :=
    foldl (λ p stream,
      unbindAll stream
        (with_stage stream (Emitter.removeListener "error" ErrorHandler) p))
      p removed in
  (removed, _afterMutate p).

(** [new Pipeline(streams, options)] over the stream objects in [h];
    [streams = None] when the first argument is not an array. *)
Definition new (streams : option (list stage)) (h : gmap stage stage_state)
    : pipeline :=
  let p := PipelineState [] h 0 ∅ [] 0 [] [] [] false [] in
  match streams with
  | Some ss => (splice 0 (Some 0%Z) ss p).2
  | None => p
  end.

(** [append(...streams)] *)
Definition append (streams : list stage) (p : pipeline) : nat * pipeline :=
  let p := (splice (Z.of_nat (List.length (_streams p))) (Some 0%Z) streams p).2 in
  (length p, p).

(** [prepend(...streams)] *)
Definition prepend (streams : list stage) (p : pipeline) : nat * pipeline :=
  let p := (splice 0 (Some 0%Z) streams p).2 in
  (length p, p).

(** [shift()]; [None] is [undefined]. *)
Definition shift (p : pipeline) : option stage * pipeline :=
  let '(removed, p) := splice 0 (Some 1%Z) [] p in
  (head removed, p).

(** [pop()] *)
Definition pop (p : pipeline) : option stage * pipeline :=
  let '(removed, p) :=
    splice (Z.of_nat (List.length (_streams p)) - 1) (Some 1%Z) [] p in
  (head removed, p).

(** [insert(index, ...streams)] *)
Definition insert (index : jsval) (streams : list stage) (p : pipeline)
    : outcome nat :=
  match index with
  | VNum i =>
      let p := (splice i (Some 0%Z) streams p).2 in
      Returned (length p) p
  | _ => Thrown "Insertion index must be a number" p
  end.

(** [remove(stream)]; [None] is [null] or [undefined]. *)
Definition remove (stream : stage) (p : pipeline) : option stage * pipeline :=
  let index := indexOf stream None p in
  if decide (Z.lnot index ≠ 0%Z) then
    let '(removed, p) := splice index (Some 1%Z) [] p in
    (head removed, p)
  else (None, p).

(** [this.push(chunk, encoding)] of the composite's readable side;
    [chunk = None] is [push(null)], the end-of-data mark. *)
Definition push (H : host) (c : option chunk) (e : option encoding)
    (p : pipeline) : bool * pipeline :=
  let p := set_pushed (pushed p ++ [(c, e)]) p in
  (push_more H (pushed p), p).

(** The [while] loop of [_read]: [buffered] is what the successive
    [stream.read()] calls return before [null]. *)
Fixpoint read_loop (H : host) (stream : stage) (buffered : list chunk)
    (reads : nat) (p : pipeline) : nat * pipeline :=
  match buffered with
  | [] => (reads, p)
  | chunk :: rest =>
      let p := with_stage stream (λ st, (Duplex.read st).2) p in
      let '(more, p) := push H (Some chunk) None p in
      if more then read_loop H stream rest (S reads) p else (S reads, p)
  end.

(** [_read()] *)
Definition _read (H : host) (p : pipeline) : pipeline :=
  match last (_streams p) with
  | None => p
  | Some stream =>
      let '(reads, p) :=
        read_loop H stream (st_readable (stage_at p stream)) 0 p in
      if decide (reads = 0) then set_read_waiters (S (read_waiters p)) p
      else p
  end.

(** The listener registered in the constructor with [this.on('finish', ..)]. *)
Definition on_finish (H : host) (p : pipeline) : pipeline :=
  match _streams p with
  | first :: _ => with_stage first Duplex.end_ p
  | [] => (push H None None p).2
  end.

(** What an emission of [event] on the composite does once it is known to
    have somebody listening or not to be an ['error']: the emission is
    logged for outside observers, then the listeners the class itself
    registers run: the [once('_read', ..)] retries, the constructor's finish
    listener followed by the [once('finish', callback)] of [end]. *)
Definition emit (H : host) (event : string) (args : list jsval)
    (p : pipeline) : pipeline :=
  let p := set_emitted (emitted p ++ [(event, args)]) p in
  if decide (event = "_read") then
    Nat.iter (read_waiters p) (_read H) (set_read_waiters 0 p)
  else if decide (event = "finish") then
    let p := on_finish H p in
    set_called (called p ++ finish_once p) (set_finish_once [] p)
  else p.

(** [pipeline.on(event, listener)] by somebody outside; what the listener
    does is its owner's business. *)
Definition on (event : string) (p : pipeline) : pipeline :=
  set_observers (observers p ++ [event]) p.

(** [this.emit(event, ...args)] on the composite with a name that may be
    ['error']: an ['error'] nobody listens for is thrown by the emitter
    instead, which is [None].  The class puts no listener for ['error'] on
    the composite itself. *)
Definition emit_or_throw (H : host) (event : string) (args : list jsval)
    (p : pipeline) : option pipeline :=
  if decide (event = "error" ∧ "error" ∉ observers p) then None
  else Some (emit H event args p).

(** [this._endHandler] *)
Definition _endHandler (H : host) (p : pipeline) : pipeline :=
  (push H None None p).2.

(** [this._readHandler] *)
Definition _readHandler (H : host) (p : pipeline) : pipeline :=
  emit H "_read" [] p.

(** [this._errorHandler], called with [this] bound to the emitting stream.
    The file is in strict mode: assigning a property on anything but an
    object throws, which is [None]. *)
Definition _errorHandler (H : host) (this : stage) (error : jsval)
    (p : pipeline) : option pipeline :=
  match error with
  | VObj ref =>
      let props := default ∅ (objects p !! ref) in
      let p :=
        set_objects (<[ref := <["stream" := VObj this]> props]> (objects p)) p in
      emit_or_throw H "error" [error] p
  | _ => None
  end.

(** Running one listener of member [this] on a payload. *)
Definition call_handler (H : host) (h : handler) (this : stage)
    (args : list jsval) (p : pipeline) : option pipeline :=
  match h with
  | ReadHandler => Some (_readHandler H p)
  | EndHandler => Some (_endHandler H p)
  | ErrorHandler => _errorHandler H this (default VUndefined (head args)) p
  | Forwarder event _ => emit_or_throw H event args p
  | External _ | Inherited _ => Some p
  end.

(** Member [s] emits [event]: its listeners at that moment run in the
    order they were added; a throwing listener aborts the emission.  The
    listeners of others are taken to return, and what they do to the
    streams is not followed; among them are the listeners the host's
    [pipe] keeps on the streams it connects, such as the one that unpipes
    the source when the destination emits ['error']. *)
Definition stage_emit (H : host) (s : stage) (event : string)
    (args : list jsval) (p : pipeline) : option pipeline :=
  foldl (λ acc h, acc ≫= call_handler H h s args) (Some p)
    (Emitter.listeners (stage_at p s) event).

(** [_write(chunk, encoding, next)]; the result is [None] when the method
    returns what [next()] returned. *)
Definition _write (H : host) (c : chunk) (e : option encoding)
    (next : callback) (p : pipeline) : option bool * pipeline :=
  match _streams p with
  | [] =>
      let p := (push H (Some c) e p).2 in
      (None, set_called (called p ++ [next]) p)
  | first :: _ =>
      let '(accepted, st) := Duplex.write H first c e next (stage_at p first) in
      (Some accepted, with_stage first (λ _, st) p)
  end.

(** [end(chunk, encoding, callback)].  [Stream.Duplex.prototype.end] is the
    host's: it sends a final chunk through [_write] and marks the input
    side as ending; the host emits ['finish'] once the writes are done.
    [c] and [e] are the final chunk and its encoding in the form in which
    the host's writable side hands them on to [_write], which is what
    [handed] gives for the arguments of the call: with the default options
    a string has become a [Buffer] by then and the encoding is
    ['buffer']. *)
Definition end_ (H : host) (c : option chunk) (e : option encoding)
    (callback : option callback) (p : pipeline) : pipeline :=
  let p :=
    match callback with
    | Some cb => set_finish_once (finish_once p ++ [cb]) p
    | None => p
    end in
  let p :=
    match c with
    | Some c => (_write H c e (CbHost 0) p).2
    | None => p
    end in
  set_ending true p.

(** [write(chunk, encoding)], which the class inherits from the host's
    [Writable], for a string chunk on a composite whose writable side is
    idle (nothing buffered, no write in progress, [end] not called).  The
    call reports whether the length now pending stays under the high-water
    mark; the chunk goes to [_write] in the form [handed] gives, with the
    host's own [next], and what [_write] returns is dropped. *)
Definition write (H : host) (o : writable_options)
    (to_buffer : chunk → encoding → chunk) (c : chunk) (e : option encoding)
    (p : pipeline) : bool * pipeline :=
  let '(c, e) := handed o to_buffer c e in
  let pending := if objectMode o then 1 else String.length c in
  (bool_decide (Z.of_nat pending < highWaterMark o)%Z,
   (_write H c (Some e) (CbHost 0) p).2).

(** [get(index)]; an index that is still negative after the adjustment
    names no element. *)
Definition get (index : Z) (p : pipeline) : option stage :=
  let index :=
    if (0 <=? index)%Z then index
    else (Z.of_nat (List.length (_streams p)) + index)%Z in
  if (index <? 0)%Z then None else _streams p !! Z.to_nat index.

(** [lastIndexOf(stream, fromIndex)]: the method always hands its second
    parameter on, so a missing [fromIndex] reaches the array as an
    [undefined] that is present. *)
Definition lastIndexOf (stream : stage) (fromIndex : option Z) (p : pipeline)
    : Z :=
  JsArray.lastIndexOf (_streams p) stream (default 0%Z fromIndex).

End Pipeline.

(** ** Vocabulary of the properties *)

(** How often [x] occurs in [l]. *)
Definition occurrences `{EqDecision A} (x : A) (l : list A) : nat :=
  List.length (filter (λ y, y = x) l).

(** The successors of the occurrences of [s] in [l], in order: what [s] is
    piped to when every adjacent pair of [l] has been piped once. *)
Fixpoint succs (s : stage) (l : list stage) : list stage :=
  match l with
  | a :: ((b :: _) as rest) =>
      if decide (a = s) then b :: succs s rest else succs s rest
  | _ => []
  end.

Definition is_forwarder (h : handler) : Prop :=
  match h with Forwarder _ _ => True | _ => False end.

(** The three closures of the constructor. *)
Definition is_core (h : handler) : Prop :=
  match h with ReadHandler | EndHandler | ErrorHandler => True | _ => False end.

#[global] Instance is_forwarder_dec h : Decision (is_forwarder h).
Proof. destruct h; simpl; apply _. Defined.

(** Stream [s] carries the flow controller's readiness listener, resp. its
    completion listener, resp. the shared error handler. *)
Definition has_read (p : pipeline) (s : stage) : Prop :=
  ReadHandler ∈ Emitter.listeners (stage_at p s) "readable".
Definition has_end (p : pipeline) (s : stage) : Prop :=
  EndHandler ∈ Emitter.listeners (stage_at p s) "end".
Definition has_error (p : pipeline) (s : stage) : Prop :=
  ErrorHandler ∈ Emitter.listeners (stage_at p s) "error".

(** The pipeline owns the wiring of every stream object: a stream is piped
    exactly to its successors in the list, the last stream, and only it,
    carries one readiness and one completion listener, a stream carries one
    error handler per occurrence in the list, and a registry holds nothing
    but forwarding closures. *)
Record wired (p : pipeline) : Prop := Wired {
  wired_pipes : ∀ s, st_pipes (stage_at p s) = succs s (_streams p);
  wired_read : ∀ s,
    occurrences ReadHandler (Emitter.listeners (stage_at p s) "readable")
    = if decide (last (_streams p) = Some s) then 1 else 0;
  wired_end : ∀ s,
    occurrences EndHandler (Emitter.listeners (stage_at p s) "end")
    = if decide (last (_streams p) = Some s) then 1 else 0;
  wired_error : ∀ s,
    occurrences ErrorHandler (Emitter.listeners (stage_at p s) "error")
    = occurrences s (_streams p);
  wired_registry : ∀ s event h,
    registry_get (stage_at p s) event = Some h → is_forwarder h;
}.

(** Every adjacent pair of the list is piped source to destination. *)
Definition adjacent_piped (p : pipeline) : Prop :=
  ∀ i a b, _streams p !! i = Some a → _streams p !! S i = Some b →
    b ∈ st_pipes (stage_at p a).

(** Exactly the last stream carries the flow controller's listeners. *)
Definition last_observed (p : pipeline) : Prop :=
  ∀ s, (has_read p s ↔ last (_streams p) = Some s)
     ∧ (has_end p s ↔ last (_streams p) = Some s).

(** A stream without flow listeners and without pipes. *)
Definition detached (p : pipeline) (s : stage) : Prop :=
  ¬ has_read p s ∧ ¬ has_end p s ∧ st_pipes (stage_at p s) = [].

(** The mutation operations of the public interface. *)
Inductive mutation :=
  | MSplice (index : Z) (remove : option Z) (streams : list stage)
  | MAppend (streams : list stage)
  | MPrepend (streams : list stage)
  | MInsert (index : jsval) (streams : list stage)
  | MRemove (stream : stage)
  | MShift
  | MPop.

(** Performing a mutation: the streams it took out, and the pipeline after. *)
Definition mutate (m : mutation) (p : pipeline) : list stage * pipeline :=
  match m with
  | MSplice index remove streams => Pipeline.splice index remove streams p
  | MAppend streams => ([], (Pipeline.append streams p).2)
  | MPrepend streams => ([], (Pipeline.prepend streams p).2)
  | MInsert index streams =>
      match Pipeline.insert index streams p with
      | Returned _ p' => ([], p')
      | Thrown _ p' => ([], p')
      end
  | MRemove stream =>
      let r := Pipeline.remove stream p in (option_list r.1, r.2)
  | MShift => let r := Pipeline.shift p in (option_list r.1, r.2)
  | MPop => let r := Pipeline.pop p in (option_list r.1, r.2)
  end.

(** The state between [_beforeMutate] and [_afterMutate]: nothing is piped,
    nobody carries a flow listener, and stream [s] carries [errs s] error
    handlers. *)
Record unwired (errs : stage → nat) (p : pipeline) : Prop := Unwired {
  unwired_pipes : ∀ s, st_pipes (stage_at p s) = [];
  unwired_read : ∀ s,
    occurrences ReadHandler (Emitter.listeners (stage_at p s) "readable") = 0;
  unwired_end : ∀ s,
    occurrences EndHandler (Emitter.listeners (stage_at p s) "end") = 0;
  unwired_error : ∀ s,
    occurrences ErrorHandler (Emitter.listeners (stage_at p s) "error") = errs s;
  unwired_registry : ∀ s event h,
    registry_get (stage_at p s) event = Some h → is_forwarder h;
}.

(** [p'] differs from [p] at most by listeners other than the
    constructor's taken off listener tables and by registry entries
    dropped. *)
Definition prunes (p p' : pipeline) : Prop :=
  _streams p' = _streams p
  ∧ (∀ t, st_pipes (stage_at p' t) = st_pipes (stage_at p t))
  ∧ (∀ t ev h, is_core h →
       occurrences h (Emitter.listeners (stage_at p' t) ev)
       = occurrences h (Emitter.listeners (stage_at p t) ev))
  ∧ (∀ t ev h, registry_get (stage_at p' t) ev = Some h →
       registry_get (stage_at p t) ev = Some h).

(** The index counted from the end when negative, and the removal count
    defaulted and clamped, as the documentation of [splice] words them. *)
Definition normalized_index (n index : Z) : Z :=
  if (index <? 0)%Z then (n + index)%Z else index.
Definition clamped_count (n i : Z) (remove : option Z) : Z :=
  Z.max 0 (Z.min (n - i) (default (n - i)%Z remove)).

(** What [splice] is documented to do on a pipeline of [n] streams: remove
    exactly the clamped count of streams from the normalized index on, put
    the new ones there, return the removed ones in order. *)
Definition splices_as_documented (index : Z) (remove : option Z)
    (streams : list stage) (p : pipeline) : Prop :=
  let n := Z.of_nat (Pipeline.length p) in
  let i := normalized_index n index in
  let k := clamped_count n i remove in
  let '(removed, p') := Pipeline.splice index remove streams p in
  (0 ≤ k ≤ n - i)%Z
  ∧ (remove = None → k = (n - i)%Z)
  ∧ Z.of_nat (List.length removed) = k
  ∧ removed = take (Z.to_nat k) (drop (Z.to_nat i) (_streams p))
  ∧ _streams p'
    = take (Z.to_nat i) (_streams p) ++ streams
      ++ drop (Z.to_nat i + Z.to_nat k) (_streams p).

(** The wiring a completed mutation is documented to leave behind, with
    [removed] the streams it took out. *)
Definition rewired (removed : list stage) (p' : pipeline) : Prop :=
  adjacent_piped p' ∧ last_observed p' ∧ ∀ r, r ∈ removed → detached p' r.

(** The same, asking detachment only of the removed streams that are no
    longer members. *)
Definition rewired_members (removed : list stage) (p' : pipeline) : Prop :=
  adjacent_piped p' ∧ last_observed p'
  ∧ ∀ r, r ∈ removed → r ∉ _streams p' → detached p' r.

(** A stream object no pipeline has wired: what [new] may be given. *)
Definition pristine (st : stage_state) : Prop :=
  st_pipes st = []
  ∧ (ReadHandler ∉ Emitter.listeners st "readable")
  ∧ (EndHandler ∉ Emitter.listeners st "end")
  ∧ (ErrorHandler ∉ Emitter.listeners st "error")
  ∧ ∀ ev x, registry_get st ev = Some x → is_forwarder x.

(** The first statement of [bind]: make sure the registry object exists. *)
Definition ensure_registry (s : stage) (p : pipeline) : pipeline :=
  with_stage s (λ st, set_registry (Some (default ∅ (st_registry st))) st) p.

(** Listeners of [s] on [e] once the forwarder registered for [e], if any,
    has been taken off. *)
Definition unbound_listeners (p : pipeline) (s : stage) (e : string)
    : list handler :=
  match registry_get (stage_at p s) e with
  | Some h => Emitter.remove_last h (Emitter.listeners (stage_at p s) e)
  | None => Emitter.listeners (stage_at p s) e
  end.

(** A chunk as [_read] pushes it: [this.push(chunk)], no encoding. *)
Definition as_push (c : chunk) : option chunk * option encoding := (Some c, None).

(** The pipeline after the chunks [forwarded] went from stream [s] to the
    composite's readable side, [rest] staying buffered in [s]. *)
Definition pulled (s : stage) (forwarded rest : list chunk) (p : pipeline)
    : pipeline :=
  set_pushed (pushed p ++ (as_push <$> forwarded))
    (with_stage s (set_readable rest) p).

(** The error object [ref] carries the tag and has been re-emitted. *)
Definition tagged_and_emitted (s : stage) (ref : nat) (p : pipeline) : Prop :=
  ("error", [VObj ref]) ∈ emitted p
  ∧ (objects p !! ref) ≫= (λ props, props !! "stream") = Some (VObj s).

(** What the rebinder keeps on one stream: a forwarding closure sits on the
    listeners of a name exactly when it is the one registered for that name,
    and then once; the closure registered for a name re-emits that name; the
    three handlers of the constructor sit under their own event names only. *)
Record tidy_stage (st : stage_state) : Prop := TidyStage {
  tidy_forwarders : ∀ ev h, is_forwarder h →
    occurrences h (Emitter.listeners st ev)
    = if decide (registry_get st ev = Some h) then 1 else 0;
  tidy_names : ∀ ev h, registry_get st ev = Some h → ∃ k, h = Forwarder ev k;
  tidy_read : ∀ ev, ev ≠ "readable" → ReadHandler ∉ Emitter.listeners st ev;
  tidy_end : ∀ ev, ev ≠ "end" → EndHandler ∉ Emitter.listeners st ev;
  tidy_error : ∀ ev, ev ≠ "error" → ErrorHandler ∉ Emitter.listeners st ev;
}.

Definition tidy (p : pipeline) : Prop := ∀ s, tidy_stage (stage_at p s).

(** A listener of somebody else. *)
Definition is_external (h : handler) : Prop :=
  match h with External _ | Inherited _ => True | _ => False end.

(** One [write] per element, in order, keeping the pipeline. *)
Definition write_all (H : host)
    (ws : list (chunk * option encoding * callback)) (p : pipeline) : pipeline :=
  foldl (λ q w, (Pipeline._write H w.1.1 w.1.2 w.2 q).2) p ws.

(** The chunk and encoding of a write as the passthrough pushes them. *)
Definition as_passed (w : chunk * option encoding * callback)
    : option chunk * option encoding :=
  (Some w.1.1, w.1.2).

(** [p'] has the stream list, the pipes and the constructor's listeners
    that [p] has. *)
Definition same_wiring (p p' : pipeline) : Prop :=
  _streams p' = _streams p
  ∧ (∀ t, st_pipes (stage_at p' t) = st_pipes (stage_at p t))
  ∧ (∀ t ev h, is_core h →
       occurrences h (Emitter.listeners (stage_at p' t) ev)
       = occurrences h (Emitter.listeners (stage_at p t) ev)).

(** Two calls of [bind] with the name leave one forwarding closure
    registered and attached, whatever the name. *)
Definition binds_exactly_once (s : stage) (ev : string) (p : pipeline)
    : Prop :=
  let p' := Pipeline.bind s [ev] (Pipeline.bind s [ev] p) in
  ∃ k, registry_get (stage_at p' s) ev = Some (Forwarder ev k)
       ∧ Emitter.listeners (stage_at p' s) ev
         = Emitter.listeners (stage_at p s) ev ++ [Forwarder ev k].

(** Member [s] raises [args] as an error and the composite emits its first
    element as its own ['error'], whatever the value. *)
Definition relays_error (H : host) (s : stage) (args : list jsval)
    (p : pipeline) : Prop :=
  ∃ p', Pipeline.stage_emit H s "error" args p = Some p'
        ∧ ("error", take 1 args) ∈ emitted p'.

(** The composite's [write] reports what the first stream's [write]
    reported when it was handed the chunk. *)
Definition write_reports_first_stream (H : host) (o : writable_options)
    (to_buffer : chunk → encoding → chunk) (c : chunk) (e : option encoding)
    (p : pipeline) : Prop :=
  ∀ first rest, _streams p = first :: rest →
    (Pipeline.write H o to_buffer c e p).1
    = write_more H first
        (st_inbox (stage_at (Pipeline.write H o to_buffer c e p).2 first)).



(** The registry of [st] answers for [ev] with what it holds itself: the
    name is inherited by no object, or the registry has a property of its
    own under it. *)
Definition plain (st : stage_state) (ev : string) : Prop :=
  inherited ev = false ∨ is_Some (default ∅ (st_registry st) !! ev).

(** [unbind] as it goes on names for which the registry answers with what
    it holds itself: the closure registered for each name is taken off and
    the name is nulled. *)
Definition unbind_registered (s : stage) (evs : list string) (p : pipeline)
    : pipeline :=
  match st_registry (stage_at p s) with
  | None => p
  | Some _ =>
      foldl (λ p event,
        match registry_get (stage_at p s) event with
        | None => p
        | Some h =>
            with_stage s (registry_set event None)
              (with_stage s (Emitter.removeListener event h) p)
        end) p evs
  end.

(** ** Basic facts: the heap *)

Lemma stage_at_with_stage s f p t :
  stage_at (with_stage s f p) t
  = if decide (t = s) then f (stage_at p s) else stage_at p t.
Proof.
  unfold stage_at, with_stage; simpl.
  case_decide as Hts.
  - subst t. by rewrite lookup_insert_eq.
  - by rewrite lookup_insert_ne.
Qed.

Lemma stage_at_with_stage_eq s f p :
  stage_at (with_stage s f p) s = f (stage_at p s).
Proof. rewrite stage_at_with_stage. by case_decide. Qed.

Lemma stage_at_with_stage_ne s f p t :
  t ≠ s → stage_at (with_stage s f p) t = stage_at p t.
Proof. intros. rewrite stage_at_with_stage. by case_decide. Qed.

(** ** Basic facts: listeners and pipes of one stream *)

Lemma listeners_on ev h st ev' :
  Emitter.listeners (Emitter.on ev h st) ev'
  = if decide (ev' = ev) then Emitter.listeners st ev ++ [h]
    else Emitter.listeners st ev'.
Proof.
  unfold Emitter.on, Emitter.listeners at 1; simpl.
  case_decide as He.
  - subst. by rewrite lookup_insert_eq.
  - by rewrite lookup_insert_ne.
Qed.

Lemma listeners_removeListener ev h st ev' :
  Emitter.listeners (Emitter.removeListener ev h st) ev'
  = if decide (ev' = ev) then Emitter.remove_last h (Emitter.listeners st ev)
    else Emitter.listeners st ev'.
Proof.
  unfold Emitter.removeListener, Emitter.listeners.
  destruct (st_listeners st !! ev) as [l|] eqn:Hl.
  - destruct (Emitter.remove_last h l) as [|x l'] eqn:Hr; simpl.
    + case_decide as He.
      * subst. rewrite lookup_delete_eq. simpl. by rewrite Hr.
      * by rewrite lookup_delete_ne.
    + case_decide as He.
      * subst. rewrite lookup_insert_eq. simpl. by rewrite Hr.
      * by rewrite lookup_insert_ne.
  - case_decide as He; [|done]. subst. by rewrite Hl.
Qed.

Lemma occurrences_nil `{EqDecision A} (x : A) : occurrences x [] = 0.
Proof. done. Qed.

Lemma occurrences_cons `{EqDecision A} (x y : A) l :
  occurrences x (y :: l)
  = (if decide (y = x) then 1 else 0) + occurrences x l.
Proof.
  unfold occurrences. rewrite filter_cons. by case_decide.
Qed.

Lemma occurrences_app `{EqDecision A} (x : A) l1 l2 :
  occurrences x (l1 ++ l2) = occurrences x l1 + occurrences x l2.
Proof. unfold occurrences. by rewrite filter_app, length_app. Qed.

Lemma occurrences_pos `{EqDecision A} (x : A) l :
  x ∈ l ↔ 0 < occurrences x l.
Proof.
  induction l as [|y l IH].
  - rewrite occurrences_nil. split; [by intros ?%elem_of_nil | lia].
  - rewrite occurrences_cons, elem_of_cons, IH.
    case_decide as Hy.
    + split; [lia | auto].
    + split; [intros [?|?]; [congruence | lia] | intros; right; lia].
Qed.

Lemma occurrences_zero `{EqDecision A} (x : A) l :
  x ∉ l ↔ occurrences x l = 0.
Proof. rewrite occurrences_pos. lia. Qed.

Lemma remove_last_absent h l : h ∉ l → Emitter.remove_last h l = l.
Proof.
  induction l as [|x l IH]; [done|]. intros Hn.
  apply not_elem_of_cons in Hn as [Hx Hl]. simpl.
  case_decide; [done|]. case_decide; [congruence | done].
Qed.

Lemma occurrences_remove_last h l :
  occurrences h (Emitter.remove_last h l) = pred (occurrences h l).
Proof.
  induction l as [|x l IH]; [done|]. simpl.
  case_decide as Hin.
  - rewrite !occurrences_cons, IH.
    apply occurrences_pos in Hin. case_decide; lia.
  - apply occurrences_zero in Hin.
    case_decide as Hx.
    + subst. rewrite occurrences_cons, Hin. by case_decide.
    + rewrite occurrences_cons, Hin. by case_decide.
Qed.

Lemma occurrences_remove_last_ne h h' l :
  h' ≠ h → occurrences h' (Emitter.remove_last h l) = occurrences h' l.
Proof.
  intros Hne. induction l as [|x l IH]; [done|]. simpl.
  case_decide as Hin.
  - by rewrite !occurrences_cons, IH.
  - case_decide as Hx; [|done].
    subst. rewrite occurrences_cons. by case_decide.
Qed.

Lemma remove_last_snoc h l : Emitter.remove_last h (l ++ [h]) = l.
Proof.
  induction l as [|x l IH]; simpl.
  - by rewrite decide_True.
  - rewrite decide_True; [by rewrite IH|].
    apply elem_of_app. right. by apply list_elem_of_singleton.
Qed.

Lemma pipes_on ev h st : st_pipes (Emitter.on ev h st) = st_pipes st.
Proof. done. Qed.

Lemma pipes_removeListener ev h st :
  st_pipes (Emitter.removeListener ev h st) = st_pipes st.
Proof.
  unfold Emitter.removeListener.
  destruct (st_listeners st !! ev) as [l|]; [|done].
  by destruct (Emitter.remove_last h l).
Qed.

Lemma registry_removeListener ev h st :
  st_registry (Emitter.removeListener ev h st) = st_registry st.
Proof.
  unfold Emitter.removeListener.
  destruct (st_listeners st !! ev) as [l|]; [|done].
  by destruct (Emitter.remove_last h l).
Qed.

Lemma registry_get_removeListener ev h st e :
  registry_get (Emitter.removeListener ev h st) e = registry_get st e.
Proof. unfold registry_get. by rewrite registry_removeListener. Qed.

Lemma registry_get_set ev v st e :
  registry_get (registry_set ev v st) e
  = if decide (e = ev) then
      match st_registry st with Some _ => v | None => None end
    else registry_get st e.
Proof.
  unfold registry_get, registry_set.
  destruct (st_registry st) as [r|] eqn:Hr; simpl.
  - case_decide as He.
    + subst. rewrite lookup_insert_eq. by destruct v.
    + by rewrite lookup_insert_ne.
  - rewrite Hr. by case_decide.
Qed.

Lemma listeners_registry_set ev v st e :
  Emitter.listeners (registry_set ev v st) e = Emitter.listeners st e.
Proof. unfold registry_set. by destruct (st_registry st). Qed.

Lemma pipes_registry_set ev v st : st_pipes (registry_set ev v st) = st_pipes st.
Proof. unfold registry_set. by destruct (st_registry st). Qed.

(** ** Iteration principles *)

Lemma forEach_next_step f a b r p :
  forEach_next f (a :: b :: r) p = forEach_next f (b :: r) (f a b p).
Proof. done. Qed.

Lemma forEach_next_ind (P : pipeline → Prop) f l p :
  (∀ a b q, P q → P (f a b q)) → P p → P (forEach_next f l p).
Proof.
  intros Hf. revert p.
  induction l as [|a l IH]; intros p Hp; [done|].
  destruct l as [|b r]; [done|].
  rewrite forEach_next_step. by apply IH, Hf.
Qed.

Lemma foldl_ind {A} (P : pipeline → Prop) (f : pipeline → A → pipeline) l p :
  (∀ q x, P q → P (f q x)) → P p → P (foldl f p l).
Proof.
  intros Hf. revert p.
  induction l as [|x l IH]; intros p Hp; [done|].
  simpl. by apply IH, Hf.
Qed.

(** ** Splicing an array *)

Lemma js_splice_decompose {A} (arr : list A) start count items :
  ∃ pre post,
    arr = pre ++ (JsArray.splice arr start count items).1 ++ post
    ∧ (JsArray.splice arr start count items).2 = pre ++ items ++ post.
Proof.
  unfold JsArray.splice; simpl.
  match goal with
  | |- context [take ?k (drop ?i arr)] =>
      exists (take i arr), (drop (i + k) arr)
  end.
  split; [|done].
  by rewrite <- drop_drop, take_drop, take_drop.
Qed.

Lemma js_splice_removed_length {A} (arr : list A) start count items :
  (Z.of_nat (List.length (JsArray.splice arr start count items).1)
   ≤ Z.max count 0)%Z.
Proof.
  unfold JsArray.splice; simpl.
  rewrite length_take. lia.
Qed.

(** In range, the array splice is the textbook one. *)
Lemma js_splice_in_range {A} (arr : list A) (i k : nat) items :
  i + k ≤ List.length arr →
  JsArray.splice arr (Z.of_nat i) (Z.of_nat k) items
  = (take k (drop i arr), take i arr ++ items ++ drop (i + k) arr).
Proof.
  intros Hik. unfold JsArray.splice.
  destruct (Z.ltb_spec (Z.of_nat i) 0) as [Hneg|_]; [lia|].
  replace (Z.to_nat (Z.min (Z.of_nat i) (Z.of_nat (List.length arr)))) with i by lia.
  replace (Z.to_nat _) with k by lia.
  done.
Qed.

(** ** Detaching: [_beforeMutate] *)

Lemma succs_step s a b r :
  succs s (a :: b :: r)
  = if decide (a = s) then b :: succs s (b :: r) else succs s (b :: r).
Proof. done. Qed.

Lemma unpipe_all_pipes l p :
  (∀ s, st_pipes (stage_at p s) = succs s l) →
  ∀ s, st_pipes (stage_at
         (forEach_next (λ stream next, with_stage stream (Emitter.unpipe next))
            l p) s) = [].
Proof.
  revert p. induction l as [|a l IH]; intros p Hp s.
  - exact (Hp s).
  - destruct l as [|b r]; [exact (Hp s)|].
    rewrite forEach_next_step. apply IH. intros t.
    rewrite stage_at_with_stage. specialize (Hp t). rewrite succs_step in Hp.
    destruct (decide (t = a)) as [->|Hta].
    + rewrite decide_True in Hp by done.
      unfold Emitter.unpipe; simpl. rewrite Hp. simpl.
      by rewrite decide_True.
    + rewrite decide_False in Hp by congruence. done.
Qed.

Lemma unpipe_all_frame l p :
  let p' :=
    forEach_next (λ stream next, with_stage stream (Emitter.unpipe next)) l p in
  _streams p' = _streams p
  ∧ ∀ s, st_listeners (stage_at p' s) = st_listeners (stage_at p s)
       ∧ st_registry (stage_at p' s) = st_registry (stage_at p s).
Proof.
  apply (forEach_next_ind (λ q,
    _streams q = _streams p
    ∧ ∀ s, st_listeners (stage_at q s) = st_listeners (stage_at p s)
         ∧ st_registry (stage_at q s) = st_registry (stage_at p s))); [|done].
  intros a b q [Hs Hq]. split; [done|]. intros s.
  rewrite stage_at_with_stage. case_decide; [subst|]; apply Hq.
Qed.

Lemma beforeMutate_streams p : _streams (Pipeline._beforeMutate p) = _streams p.
Proof.
  unfold Pipeline._beforeMutate.
  destruct (unpipe_all_frame
    (_streams match last (_streams p) with
      | Some l =>
          with_stage l (Emitter.removeListener "end" EndHandler)
            (with_stage l (Emitter.removeListener "readable" ReadHandler) p)
      | None => p
      end)
    match last (_streams p) with
      | Some l =>
          with_stage l (Emitter.removeListener "end" EndHandler)
            (with_stage l (Emitter.removeListener "readable" ReadHandler) p)
      | None => p
      end) as [-> _].
  by destruct (last (_streams p)).
Qed.

Lemma beforeMutate_unwired p :
  wired p → unwired (λ s, occurrences s (_streams p)) (Pipeline._beforeMutate p).
Proof.
  intros [Hpipes Hread Hend Herror Hreg].
  unfold Pipeline._beforeMutate.
  set (p1 := match last (_streams p) with Some _ => _ | None => p end).
  assert (Hs1 : _streams p1 = _streams p)
    by (unfold p1; by destruct (last (_streams p))).
  assert (Hp1 : ∀ s, st_pipes (stage_at p1 s) = st_pipes (stage_at p s)).
  { intros s. unfold p1. destruct (last (_streams p)) as [l|]; [|done].
    rewrite !stage_at_with_stage. case_decide; [subst|done].
    rewrite decide_True by done. by rewrite !pipes_removeListener. }
  assert (Hr1 : ∀ s, st_registry (stage_at p1 s) = st_registry (stage_at p s)).
  { intros s. unfold p1. destruct (last (_streams p)) as [l|]; [|done].
    rewrite !stage_at_with_stage. case_decide; [subst|done].
    rewrite decide_True by done. by rewrite !registry_removeListener. }
  assert (Hl1 : ∀ s ev, Emitter.listeners (stage_at p1 s) ev =
    if decide (last (_streams p) = Some s) then
      if decide (ev = "end") then
        Emitter.remove_last EndHandler (Emitter.listeners (stage_at p s) ev)
      else if decide (ev = "readable") then
        Emitter.remove_last ReadHandler (Emitter.listeners (stage_at p s) ev)
      else Emitter.listeners (stage_at p s) ev
    else Emitter.listeners (stage_at p s) ev).
  { intros s ev. unfold p1. destruct (last (_streams p)) as [l|].
    - rewrite !stage_at_with_stage. case_decide as Hsl.
      + subst s. rewrite !decide_True by done.
        rewrite !listeners_removeListener.
        case_decide as He; [subst ev; by rewrite decide_False|].
        by case_decide; subst.
      + rewrite decide_False by congruence. done.
    - by rewrite decide_False. }
  destruct (unpipe_all_frame (_streams p1) p1) as [_ Hframe].
  assert (Hl2 : ∀ s ev,
    Emitter.listeners (stage_at (forEach_next
      (λ stream next, with_stage stream (Emitter.unpipe next)) (_streams p1) p1) s) ev
    = Emitter.listeners (stage_at p1 s) ev).
  { intros s ev. unfold Emitter.listeners. by rewrite (proj1 (Hframe s)). }
  split.
  - apply unpipe_all_pipes. intros s. by rewrite Hp1, Hs1.
  - intros s. rewrite Hl2, Hl1. specialize (Hread s).
    case_decide; [|done].
    rewrite decide_False by done. rewrite decide_True by done.
    rewrite occurrences_remove_last, Hread. done.
  - intros s. rewrite Hl2, Hl1. specialize (Hend s).
    case_decide; [|done].
    rewrite decide_True by done.
    rewrite occurrences_remove_last, Hend. done.
  - intros s. rewrite Hl2, Hl1. specialize (Herror s).
    case_decide; [|done].
    rewrite !decide_False by done. done.
  - intros s ev h. unfold registry_get.
    rewrite (proj2 (Hframe s)), Hr1. apply Hreg.
Qed.

Lemma unwired_ext e e' p : (∀ s, e s = e' s) → unwired e p → unwired e' p.
Proof.
  intros He [H1 H2 H3 H4 H5]. split; try done.
  intros s. by rewrite <- He.
Qed.

Lemma unwired_set_streams e l p : unwired e p → unwired e (set_streams l p).
Proof. by intros [H1 H2 H3 H4 H5]. Qed.

(** ** Preparing the incoming streams *)

Lemma attach_errors_streams ss p :
  _streams (foldl (λ p stream,
      with_stage stream (Emitter.on "error" ErrorHandler) p) p ss)
  = _streams p.
Proof.
  by apply (foldl_ind (λ q, _streams q = _streams p)).
Qed.

Lemma attach_errors_unwired ss e p :
  unwired e p →
  unwired (λ s, e s + occurrences s ss)
    (foldl (λ p stream, with_stage stream (Emitter.on "error" ErrorHandler) p)
       p ss).
Proof.
  revert e p. induction ss as [|x ss IH]; intros e p Hp.
  - simpl. eapply unwired_ext; [|done].
    intros s. rewrite occurrences_nil. lia.
  - simpl.
    eapply unwired_ext; [|apply (IH (λ s,
      e s + if decide (x = s) then 1 else 0))].
    { intros s. simpl. rewrite occurrences_cons. lia. }
    destruct Hp as [H1 H2 H3 H4 H5].
    split; intros s; rewrite stage_at_with_stage.
    + case_decide; [subst|]; apply H1.
    + rewrite <- (H2 s). case_decide; [subst|done].
      rewrite listeners_on. by rewrite decide_False.
    + rewrite <- (H3 s). case_decide; [subst|done].
      rewrite listeners_on. by rewrite decide_False.
    + rewrite <- (H4 s). destruct (decide (s = x)) as [->|Hne].
      * rewrite listeners_on, !decide_True by done.
        rewrite occurrences_app, occurrences_cons, occurrences_nil.
        rewrite decide_True by done. lia.
      * rewrite decide_False by congruence. lia.
    + intros ev h. case_decide; [subst|]; apply H5.
Qed.

(** ** Cleaning the removed streams *)

(** Unbinding touches nothing but stream objects. *)
Lemma unbind_each_heap stream events p :
  ∃ h, state_after (Pipeline.unbind_each stream events p) = set_heap h p.
Proof.
  revert p. induction events as [|ev events IH]; intros p.
  - exists (heap p). by destruct p.
  - cbn [Pipeline.unbind_each].
    destruct (registry_lookup (stage_at p stream) ev) as [| |h|];
      [apply IH|apply IH| |exists (heap p); by destruct p].
    destruct (IH (with_stage stream (registry_set ev None)
      (with_stage stream (Emitter.removeListener ev h) p))) as [h' ->].
    by exists h'.
Qed.

Lemma unbind_heap stream events p :
  ∃ h, Pipeline.unbind stream events p = set_heap h p.
Proof.
  unfold Pipeline.unbind, Pipeline.unbind_call.
  destruct (st_registry (stage_at p stream));
    [apply unbind_each_heap|exists (heap p); by destruct p].
Qed.

Lemma unbindAll_heap stream p :
  ∃ h, Pipeline.unbindAll stream p = set_heap h p.
Proof.
  unfold Pipeline.unbindAll.
  destruct (st_registry (stage_at p stream)) as [r|];
    [|exists (heap p); by destruct p].
  destruct (unbind_heap stream (map_to_list r).*1 p) as [h ->].
  by eexists.
Qed.

Lemma prunes_refl p : prunes p p.
Proof. by repeat split. Qed.

Lemma prunes_unwired e p p' : prunes p p' → unwired e p → unwired e p'.
Proof.
  intros (_ & Hpipes & Hocc & Hreg) [H1 H2 H3 H4 H5]. split; intros s.
  - by rewrite Hpipes.
  - by rewrite Hocc.
  - by rewrite Hocc.
  - by rewrite Hocc.
  - intros ev h Hh. eapply H5, Hreg, Hh.
Qed.

Lemma prunes_trans p p' p'' : prunes p p' → prunes p' p'' → prunes p p''.
Proof.
  intros (Hs & Hpipes & Hocc & Hreg) (Hs' & Hpipes' & Hocc' & Hreg').
  split; [congruence|]. split; [intros t; by rewrite Hpipes'|].
  split; [intros t ev h Hh; by rewrite Hocc', Hocc|].
  intros t ev h Hh. by apply Hreg, Hreg'.
Qed.

(** What the registry answers with a function is a closure it holds itself
    or the function the name inherits. *)
Lemma registry_lookup_function st ev h :
  registry_lookup st ev = PFunction h →
  registry_get st ev = Some h
  ∨ (h = Inherited ev ∧ registry_get st ev = None).
Proof.
  unfold registry_lookup, registry_get.
  destruct (st_registry st) as [r|]; [|done].
  destruct (r !! ev) as [[h'|]|]; [left; congruence|done|].
  repeat case_decide; [done| |done]. right. split; congruence.
Qed.

(** One step of [unbind]: the listener goes, the name is nulled. *)
Lemma unbind_step_prunes stream ev h p :
  registry_lookup (stage_at p stream) ev = PFunction h →
  (∀ ev h, registry_get (stage_at p stream) ev = Some h → is_forwarder h) →
  prunes p
    (with_stage stream (registry_set ev None)
       (with_stage stream (Emitter.removeListener ev h) p)).
Proof.
  intros Hlook Hfw.
  assert (Hh : ¬ is_core h).
  { destruct (registry_lookup_function _ _ _ Hlook) as [Hget|[-> _]];
      [|by intros ?].
    apply Hfw in Hget. destruct h; simpl in *; tauto. }
  split; [done|]. split; [|split].
  - intros t. rewrite !stage_at_with_stage. case_decide; [subst t|done].
    rewrite decide_True by done.
    by rewrite pipes_registry_set, pipes_removeListener.
  - intros t ev' h' Hh'. rewrite !stage_at_with_stage.
    case_decide; [subst t|done].
    rewrite decide_True by done.
    rewrite listeners_registry_set, listeners_removeListener.
    case_decide; [subst ev'|done].
    rewrite occurrences_remove_last_ne; [done|].
    intros ->. done.
  - intros t ev' h'. rewrite !stage_at_with_stage.
    case_decide; [subst t|done].
    rewrite decide_True by done.
    rewrite registry_get_set.
    case_decide; [by destruct (st_registry _)|].
    by rewrite registry_get_removeListener.
Qed.

Lemma unbind_each_prunes stream events p :
  (∀ ev h, registry_get (stage_at p stream) ev = Some h → is_forwarder h) →
  prunes p (state_after (Pipeline.unbind_each stream events p)).
Proof.
  revert p. induction events as [|ev events IH]; intros p Hfw;
    [apply prunes_refl|].
  cbn [Pipeline.unbind_each].
  destruct (registry_lookup (stage_at p stream) ev) as [| |h|] eqn:Hlook;
    [by apply IH|by apply IH| |apply prunes_refl].
  pose proof (unbind_step_prunes stream ev h p Hlook Hfw) as Hstep.
  eapply prunes_trans; [exact Hstep|]. apply IH.
  intros ev' h' Hget. destruct Hstep as (_ & _ & _ & Hreg).
  eapply Hfw, Hreg, Hget.
Qed.

Lemma unbind_prunes stream events p :
  (∀ ev h, registry_get (stage_at p stream) ev = Some h → is_forwarder h) →
  prunes p (Pipeline.unbind stream events p).
Proof.
  intros Hfw. unfold Pipeline.unbind, Pipeline.unbind_call.
  destruct (st_registry (stage_at p stream)); [|apply prunes_refl].
  by apply unbind_each_prunes.
Qed.

Lemma unbindAll_prunes stream p :
  (∀ ev h, registry_get (stage_at p stream) ev = Some h → is_forwarder h) →
  prunes p (Pipeline.unbindAll stream p).
Proof.
  intros Hfw. unfold Pipeline.unbindAll.
  destruct (st_registry (stage_at p stream)) as [r|]; [|apply prunes_refl].
  destruct (unbind_prunes stream (map_to_list r).*1 p Hfw)
    as (Hs & Hpipes & Hocc & Hreg).
  repeat split.
  - done.
  - intros t. rewrite stage_at_with_stage. case_decide; [subst t|done].
    apply Hpipes.
  - intros t ev h Hh. rewrite stage_at_with_stage.
    case_decide; [subst t|by apply Hocc]. by apply Hocc.
  - intros t ev h. rewrite stage_at_with_stage.
    case_decide; [done|by apply Hreg].
Qed.

Lemma detach_errors_streams removed p :
  _streams (foldl (λ p stream,
      Pipeline.unbindAll stream
        (with_stage stream (Emitter.removeListener "error" ErrorHandler) p))
      p removed)
  = _streams p.
Proof.
  apply (foldl_ind (λ q, _streams q = _streams p)); [|done].
  intros q x Hq.
  by destruct (unbindAll_heap x
    (with_stage x (Emitter.removeListener "error" ErrorHandler) q)) as [h ->].
Qed.

Lemma detach_errors_unwired removed e p :
  unwired e p →
  unwired (λ s, e s - occurrences s removed)
    (foldl (λ p stream,
      Pipeline.unbindAll stream
        (with_stage stream (Emitter.removeListener "error" ErrorHandler) p))
      p removed).
Proof.
  revert e p. induction removed as [|x removed IH]; intros e p Hp.
  - simpl. eapply unwired_ext; [|done].
    intros s. rewrite occurrences_nil. lia.
  - simpl.
    eapply unwired_ext; [|apply (IH (λ s,
      e s - if decide (x = s) then 1 else 0))].
    { intros s. simpl. rewrite occurrences_cons. lia. }
    assert (Hq : unwired (λ s, e s - if decide (x = s) then 1 else 0)
      (with_stage x (Emitter.removeListener "error" ErrorHandler) p)).
    { destruct Hp as [H1 H2 H3 H4 H5].
      split; intros s; rewrite stage_at_with_stage.
      - case_decide; [subst|by apply H1].
        rewrite pipes_removeListener. apply H1.
      - rewrite <- (H2 s). case_decide; [subst|done].
        rewrite listeners_removeListener. by rewrite decide_False.
      - rewrite <- (H3 s). case_decide; [subst|done].
        rewrite listeners_removeListener. by rewrite decide_False.
      - rewrite <- (H4 s). destruct (decide (s = x)) as [->|Hne].
        + rewrite listeners_removeListener, !decide_True by done.
          rewrite occurrences_remove_last. lia.
        + rewrite decide_False by congruence. lia.
      - intros ev h. case_decide; [subst|by apply H5].
        rewrite registry_get_removeListener. apply H5. }
    eapply prunes_unwired; [|exact Hq].
    apply unbindAll_prunes. intros ev h. apply (unwired_registry _ _ Hq).
Qed.

(** ** Re-attaching: [_afterMutate] *)

Lemma pipe_all_pipes l p s :
  st_pipes (stage_at
    (forEach_next (λ stream next, with_stage stream (Emitter.pipe next)) l p) s)
  = st_pipes (stage_at p s) ++ succs s l.
Proof.
  revert p. induction l as [|a l IH]; intros p.
  - simpl. by rewrite app_nil_r.
  - destruct l as [|b r]; [simpl; by rewrite app_nil_r|].
    rewrite forEach_next_step, IH, succs_step, stage_at_with_stage.
    destruct (decide (s = a)) as [->|Hne].
    + rewrite decide_True by done. simpl. by rewrite <- app_assoc.
    + by rewrite decide_False by congruence.
Qed.

Lemma pipe_all_frame l p :
  let p' :=
    forEach_next (λ stream next, with_stage stream (Emitter.pipe next)) l p in
  _streams p' = _streams p
  ∧ ∀ s, st_listeners (stage_at p' s) = st_listeners (stage_at p s)
       ∧ st_registry (stage_at p' s) = st_registry (stage_at p s).
Proof.
  apply (forEach_next_ind (λ q,
    _streams q = _streams p
    ∧ ∀ s, st_listeners (stage_at q s) = st_listeners (stage_at p s)
         ∧ st_registry (stage_at q s) = st_registry (stage_at p s))); [|done].
  intros a b q [Hs Hq]. split; [done|]. intros s.
  rewrite stage_at_with_stage. case_decide; [subst|]; apply Hq.
Qed.

Lemma afterMutate_streams p : _streams (Pipeline._afterMutate p) = _streams p.
Proof.
  unfold Pipeline._afterMutate.
  set (p1 := match last (_streams p) with Some _ => _ | None => p end).
  destruct (pipe_all_frame (_streams p1) p1) as [-> _].
  unfold p1. by destruct (last (_streams p)).
Qed.

Lemma afterMutate_wired e p :
  unwired e p → (∀ s, e s = occurrences s (_streams p)) →
  wired (Pipeline._afterMutate p).
Proof.
  intros [H1 H2 H3 H4 H5] He.
  pose proof (afterMutate_streams p) as Hs. revert Hs.
  unfold Pipeline._afterMutate.
  set (p1 := match last (_streams p) with Some _ => _ | None => p end).
  intros Hs.
  assert (Hs1 : _streams p1 = _streams p)
    by (unfold p1; by destruct (last (_streams p))).
  assert (Hp1 : ∀ s, st_pipes (stage_at p1 s) = []).
  { intros s. rewrite <- (H1 s). unfold p1.
    destruct (last (_streams p)) as [l|]; [|done].
    rewrite !stage_at_with_stage. case_decide; [subst|done].
    by rewrite decide_True by done. }
  assert (Hr1 : ∀ s, st_registry (stage_at p1 s) = st_registry (stage_at p s)).
  { intros s. unfold p1. destruct (last (_streams p)) as [l|]; [|done].
    rewrite !stage_at_with_stage. case_decide; [subst|done].
    by rewrite decide_True by done. }
  assert (Hl1 : ∀ s ev, Emitter.listeners (stage_at p1 s) ev =
    if decide (last (_streams p) = Some s) then
      if decide (ev = "end") then
        Emitter.listeners (stage_at p s) ev ++ [EndHandler]
      else if decide (ev = "readable") then
        Emitter.listeners (stage_at p s) ev ++ [ReadHandler]
      else Emitter.listeners (stage_at p s) ev
    else Emitter.listeners (stage_at p s) ev).
  { intros s ev. unfold p1. destruct (last (_streams p)) as [l|].
    - rewrite !stage_at_with_stage. destruct (decide (s = l)) as [->|Hsl].
      + rewrite !decide_True by done. rewrite !listeners_on.
        destruct (decide (ev = "end")) as [->|He1]; [by rewrite decide_False|].
        by destruct (decide (ev = "readable")) as [->|He2].
      + rewrite decide_False by congruence. done.
    - by rewrite decide_False. }
  destruct (pipe_all_frame (_streams p1) p1) as [_ Hframe].
  assert (Hl2 : ∀ s ev,
    Emitter.listeners (stage_at (forEach_next
      (λ stream next, with_stage stream (Emitter.pipe next)) (_streams p1) p1) s) ev
    = Emitter.listeners (stage_at p1 s) ev).
  { intros s ev. unfold Emitter.listeners. by rewrite (proj1 (Hframe s)). }
  split.
  - intros s. by rewrite pipe_all_pipes, Hp1, Hs, Hs1.
  - intros s. rewrite Hl2, Hl1, Hs.
    destruct (decide (last (_streams p) = Some s)); [|apply H2].
    rewrite decide_False by done. rewrite decide_True by done.
    rewrite occurrences_app, H2, occurrences_cons, occurrences_nil.
    by rewrite decide_True.
  - intros s. rewrite Hl2, Hl1, Hs.
    destruct (decide (last (_streams p) = Some s)); [|apply H3].
    rewrite decide_True by done.
    rewrite occurrences_app, H3, occurrences_cons, occurrences_nil.
    by rewrite decide_True.
  - intros s. rewrite Hl2, Hl1, Hs, <- He, <- H4.
    destruct (decide (last (_streams p) = Some s)); [|done].
    by rewrite !decide_False by done.
  - intros s ev h. unfold registry_get.
    rewrite (proj2 (Hframe s)), Hr1. apply H5.
Qed.

(** ** The splice engine keeps the wiring *)

Lemma splice_streams index remove streams p :
  ∃ pre post,
    _streams p = pre ++ (Pipeline.splice index remove streams p).1 ++ post
    ∧ _streams (Pipeline.splice index remove streams p).2
      = pre ++ streams ++ post.
Proof.
  unfold Pipeline.splice.
  rewrite attach_errors_streams, beforeMutate_streams.
  match goal with
  | |- context [JsArray.splice ?a ?i ?k ?it] =>
      destruct (js_splice_decompose a i k it) as (pre & post & Hold & Hnew);
      destruct (JsArray.splice a i k it) as [removed streams'] eqn:Hsp
  end.
  simpl in *. exists pre, post. split; [done|].
  by rewrite afterMutate_streams, detach_errors_streams.
Qed.

Lemma splice_wired index remove streams p :
  wired p → wired (Pipeline.splice index remove streams p).2.
Proof.
  intros Hw.
  destruct (splice_streams index remove streams p)
    as (pre & post & Hold & Hnew).
  revert Hold Hnew. unfold Pipeline.splice.
  rewrite attach_errors_streams, beforeMutate_streams.
  destruct (JsArray.splice _ _ _ _) as [removed streams'] eqn:Hsp.
  simpl. rewrite afterMutate_streams, detach_errors_streams. simpl.
  intros Hold ->.
  eapply afterMutate_wired.
  - apply detach_errors_unwired, unwired_set_streams, attach_errors_unwired.
    by apply beforeMutate_unwired.
  - intros s. rewrite detach_errors_streams. simpl.
    rewrite Hold, !occurrences_app. lia.
Qed.

Lemma splice_results index remove streams p :
  let n := Z.of_nat (List.length (_streams p)) in
  let i := normalized_index n index in
  let k := clamped_count n i remove in
  (Pipeline.splice index remove streams p).1
  = (JsArray.splice (_streams p) i k streams).1
  ∧ _streams (Pipeline.splice index remove streams p).2
    = (JsArray.splice (_streams p) i k streams).2.
Proof.
  intros n i k. unfold Pipeline.splice.
  rewrite attach_errors_streams, beforeMutate_streams.
  fold n.
  replace (if (0 <=? index)%Z then index else (n + index)%Z) with i
    by (unfold i, normalized_index;
        destruct (Z.leb_spec 0 index), (Z.ltb_spec index 0); lia).
  replace (Z.max 0 (Z.min (n - i)
      match remove with Some r => r | None => (n - i)%Z end)) with k
    by (unfold k, clamped_count; by destruct remove).
  destruct (JsArray.splice (_streams p) i k streams) as [removed streams'].
  simpl. by rewrite afterMutate_streams, detach_errors_streams.
Qed.

Lemma splice_removed_bound index r streams p :
  (Z.of_nat (List.length (Pipeline.splice index (Some r) streams p).1)
   ≤ Z.max r 0)%Z.
Proof.
  rewrite (proj1 (splice_results index (Some r) streams p)).
  etransitivity; [apply js_splice_removed_length|].
  unfold clamped_count; simpl. lia.
Qed.

Lemma splice_zero_removed index streams p :
  (Pipeline.splice index (Some 0%Z) streams p).1 = [].
Proof.
  pose proof (splice_removed_bound index 0 streams p) as Hlen.
  destruct (Pipeline.splice index (Some 0%Z) streams p).1; [done|].
  simpl in Hlen. lia.
Qed.

Lemma splice_one_removed index streams p :
  option_list (head (Pipeline.splice index (Some 1%Z) streams p).1)
  = (Pipeline.splice index (Some 1%Z) streams p).1.
Proof.
  pose proof (splice_removed_bound index 1 streams p) as Hlen.
  destruct (Pipeline.splice index (Some 1%Z) streams p).1 as [|x [|y l]];
    [done..|].
  simpl in Hlen. lia.
Qed.

(** Every mutation is one splice, or nothing at all. *)
Lemma mutate_cases m p :
  (∃ index remove streams, mutate m p = Pipeline.splice index remove streams p)
  ∨ mutate m p = ([], p).
Proof.
  destruct m as [i r ss|ss|ss|i ss|s| |]; cbn [mutate].
  - left. by exists i, r, ss.
  - left. exists (Z.of_nat (List.length (_streams p))), (Some 0%Z), ss.
    unfold Pipeline.append. cbn [snd].
    rewrite <- (splice_zero_removed (Z.of_nat (List.length (_streams p))) ss p).
    symmetry. apply surjective_pairing.
  - left. exists 0%Z, (Some 0%Z), ss.
    unfold Pipeline.prepend. cbn [snd].
    rewrite <- (splice_zero_removed 0 ss p). symmetry. apply surjective_pairing.
  - destruct i as [| |b|z|str|ref]; cbn [Pipeline.insert]; try by right.
    left. exists z, (Some 0%Z), ss.
    rewrite <- (splice_zero_removed z ss p). symmetry. apply surjective_pairing.
  - unfold Pipeline.remove. case_decide; [|by right].
    left. exists (Pipeline.indexOf s None p), (Some 1%Z), [].
    pose proof (splice_one_removed (Pipeline.indexOf s None p) [] p) as H1.
    destruct (Pipeline.splice _ _ _ _) as [removed p']. cbn [fst snd] in *.
    by rewrite H1.
  - left. exists 0%Z, (Some 1%Z), [].
    pose proof (splice_one_removed 0 [] p) as H1. unfold Pipeline.shift.
    destruct (Pipeline.splice _ _ _ _) as [removed p']. cbn [fst snd] in *.
    by rewrite H1.
  - left. exists (Z.of_nat (List.length (_streams p)) - 1)%Z, (Some 1%Z), [].
    pose proof (splice_one_removed
      (Z.of_nat (List.length (_streams p)) - 1) [] p) as H1.
    unfold Pipeline.pop.
    destruct (Pipeline.splice _ _ _ _) as [removed p']. cbn [fst snd] in *.
    by rewrite H1.
Qed.

Lemma mutate_wired m p : wired p → wired (mutate m p).2.
Proof.
  intros Hw. destruct (mutate_cases m p) as [(i & r & ss & ->)| ->]; [|done].
  by apply splice_wired.
Qed.

(** ** What a wired pipeline looks like *)

Lemma succs_lookup s l i b :
  l !! i = Some s → l !! S i = Some b → b ∈ succs s l.
Proof.
  revert i. induction l as [|a l IH]; intros i Hi Hb; [done|].
  destruct l as [|c r]; [done|]. rewrite succs_step.
  destruct i as [|i].
  - cbn in Hi, Hb. simplify_eq. rewrite decide_True by done.
    apply list_elem_of_here.
  - assert (b ∈ succs s (c :: r)) by (by apply (IH i)).
    destruct (decide (a = s)); [by apply list_elem_of_further|done].
Qed.

Lemma succs_absent s l : s ∉ l → succs s l = [].
Proof.
  induction l as [|a l IH]; [done|]. intros Hn.
  apply not_elem_of_cons in Hn as [Hne Hl].
  destruct l as [|b r]; [done|]. rewrite succs_step.
  rewrite decide_False by congruence. by apply IH.
Qed.

Lemma wired_adjacent_piped p : wired p → adjacent_piped p.
Proof.
  intros Hw i a b Ha Hb. rewrite (wired_pipes _ Hw). by eapply succs_lookup.
Qed.

Lemma wired_last_observed p : wired p → last_observed p.
Proof.
  intros Hw s. unfold has_read, has_end.
  rewrite !occurrences_pos, (wired_read _ Hw), (wired_end _ Hw).
  case_decide; split; split; intros; (done || lia).
Qed.

Lemma wired_detached p s : wired p → s ∉ _streams p → detached p s.
Proof.
  intros Hw Hs.
  assert (last (_streams p) ≠ Some s)
    by (intros Hl; by apply last_Some_elem_of in Hl).
  unfold detached, has_read, has_end.
  rewrite !occurrences_zero, (wired_read _ Hw), (wired_end _ Hw),
    (wired_pipes _ Hw), !decide_False by done.
  by rewrite succs_absent.
Qed.

Lemma wired_has_error p s : wired p → has_error p s ↔ s ∈ _streams p.
Proof.
  intros Hw. unfold has_error.
  by rewrite !occurrences_pos, (wired_error _ Hw).
Qed.

Lemma wired_new h :
  (∀ s st, h !! s = Some st → pristine st) →
  ∀ streams, wired (Pipeline.new streams h).
Proof.
  intros Hh streams.
  assert (Hw : wired (PipelineState [] h 0 ∅ [] 0 [] [] [] false [])).
  { split; intros s; unfold stage_at; simpl;
      destruct (h !! s) as [st|] eqn:Hst; simpl; try done;
      destruct (Hh s st Hst) as (H1 & H2 & H3 & H4 & H5);
      rewrite ?occurrences_nil; try by apply occurrences_zero.
    - done.
    - apply H5. }
  unfold Pipeline.new. destruct streams; [|done]. by apply splice_wired.
Qed.

(** Who listens on the composite is no part of the wiring. *)
Lemma wired_on event p : wired p → wired (Pipeline.on event p).
Proof. intros [H1 H2 H3 H4 H5]. by split. Qed.

(** ** Searching the stream list *)

Lemma find_from_absent (s : stage) l k : s ∉ l → JsArray.find_from s l k = (-1)%Z.
Proof.
  revert k. induction l as [|a l IH]; intros k Hn; [done|].
  apply not_elem_of_cons in Hn as [Hne Hl]. simpl.
  rewrite decide_False by congruence. by apply IH.
Qed.

Lemma find_from_present (s : stage) l k :
  s ∈ l →
  ∃ i : nat, JsArray.find_from s l k = (k + Z.of_nat i)%Z ∧ l !! i = Some s.
Proof.
  revert k. induction l as [|a l IH]; intros k Hin.
  - by apply elem_of_nil in Hin.
  - simpl. destruct (decide (a = s)) as [->|Hne].
    + exists 0. split; [lia|done].
    + apply elem_of_cons in Hin as [?|Hin]; [congruence|].
      destruct (IH (k + 1)%Z Hin) as (i & Hi & Hl).
      exists (S i). split; [lia|done].
Qed.

Lemma indexOf_absent s p : s ∉ _streams p → Pipeline.indexOf s None p = (-1)%Z.
Proof.
  intros Hn. unfold Pipeline.indexOf, JsArray.indexOf. simpl.
  destruct (Z.leb_spec (Z.of_nat (List.length (_streams p))) 0); [done|].
  by apply find_from_absent.
Qed.

Lemma indexOf_present s p :
  s ∈ _streams p →
  ∃ i : nat, Pipeline.indexOf s None p = Z.of_nat i ∧ _streams p !! i = Some s.
Proof.
  intros Hin. unfold Pipeline.indexOf, JsArray.indexOf. simpl.
  destruct (Z.leb_spec (Z.of_nat (List.length (_streams p))) 0) as [Hle|_].
  - destruct (_streams p); [by apply elem_of_nil in Hin | simpl in Hle; lia].
  - destruct (find_from_present s (_streams p) 0 Hin) as (i & Hi & Hl).
    exists i. split; [|done]. etransitivity; [exact Hi|lia].
Qed.

(** ** The claims: the splice engine *)

(** C1 (amended): on a pipeline of n streams and for an index with
    -n <= index <= n, [splice(index, remove, ...streams)] counts a negative
    index from the end, defaults the removal count to n - index and clamps it
    into [0, n - index], removes exactly that many streams from the
    normalized index on, inserts the new streams at that position and returns
    the removed ones in their original order. *)
Theorem splice_within_bounds index remove streams p :
  (- Z.of_nat (Pipeline.length p) ≤ index ≤ Z.of_nat (Pipeline.length p))%Z →
  splices_as_documented index remove streams p.
Proof.
  intros Hrange. unfold splices_as_documented.
  destruct (splice_results index remove streams p) as [Hrem Hnew].
  destruct (Pipeline.splice index remove streams p) as [removed p'].
  cbn [fst snd] in Hrem, Hnew. unfold Pipeline.length in *.
  set (n := Z.of_nat (List.length (_streams p))) in *.
  set (i := normalized_index n index) in *.
  set (k := clamped_count n i remove) in *.
  assert (Hi : (0 ≤ i ≤ n)%Z)
    by (unfold i, normalized_index; destruct (Z.ltb_spec index 0); lia).
  assert (Hk : (0 ≤ k ≤ n - i)%Z) by (unfold k, clamped_count; lia).
  assert (Hsp : JsArray.splice (_streams p) i k streams
    = (take (Z.to_nat k) (drop (Z.to_nat i) (_streams p)),
       take (Z.to_nat i) (_streams p) ++ streams
       ++ drop (Z.to_nat i + Z.to_nat k) (_streams p))).
  { rewrite <- (Z2Nat.id i), <- (Z2Nat.id k) at 1 by lia.
    apply js_splice_in_range. unfold n in *. lia. }
  rewrite Hsp in Hrem, Hnew. cbn [fst snd] in Hrem, Hnew.
  split; [done|]. split.
  { intros ->. unfold k, clamped_count. simpl. lia. }
  split; [|done].
  rewrite Hrem, length_take, length_drop. unfold n in *. lia.
Qed.

Lemma splice_within_bounds_witness :
  splices_as_documented (-1) None [7] (Pipeline.new (Some [0; 1; 2]) ∅).
Proof. apply splice_within_bounds. vm_compute. by split. Defined.

(** C1 as stated fails below -n: [pop()] on an empty pipeline calls
    [splice(-1, 1)], the clamped count is 1, and nothing is removed. *)
Lemma splice_below_bounds :
  ¬ splices_as_documented (-1) (Some 1%Z) [] (Pipeline.new None ∅).
Proof.
  unfold splices_as_documented.
  destruct (Pipeline.splice _ _ _ _) as [removed p'] eqn:Hsp.
  vm_compute in Hsp. injection Hsp as <- _.
  intros (_ & _ & Hlen & _). vm_compute in Hlen. discriminate.
Qed.

(** Below -n the index is wrapped a second time by the array: on [0; 1],
    [splice(-3, 1)] takes out stream 1, not stream 0. *)
Remark splice_wraps_twice :
  (Pipeline.splice (-3) (Some 1%Z) [] (Pipeline.new (Some [0; 1]) ∅)).1 = [1].
Proof. reflexivity. Qed.

(** C2 (amended): from a wired pipeline, every mutation operation leaves a
    wired pipeline: each adjacent pair of the new list is piped source to
    destination, exactly the last stream carries the flow controller's
    readiness and completion listeners, and a removed stream that is no
    longer a member keeps neither those listeners nor any pipe. *)
Theorem mutation_rewires m p :
  wired p →
  wired (mutate m p).2 ∧ rewired_members (mutate m p).1 (mutate m p).2.
Proof.
  intros Hw. apply (mutate_wired m) in Hw.
  split; [done|].
  split; [by apply wired_adjacent_piped|].
  split; [by apply wired_last_observed|].
  intros r _ Hr. by apply wired_detached.
Qed.

Lemma mutation_rewires_witness :
  wired (Pipeline.new (Some [0; 1; 2]) ∅)
  ∧ wired (mutate (MSplice 1 (Some 1%Z) [3]) (Pipeline.new (Some [0; 1; 2]) ∅)).2
  ∧ rewired_members
      (mutate (MSplice 1 (Some 1%Z) [3]) (Pipeline.new (Some [0; 1; 2]) ∅)).1
      (mutate (MSplice 1 (Some 1%Z) [3]) (Pipeline.new (Some [0; 1; 2]) ∅)).2.
Proof.
  assert (Hw : wired (Pipeline.new (Some [0; 1; 2]) ∅))
    by (apply wired_new; intros s st Hs; by rewrite lookup_empty in Hs).
  split; [exact Hw|]. exact (mutation_rewires _ _ Hw).
Defined.

(** C2 as stated fails when a stream is a member twice: after [shift()] on
    the pipeline [0; 1; 0], stream 0 has been removed and, being the last
    member still, carries the readiness listener. *)
Lemma shift_of_duplicate_stays_observed :
  wired (Pipeline.new (Some [0; 1; 0]) ∅)
  ∧ ¬ rewired (mutate MShift (Pipeline.new (Some [0; 1; 0]) ∅)).1
        (mutate MShift (Pipeline.new (Some [0; 1; 0]) ∅)).2.
Proof.
  split.
  { apply wired_new. intros s st Hs. by rewrite lookup_empty in Hs. }
  intros (_ & _ & Hdet).
  destruct (Hdet 0) as (Hread & _).
  - vm_compute. apply list_elem_of_here.
  - apply Hread. vm_compute. apply list_elem_of_here.
Qed.

(** ** The claims: the convenience operations *)

Lemma splice_zero_length index streams p :
  Pipeline.length (Pipeline.splice index (Some 0%Z) streams p).2
  = Pipeline.length p + List.length streams.
Proof.
  destruct (splice_streams index (Some 0%Z) streams p)
    as (pre & post & Hold & Hnew).
  rewrite splice_zero_removed in Hold. unfold Pipeline.length.
  rewrite Hnew, Hold, !length_app. simpl. lia.
Qed.

Lemma remove_present s p :
  s ∈ _streams p →
  Pipeline.remove s p
  = (Some s, (Pipeline.splice (Pipeline.indexOf s None p) (Some 1%Z) [] p).2).
Proof.
  intros Hin. destruct (indexOf_present s p Hin) as (i & Hi & Hl).
  unfold Pipeline.remove. rewrite Hi.
  rewrite decide_True by (unfold Z.lnot; lia).
  destruct (splice_results (Z.of_nat i) (Some 1%Z) [] p) as [Hrem _].
  destruct (Pipeline.splice (Z.of_nat i) (Some 1%Z) [] p) as [removed p'].
  cbn [fst snd] in *. f_equal. rewrite Hrem.
  pose proof (lookup_lt_Some _ _ _ Hl) as Hlt.
  replace (normalized_index _ _) with (Z.of_nat i)
    by (unfold normalized_index; destruct (Z.ltb_spec (Z.of_nat i) 0); lia).
  replace (clamped_count _ _ _) with (Z.of_nat 1)
    by (unfold clamped_count; simpl; lia).
  rewrite js_splice_in_range by lia. cbn [fst].
  by rewrite (drop_S _ _ _ Hl).
Qed.

Lemma remove_absent s p : s ∉ _streams p → Pipeline.remove s p = (None, p).
Proof.
  intros Hn. unfold Pipeline.remove. rewrite indexOf_absent by done.
  by rewrite decide_False by (intros H; by apply H).
Qed.

(** C7: each convenience operation is the stated splice call on a pipeline
    of n streams: [append] splices at n and [prepend] at 0 removing nothing,
    [insert] splices at a numeric index removing nothing, all three returning
    the new length (the old one plus the number of streams given); [remove] splices one stream out at [indexOf(stream)] and
    returns it, or changes nothing and returns none when the stream is not a
    member; [shift] splices one stream out at 0 and [pop] at n - 1. *)
Theorem convenience_is_splice p :
  let n := Z.of_nat (Pipeline.length p) in
  (∀ ss, Pipeline.append ss p
     = (Pipeline.length (Pipeline.splice n (Some 0%Z) ss p).2,
        (Pipeline.splice n (Some 0%Z) ss p).2))
  ∧ (∀ ss, Pipeline.prepend ss p
     = (Pipeline.length (Pipeline.splice 0 (Some 0%Z) ss p).2,
        (Pipeline.splice 0 (Some 0%Z) ss p).2))
  ∧ (∀ i ss, Pipeline.insert (VNum i) ss p
     = Returned (Pipeline.length (Pipeline.splice i (Some 0%Z) ss p).2)
         (Pipeline.splice i (Some 0%Z) ss p).2)
  ∧ (∀ i ss, Pipeline.length (Pipeline.splice i (Some 0%Z) ss p).2
     = Pipeline.length p + List.length ss)
  ∧ (∀ s, Pipeline.remove s p
     = if decide (s ∈ _streams p) then
         (Some s,
          (Pipeline.splice (Pipeline.indexOf s None p) (Some 1%Z) [] p).2)
       else (None, p))
  ∧ Pipeline.shift p
    = (head (Pipeline.splice 0 (Some 1%Z) [] p).1,
       (Pipeline.splice 0 (Some 1%Z) [] p).2)
  ∧ Pipeline.pop p
    = (head (Pipeline.splice (n - 1) (Some 1%Z) [] p).1,
       (Pipeline.splice (n - 1) (Some 1%Z) [] p).2).
Proof.
  intros n.
  split; [done|]. split; [done|]. split; [done|].
  split; [intros i ss; apply splice_zero_length|]. split; [|split].
  - intros s. case_decide; [by apply remove_present | by apply remove_absent].
  - unfold Pipeline.shift. by destruct (Pipeline.splice _ _ _ _).
  - unfold Pipeline.pop, n, Pipeline.length.
    by destruct (Pipeline.splice _ _ _ _).
Qed.

(** C9: with an index that is not a number, [insert] throws at once and the
    pipeline (its stream list, every pipe and every listener) is left exactly
    as it was. *)
Theorem insert_rejects_non_number index streams p :
  (∀ z, index ≠ VNum z) →
  Pipeline.insert index streams p = Thrown "Insertion index must be a number" p.
Proof.
  intros Hn. destruct index; try done. by destruct (Hn z).
Qed.

Lemma insert_rejects_non_number_witness :
  Pipeline.insert (VStr "x") [3] (Pipeline.new (Some [0; 1]) ∅)
  = Thrown "Insertion index must be a number" (Pipeline.new (Some [0; 1]) ∅).
Proof. apply insert_rejects_non_number. intros z. discriminate. Defined.

(** C10: on an empty pipeline [shift()] and [pop()] return no stream, raise
    nothing and leave the pipeline as it was; [pop] gets there through
    [splice(-1, 1)]. *)
Theorem shift_pop_on_empty p :
  _streams p = [] →
  Pipeline.shift p = (None, p) ∧ Pipeline.pop p = (None, p)
  ∧ Pipeline.pop p
    = (head (Pipeline.splice (-1) (Some 1%Z) [] p).1,
       (Pipeline.splice (-1) (Some 1%Z) [] p).2).
Proof.
  destruct p as [l h c o pu rw fo ca em en ob]. simpl. intros ->.
  by repeat split.
Qed.

Lemma shift_pop_on_empty_witness :
  Pipeline.shift (Pipeline.new None ∅) = (None, Pipeline.new None ∅)
  ∧ Pipeline.pop (Pipeline.new None ∅) = (None, Pipeline.new None ∅)
  ∧ Pipeline.pop (Pipeline.new None ∅)
    = (head (Pipeline.splice (-1) (Some 1%Z) [] (Pipeline.new None ∅)).1,
       (Pipeline.splice (-1) (Some 1%Z) [] (Pipeline.new None ∅)).2).
Proof. apply shift_pop_on_empty. reflexivity. Defined.

(** ** The event rebinder *)

Lemma with_stage_id s f p st :
  heap p !! s = Some st → f st = st → with_stage s f p = p.
Proof.
  intros Hs Hf. unfold with_stage, stage_at. rewrite Hs. simpl. rewrite Hf.
  rewrite insert_id by done. by destruct p.
Qed.

Lemma heap_with_stage s f p :
  heap (with_stage s f p) !! s = Some (f (stage_at p s)).
Proof. unfold with_stage. simpl. by rewrite lookup_insert_eq. Qed.

Lemma ensure_registry_get s p e :
  registry_get (stage_at (ensure_registry s p) s) e
  = registry_get (stage_at p s) e.
Proof.
  unfold ensure_registry. rewrite stage_at_with_stage_eq.
  unfold registry_get. simpl. by destruct (st_registry (stage_at p s)).
Qed.

Lemma ensure_registry_listeners s p e :
  Emitter.listeners (stage_at (ensure_registry s p) s) e
  = Emitter.listeners (stage_at p s) e.
Proof. unfold ensure_registry. by rewrite stage_at_with_stage_eq. Qed.

(** A name the registry does not answer for is not registered. *)
Lemma nullish_unregistered st ev :
  is_nullish (registry_lookup st ev) = true → registry_get st ev = None.
Proof.
  unfold registry_lookup, registry_get.
  destruct (st_registry st) as [r|]; [|done].
  by destruct (r !! ev) as [[h|]|].
Qed.

(** Reading a plain name from the registry. *)
Lemma registry_lookup_plain st ev :
  plain st ev →
  match registry_get st ev with
  | Some h => registry_lookup st ev = PFunction h
  | None => is_nullish (registry_lookup st ev) = true
  end.
Proof.
  unfold plain, inherited, registry_lookup, registry_get.
  intros Hplain. destruct (st_registry st) as [r|]; [|done]. simpl in Hplain.
  destruct (r !! ev) as [[h|]|] eqn:Hr; [done|done|].
  destruct Hplain as [Hin|[? ?]]; [|done].
  apply bool_decide_eq_false in Hin.
  rewrite decide_False by (intros ->; apply Hin, list_elem_of_here).
  rewrite decide_False by (intros ?; by apply Hin, list_elem_of_further).
  done.
Qed.

Lemma plain_not_inherited st ev : inherited ev = false → plain st ev.
Proof. by left. Qed.

Lemma plain_ensure_registry s p ev :
  plain (stage_at (ensure_registry s p) s) ev ↔ plain (stage_at p s) ev.
Proof.
  unfold ensure_registry, plain. rewrite stage_at_with_stage_eq. simpl.
  by destruct (st_registry (stage_at p s)).
Qed.

(** What one [bind(stream, event)] does to the stream: nothing when the
    registry answers for the name, one closure allocated, registered and
    attached when it does not. *)
Lemma bind_one s ev p :
  let p' := Pipeline.bind s [ev] p in
  if is_nullish (registry_lookup (stage_at (ensure_registry s p) s) ev) then
    (∀ e, Emitter.listeners (stage_at p' s) e
          = if decide (e = ev) then
              Emitter.listeners (stage_at p s) ev ++ [Forwarder ev (closures p)]
            else Emitter.listeners (stage_at p s) e)
    ∧ (∀ e, registry_get (stage_at p' s) e
          = if decide (e = ev) then Some (Forwarder ev (closures p))
            else registry_get (stage_at p s) e)
  else
    (∀ e, Emitter.listeners (stage_at p' s) e
          = Emitter.listeners (stage_at p s) e)
    ∧ (∀ e, registry_get (stage_at p' s) e = registry_get (stage_at p s) e).
Proof.
  unfold Pipeline.bind. fold (ensure_registry s p). cbn [foldl]. cbv zeta.
  destruct (is_nullish (registry_lookup (stage_at (ensure_registry s p) s) ev)).
  - split; intros e.
    + rewrite !stage_at_with_stage_eq, listeners_on, !listeners_registry_set.
      change (stage_at (set_closures _ ?q)) with (stage_at q).
      rewrite !ensure_registry_listeners. done.
    + rewrite !stage_at_with_stage_eq.
      change (registry_get (Emitter.on ?a ?b ?st)) with (registry_get st).
      rewrite registry_get_set.
      change (stage_at (set_closures _ ?q)) with (stage_at q).
      rewrite ensure_registry_get.
      unfold ensure_registry. rewrite stage_at_with_stage_eq. simpl.
      done.
  - split; intros e;
      [apply ensure_registry_listeners | apply ensure_registry_get].
Qed.

(** The same for a plain name, told by what the registry holds. *)
Lemma bind_one_plain s ev p :
  plain (stage_at p s) ev →
  let p' := Pipeline.bind s [ev] p in
  match registry_get (stage_at p s) ev with
  | Some _ =>
      (∀ e, Emitter.listeners (stage_at p' s) e
            = Emitter.listeners (stage_at p s) e)
      ∧ (∀ e, registry_get (stage_at p' s) e = registry_get (stage_at p s) e)
  | None =>
      (∀ e, Emitter.listeners (stage_at p' s) e
            = if decide (e = ev) then
                Emitter.listeners (stage_at p s) ev ++ [Forwarder ev (closures p)]
              else Emitter.listeners (stage_at p s) e)
      ∧ (∀ e, registry_get (stage_at p' s) e
            = if decide (e = ev) then Some (Forwarder ev (closures p))
              else registry_get (stage_at p s) e)
  end.
Proof.
  intros Hplain. apply plain_ensure_registry in Hplain.
  apply registry_lookup_plain in Hplain. rewrite ensure_registry_get in Hplain.
  pose proof (bind_one s ev p) as Hone. cbv zeta in *.
  destruct (registry_get (stage_at p s) ev); by rewrite Hplain in Hone.
Qed.

(** Binding a name the registry answers for changes nothing at all. *)
Lemma bind_bound s ev p st :
  heap p !! s = Some st → is_Some (st_registry st) →
  is_nullish (registry_lookup st ev) = false → Pipeline.bind s [ev] p = p.
Proof.
  intros Hs [r Hr] Hh. unfold Pipeline.bind.
  assert (Hat : stage_at p s = st) by (unfold stage_at; by rewrite Hs).
  rewrite (with_stage_id s _ p st Hs).
  - cbn [foldl]. by rewrite Hat, Hh.
  - rewrite Hr. simpl. destruct st. simpl in *. by subst.
Qed.

Lemma registry_lookup_set_on ev h st :
  is_Some (st_registry st) →
  registry_lookup (Emitter.on ev h (registry_set ev (Some h) st)) ev
  = PFunction h.
Proof.
  intros [r Hr]. unfold registry_lookup, registry_set. rewrite Hr. simpl.
  by rewrite lookup_insert_eq.
Qed.

Lemma bind_twice s ev p :
  Pipeline.bind s [ev] (Pipeline.bind s [ev] p) = Pipeline.bind s [ev] p.
Proof.
  assert (∃ st, heap (Pipeline.bind s [ev] p) !! s = Some st
    ∧ is_Some (st_registry st) ∧ is_nullish (registry_lookup st ev) = false)
    as (st & Hs & Hr & Hg); [|by eapply bind_bound].
  unfold Pipeline.bind. fold (ensure_registry s p). cbn [foldl].
  assert (Hsome : is_Some (st_registry (stage_at (ensure_registry s p) s))).
  { unfold ensure_registry. rewrite stage_at_with_stage_eq. by eexists. }
  destruct (is_nullish (registry_lookup (stage_at (ensure_registry s p) s) ev))
    eqn:Hnull.
  - eexists. split; [apply heap_with_stage|].
    rewrite stage_at_with_stage_eq.
    change (stage_at (set_closures _ ?q)) with (stage_at q).
    rewrite registry_lookup_set_on by done. split; [|done].
    destruct Hsome as [r Hr]. unfold registry_set. rewrite Hr. by eexists.
  - eexists. split; [apply heap_with_stage|]. split; [by eexists|].
    unfold ensure_registry in Hnull. by rewrite stage_at_with_stage_eq in Hnull.
Qed.

(** One step of [unbind] keeps plain names plain. *)
Lemma plain_unbind_step s ev h p x :
  plain (stage_at p s) x →
  plain (stage_at (with_stage s (registry_set ev None)
    (with_stage s (Emitter.removeListener ev h) p)) s) x.
Proof.
  intros [Hx|Hx]; [by left|]. right.
  rewrite !stage_at_with_stage_eq. unfold registry_set.
  rewrite registry_removeListener.
  destruct (st_registry (stage_at p s)) as [r|] eqn:Hr; simpl in *.
  - destruct (decide (x = ev)) as [->|Hne];
      [by rewrite lookup_insert_eq|by rewrite lookup_insert_ne].
  - by rewrite registry_removeListener, Hr.
Qed.

(** On plain names [unbind] returns, having taken off what the registry
    holds. *)
Lemma unbind_plain s evs p :
  (∀ x, x ∈ evs → plain (stage_at p s) x) →
  Pipeline.unbind_call s evs p = Returned tt (unbind_registered s evs p).
Proof.
  unfold Pipeline.unbind_call, unbind_registered.
  destruct (st_registry (stage_at p s)); [|done].
  revert p. induction evs as [|ev evs IH]; intros p Hplain; [done|].
  cbn [Pipeline.unbind_each foldl].
  pose proof (registry_lookup_plain _ ev (Hplain ev (list_elem_of_here _ _)))
    as Hlook.
  destruct (registry_get (stage_at p s) ev) as [h|].
  - rewrite Hlook. apply IH. intros x Hx. apply plain_unbind_step.
    by apply Hplain, list_elem_of_further.
  - destruct (registry_lookup (stage_at p s) ev); try done;
      apply IH; intros x Hx; by apply Hplain, list_elem_of_further.
Qed.

Lemma unbind_plain_state s evs p :
  (∀ x, x ∈ evs → plain (stage_at p s) x) →
  Pipeline.unbind s evs p = unbind_registered s evs p.
Proof. intros Hplain. unfold Pipeline.unbind. by rewrite unbind_plain. Qed.

(** The names of the registry's own properties are plain. *)
Lemma own_keys_plain st r :
  st_registry st = Some r → ∀ x, x ∈ (map_to_list r).*1 → plain st x.
Proof.
  intros Hr x Hx. right. rewrite Hr. simpl.
  apply list_elem_of_fmap in Hx as ([x' v] & -> & Hin).
  apply elem_of_map_to_list in Hin. by eexists.
Qed.

Lemma unbind_registered_listeners s evs p e :
  Emitter.listeners (stage_at (unbind_registered s evs p) s) e
  = if decide (e ∈ evs) then unbound_listeners p s e
    else Emitter.listeners (stage_at p s) e.
Proof.
  unfold unbind_registered.
  destruct (st_registry (stage_at p s)) as [r0|] eqn:Hr0.
  2:{ unfold unbound_listeners, registry_get. rewrite Hr0. by case_decide. }
  clear r0 Hr0. revert p. induction evs as [|x evs IH]; intros p.
  - cbn [foldl]. by rewrite decide_False by apply not_elem_of_nil.
  - cbn [foldl]. rewrite IH. clear IH.
    destruct (registry_get (stage_at p s) x) as [h|] eqn:Hget.
    + assert (Hl : ∀ e', Emitter.listeners (stage_at
          (with_stage s (registry_set x None)
            (with_stage s (Emitter.removeListener x h) p)) s) e'
        = if decide (e' = x) then unbound_listeners p s x
          else Emitter.listeners (stage_at p s) e').
      { intros e'. rewrite !stage_at_with_stage_eq, listeners_registry_set,
          listeners_removeListener.
        unfold unbound_listeners. rewrite Hget. by case_decide; subst. }
      assert (Hg : ∀ e', registry_get (stage_at
          (with_stage s (registry_set x None)
            (with_stage s (Emitter.removeListener x h) p)) s) e'
        = if decide (e' = x) then None else registry_get (stage_at p s) e').
      { intros e'. rewrite !stage_at_with_stage_eq, registry_get_set,
          registry_removeListener, registry_get_removeListener.
        case_decide; [by destruct (st_registry _)|done]. }
      unfold unbound_listeners at 1. rewrite Hg, Hl.
      destruct (decide (e = x)) as [->|Hne].
      * rewrite (decide_True (P := x ∈ x :: evs)) by apply list_elem_of_here.
        by case_decide.
      * destruct (decide (e ∈ evs)) as [Hin|Hnin].
        -- rewrite decide_True by by apply list_elem_of_further.
           done.
        -- rewrite decide_False; [done|].
           intros [?|?]%elem_of_cons; done.
    + destruct (decide (e ∈ evs)) as [Hin|Hnin].
      * rewrite decide_True by by apply list_elem_of_further. done.
      * destruct (decide (e = x)) as [->|Hne].
        -- rewrite decide_True by apply list_elem_of_here.
           unfold unbound_listeners. by rewrite Hget.
        -- rewrite decide_False; [done|].
           intros [?|?]%elem_of_cons; done.
Qed.

Lemma unbind_listeners s evs p e :
  (∀ x, x ∈ evs → plain (stage_at p s) x) →
  Emitter.listeners (stage_at (Pipeline.unbind s evs p) s) e
  = if decide (e ∈ evs) then unbound_listeners p s e
    else Emitter.listeners (stage_at p s) e.
Proof.
  intros Hplain. rewrite unbind_plain_state by done.
  apply unbind_registered_listeners.
Qed.

Lemma unbindAll_registry s p : st_registry (stage_at (Pipeline.unbindAll s p) s) = None.
Proof.
  unfold Pipeline.unbindAll.
  destruct (st_registry (stage_at p s)) as [r|] eqn:Hr; [|done].
  by rewrite stage_at_with_stage_eq.
Qed.

(** [unbindAll] hands [unbind] the registry's own names: the call returns. *)
Lemma unbindAll_returns s p r :
  st_registry (stage_at p s) = Some r →
  Pipeline.unbind_call s (map_to_list r).*1 p
  = Returned tt (unbind_registered s (map_to_list r).*1 p).
Proof. intros Hr. apply unbind_plain. by apply own_keys_plain. Qed.

Lemma unbindAll_listeners s p e :
  Emitter.listeners (stage_at (Pipeline.unbindAll s p) s) e
  = unbound_listeners p s e.
Proof.
  unfold Pipeline.unbindAll.
  destruct (st_registry (stage_at p s)) as [r|] eqn:Hr.
  - rewrite stage_at_with_stage_eq.
    change (Emitter.listeners (set_registry None ?st)) with (Emitter.listeners st).
    rewrite unbind_listeners by by apply own_keys_plain.
    case_decide as Hin; [done|].
    unfold unbound_listeners, registry_get. rewrite Hr.
    destruct (r !! e) as [v|] eqn:Hre; [|done].
    exfalso. apply Hin. apply list_elem_of_fmap. exists (e, v).
    split; [done|]. by apply elem_of_map_to_list.
  - unfold unbound_listeners, registry_get. by rewrite Hr.
Qed.

(** X26: [bind(stream, event)] is idempotent, whatever the name: a second
    call with the same name changes nothing.  For a name that objects do
    not inherit, after two calls exactly one forwarding closure has been
    added to the stream's listeners for that name (none if the name was
    bound before).  [unbindAll(stream)] takes the forwarder registered for
    each name off the stream's listeners and leaves the stream with no
    registry at all, so that binding such a name twice and unbinding all
    gives back the listeners the stream started with. *)
Theorem bind_idempotent_unbindAll_clears s ev p :
  Pipeline.bind s [ev] (Pipeline.bind s [ev] p) = Pipeline.bind s [ev] p
  ∧ (inherited ev = false →
     Emitter.listeners
       (stage_at (Pipeline.bind s [ev] (Pipeline.bind s [ev] p)) s) ev
     = Emitter.listeners (stage_at p s) ev
       ++ match registry_get (stage_at p s) ev with
          | Some _ => []
          | None => [Forwarder ev (closures p)]
          end)
  ∧ st_registry (stage_at (Pipeline.unbindAll s p) s) = None
  ∧ (∀ e, Emitter.listeners (stage_at (Pipeline.unbindAll s p) s) e
          = unbound_listeners p s e)
  ∧ (inherited ev = false → st_registry (stage_at p s) = None →
     ∀ e, Emitter.listeners
            (stage_at (Pipeline.unbindAll s
               (Pipeline.bind s [ev] (Pipeline.bind s [ev] p))) s) e
          = Emitter.listeners (stage_at p s) e).
Proof.
  rewrite !bind_twice.
  split; [done|]. split.
  { intros Hev.
    pose proof (bind_one_plain s ev p (plain_not_inherited _ _ Hev)) as Hone.
    cbv zeta in Hone.
    destruct (registry_get (stage_at p s) ev).
    - destruct Hone as [-> _]. by rewrite app_nil_r.
    - destruct Hone as [-> _]. by rewrite decide_True. }
  split; [apply unbindAll_registry|].
  split; [apply unbindAll_listeners|].
  intros Hev Hnone e.
  pose proof (bind_one_plain s ev p (plain_not_inherited _ _ Hev)) as Hone.
  cbv zeta in Hone.
  rewrite unbindAll_listeners. unfold unbound_listeners.
  assert (Hget : ∀ e', registry_get (stage_at p s) e' = None)
    by (intros e'; unfold registry_get; by rewrite Hnone).
  rewrite Hget in Hone. destruct Hone as [Hl Hg]. rewrite Hg, Hl.
  case_decide as He; [|by rewrite Hget].
  subst e. apply remove_last_snoc.
Qed.

Lemma bind_idempotent_unbindAll_clears_witness :
  Emitter.listeners
    (stage_at (Pipeline.unbindAll 1
       (Pipeline.bind 1 ["custom"]
          (Pipeline.bind 1 ["custom"] (Pipeline.new (Some [0; 1]) ∅)))) 1)
    "custom"
  = Emitter.listeners (stage_at (Pipeline.new (Some [0; 1]) ∅) 1) "custom".
Proof.
  apply (proj2 (proj2 (proj2 (proj2
    (bind_idempotent_unbindAll_clears 1 "custom"
       (Pipeline.new (Some [0; 1]) ∅)))))); reflexivity.
Defined.

(** C8: the code at [bind(stream, 'toString')], called twice on a stream
    that has never been bound.  The registry made by [bind] answers for the
    name with the function every object inherits, before anything is
    registered: both calls return at the guard against double binding, no
    closure is allocated, registered or attached, where one forwarding
    closure should be. *)
Lemma bind_of_inherited_name_registers_nothing :
  let p := Pipeline.new (Some [0; 1]) ∅ in
  let p' := Pipeline.bind 1 ["toString"] (Pipeline.bind 1 ["toString"] p) in
  st_registry (stage_at p 1) = None
  ∧ Emitter.listeners (stage_at p' 1) "toString" = []
  ∧ registry_get (stage_at p' 1) "toString" = None
  ∧ closures p' = closures p
  ∧ ¬ binds_exactly_once 1 "toString" p.
Proof.
  cbv zeta. split; [reflexivity|]. split; [reflexivity|].
  split; [reflexivity|]. split; [reflexivity|].
  intros (k & Hget & _). vm_compute in Hget. discriminate.
Qed.

(** ** The claims: the flow controller *)

(** C3: [_write(chunk, encoding, next)], to which the composite's [write]
    hands every chunk, on an empty stream list pushes the
    chunk to the composite's own readable side and calls [next] at once,
    touching no stream; on a non-empty list it hands chunk, encoding and
    [next] to the first stream's [write] and returns exactly the boolean that
    call returned, pushing nothing and calling nothing itself. *)
Theorem write_passes_through_or_forwards H c e next p :
  match _streams p with
  | [] =>
      (Pipeline._write H c e next p).1 = None
      ∧ pushed (Pipeline._write H c e next p).2 = pushed p ++ [(Some c, e)]
      ∧ called (Pipeline._write H c e next p).2 = called p ++ [next]
      ∧ heap (Pipeline._write H c e next p).2 = heap p
  | first :: _ =>
      (Pipeline._write H c e next p).1
      = Some (Duplex.write H first c e next (stage_at p first)).1
      ∧ stage_at (Pipeline._write H c e next p).2 first
        = (Duplex.write H first c e next (stage_at p first)).2
      ∧ st_inbox (stage_at (Pipeline._write H c e next p).2 first)
        = st_inbox (stage_at p first) ++ [(c, e, next)]
      ∧ (∀ t, t ≠ first →
           stage_at (Pipeline._write H c e next p).2 t = stage_at p t)
      ∧ pushed (Pipeline._write H c e next p).2 = pushed p
      ∧ called (Pipeline._write H c e next p).2 = called p
  end.
Proof.
  unfold Pipeline._write. destruct (_streams p) as [|first rest]; [done|].
  cbn [Duplex.write fst snd].
  rewrite stage_at_with_stage_eq.
  repeat split. intros t Ht. by rewrite stage_at_with_stage_ne.
Qed.

Lemma write_passes_through_or_forwards_witness :
  (Pipeline._write (Host (λ _, true) (λ _ l, bool_decide (List.length l < 2)))
     "a" None (CbHost 0) (Pipeline.new (Some [0; 1]) ∅)).1
  = Some true.
Proof.
  exact (proj1 (write_passes_through_or_forwards
    (Host (λ _, true) (λ _ l, bool_decide (List.length l < 2)))
    "a" None (CbHost 0) (Pipeline.new (Some [0; 1]) ∅))).
Defined.

(** The composite's own [write], with the default options, on a pipeline
    whose first stream reports that it wants no more: the chunk reaches the
    first stream through [_write], which returns the stream's [false], and
    the composite's [write] reports [true], the chunk being far below its
    own high-water mark. *)
Lemma write_reports_its_own_room :
  let H := Host (λ _, true) (λ _ _, false) in
  let p := Pipeline.new (Some [0; 1]) ∅ in
  st_inbox (stage_at (Pipeline.write H default_options (λ c _, c) "a" None p).2 0)
  = [("a", Some "buffer", CbHost 0)]
  ∧ (Pipeline._write H "a" (Some "buffer") (CbHost 0) p).1 = Some false
  ∧ (Pipeline.write H default_options (λ c _, c) "a" None p).1 = true
  ∧ ¬ write_reports_first_stream H default_options (λ c _, c) "a" None p.
Proof.
  cbv zeta. split; [reflexivity|]. split; [reflexivity|].
  split; [reflexivity|].
  intros Hc. specialize (Hc 0 [1] eq_refl). vm_compute in Hc. discriminate.
Qed.

(** C5: after [end(chunk, encoding, callback)], when the host announces that
    the input side has finished: with a non-empty stream list the first
    stream receives one [end()] and nothing is pushed to the composite's
    readable side by the pipeline itself; with an empty list the end-of-data
    mark is pushed to the composite's own readable side; and the callbacks
    waiting for the finish, the one just passed to [end] last, are each
    called once and dropped, so a later finish calls none of them again. *)
Theorem finish_closes_first_or_self H c e cb p :
  let p1 := Pipeline.end_ H c e cb p in
  let p2 := Pipeline.emit H "finish" [] p1 in
  ending p1 = true
  ∧ _streams p2 = _streams p
  ∧ match _streams p with
    | first :: _ =>
        st_end_calls (stage_at p2 first) = S (st_end_calls (stage_at p first))
        ∧ pushed p2 = pushed p
    | [] => pushed p2 = pushed p1 ++ [(None, None)]
    end
  ∧ called p2 = called p1 ++ finish_once p ++ option_list cb
  ∧ finish_once p2 = []
  ∧ called (Pipeline.emit H "finish" [] p2) = called p2.
Proof.
  cbv zeta. unfold Pipeline.end_, Pipeline.emit, Pipeline.on_finish,
    Pipeline._write, Pipeline.push.
  rewrite !(decide_False (P := "finish" = "_read")) by done.
  rewrite !(decide_True (P := "finish" = "finish")) by done.
  destruct p as [l h cl o pu rw fo ca em en ob].
  destruct l as [|first rest], c as [c|], cb as [cb|]; cbn;
    rewrite ?stage_at_with_stage_eq, ?app_nil_r; repeat split; try done.
  all: repeat (unfold stage_at, with_stage; cbn; rewrite ?lookup_insert_eq);
    done.
Qed.

Lemma finish_closes_first_or_self_witness :
  called (Pipeline.emit (Host (λ _, true) (λ _ _, true)) "finish" []
     (Pipeline.end_ (Host (λ _, true) (λ _ _, true)) None None
        (Some (CbUser 7)) (Pipeline.new (Some [0; 1]) ∅)))
  = [CbUser 7].
Proof.
  exact (proj1 (proj2 (proj2 (proj2 (finish_closes_first_or_self
    (Host (λ _, true) (λ _ _, true)) None None (Some (CbUser 7))
    (Pipeline.new (Some [0; 1]) ∅)))))).
Defined.

(** ** The pull loop *)

Lemma pulled_pulled s f1 r1 f2 r2 p :
  pulled s f2 r2 (pulled s f1 r1 p) = pulled s (f1 ++ f2) r2 p.
Proof.
  unfold pulled, with_stage, stage_at. destruct p; simpl.
  by rewrite lookup_insert_eq, insert_insert_eq, fmap_app, app_assoc.
Qed.

Lemma readable_pulled s f r p : st_readable (stage_at (pulled s f r p) s) = r.
Proof.
  unfold pulled. change (stage_at (set_pushed ?x ?q)) with (stage_at q).
  by rewrite stage_at_with_stage_eq.
Qed.

Lemma pushed_pulled s f r p :
  pushed (pulled s f r p) = pushed p ++ (as_push <$> f).
Proof. done. Qed.

Lemma read_loop_spec H s buffered reads p :
  st_readable (stage_at p s) = buffered →
  ∃ forwarded rest,
    buffered = forwarded ++ rest
    ∧ Pipeline.read_loop H s buffered reads p
      = (reads + List.length forwarded,
         match forwarded with [] => p | _ => pulled s forwarded rest p end)
    ∧ (∀ k, 0 < k < List.length forwarded →
         push_more H (pushed p ++ (as_push <$> take k forwarded)) = true)
    ∧ (rest ≠ [] →
         forwarded ≠ []
         ∧ push_more H (pushed p ++ (as_push <$> forwarded)) = false).
Proof.
  revert reads p. induction buffered as [|c b IH]; intros reads p Hbuf.
  - exists [], []. simpl. repeat split; try done; try lia.
    by rewrite Nat.add_0_r.
  - assert (Hp2 : (Pipeline.push H (Some c) None
        (with_stage s (λ st, (Duplex.read st).2) p)).2 = pulled s [c] b p).
    { unfold Pipeline.push, pulled, with_stage, Duplex.read. simpl.
      by rewrite Hbuf. }
    assert (Hmore : (Pipeline.push H (Some c) None
        (with_stage s (λ st, (Duplex.read st).2) p)).1
      = push_more H (pushed p ++ [as_push c])) by done.
    cbn [Pipeline.read_loop].
    destruct (Pipeline.push H (Some c) None _) as [more p2].
    cbn [fst snd] in Hp2, Hmore. subst more p2.
    destruct (push_more H (pushed p ++ [as_push c])) eqn:Hpm.
    + destruct (IH (S reads) (pulled s [c] b p)) as (f' & r' & Hb & Hloop & Hpre & Hrest).
      { apply readable_pulled. }
      exists (c :: f'), r'. split; [by rewrite Hb|]. split; [|split].
      * rewrite Hloop. f_equal; [simpl; lia|].
        destruct f' as [|c' f'']; [|by rewrite pulled_pulled].
        simpl in Hb. by subst.
      * intros k Hk. destruct k as [|k]; [lia|]. simpl.
        destruct k as [|k]; [by rewrite take_0|].
        specialize (Hpre (S k)). simpl in Hk.
        rewrite pushed_pulled, <- app_assoc in Hpre. apply Hpre. lia.
      * intros Hr. destruct (Hrest Hr) as [_ Hsat]. split; [done|].
        by rewrite pushed_pulled, <- app_assoc in Hsat.
    + exists [c], b. simpl. repeat split; try done; try lia.
      f_equal. lia.
Qed.

(** [_read] on a pipeline whose last stream is [s]. *)
Lemma read_spec H p s :
  last (_streams p) = Some s →
  ∃ forwarded rest,
    st_readable (stage_at p s) = forwarded ++ rest
    ∧ Pipeline._read H p
      = match forwarded with
        | [] => set_read_waiters (S (read_waiters p)) p
        | _ => pulled s forwarded rest p
        end
    ∧ (∀ k, 0 < k < List.length forwarded →
         push_more H (pushed p ++ (as_push <$> take k forwarded)) = true)
    ∧ (rest ≠ [] →
         forwarded ≠ []
         ∧ push_more H (pushed p ++ (as_push <$> forwarded)) = false).
Proof.
  intros Hlast.
  destruct (read_loop_spec H s (st_readable (stage_at p s)) 0 p eq_refl)
    as (f & r & Hb & Hloop & Hpre & Hrest).
  exists f, r. split; [done|]. split; [|done].
  unfold Pipeline._read. rewrite Hlast, Hloop.
  by destruct f.
Qed.

Lemma read_frame H p :
  emitted (Pipeline._read H p) = emitted p
  ∧ objects (Pipeline._read H p) = objects p
  ∧ _streams (Pipeline._read H p) = _streams p
  ∧ called (Pipeline._read H p) = called p.
Proof.
  destruct (last (_streams p)) as [s|] eqn:Hlast.
  - destruct (read_spec H p s Hlast) as (f & r & _ & -> & _).
    by destruct f.
  - unfold Pipeline._read. by rewrite Hlast.
Qed.

Lemma iter_read_frame H n p :
  emitted (Nat.iter n (Pipeline._read H) p) = emitted p
  ∧ objects (Nat.iter n (Pipeline._read H) p) = objects p.
Proof.
  induction n as [|n IH]; [done|]. simpl.
  destruct (read_frame H (Nat.iter n (Pipeline._read H) p)) as (-> & -> & _).
  done.
Qed.

Lemma emit_frame H ev args p :
  emitted (Pipeline.emit H ev args p) = emitted p ++ [(ev, args)]
  ∧ objects (Pipeline.emit H ev args p) = objects p.
Proof.
  unfold Pipeline.emit. case_decide.
  - by destruct (iter_read_frame H
      (read_waiters (set_emitted (emitted p ++ [(ev, args)]) p))
      (set_read_waiters 0 (set_emitted (emitted p ++ [(ev, args)]) p)))
      as [-> ->].
  - case_decide; [|done].
    unfold Pipeline.on_finish. simpl. by destruct (_streams p).
Qed.

(** ** Error propagation *)

Lemma read_observers H p : observers (Pipeline._read H p) = observers p.
Proof.
  destruct (last (_streams p)) as [s|] eqn:Hlast.
  - destruct (read_spec H p s Hlast) as (f & r & _ & -> & _).
    by destruct f.
  - unfold Pipeline._read. by rewrite Hlast.
Qed.

Lemma iter_read_observers H n p :
  observers (Nat.iter n (Pipeline._read H) p) = observers p.
Proof.
  induction n as [|n IH]; [done|]. simpl. by rewrite read_observers.
Qed.

Lemma emit_observers H ev args p :
  observers (Pipeline.emit H ev args p) = observers p.
Proof.
  unfold Pipeline.emit. case_decide; [by rewrite iter_read_observers|].
  case_decide; [|done].
  unfold Pipeline.on_finish. simpl. by destruct (_streams p).
Qed.

(** No listener changes who listens on the composite. *)
Lemma call_handler_observers H h s args q q' :
  Pipeline.call_handler H h s args q = Some q' → observers q' = observers q.
Proof.
  destruct h as [| | |ev k|k|name]; simpl.
  - intros [= <-]. apply emit_observers.
  - by intros [= <-].
  - unfold Pipeline._errorHandler.
    destruct (default VUndefined (head args)); try done.
    unfold Pipeline.emit_or_throw. case_decide; [done|].
    intros [= <-]. by rewrite emit_observers.
  - unfold Pipeline.emit_or_throw. case_decide; [done|].
    intros [= <-]. apply emit_observers.
  - by intros [= <-].
  - by intros [= <-].
Qed.

Lemma emission_aborted H s args l :
  foldl (λ acc h, acc ≫= Pipeline.call_handler H h s args) None l = None.
Proof. by induction l. Qed.

(** With somebody listening for errors on the composite, a listener of a
    member returns on an error object, and the shared handler leaves the
    object tagged and re-emitted. *)
Lemma call_handler_tags H s ref rest h q :
  "error" ∈ observers q →
  ∃ q',
    Pipeline.call_handler H h s (VObj ref :: rest) q = Some q'
    ∧ (tagged_and_emitted s ref q → tagged_and_emitted s ref q')
    ∧ (h = ErrorHandler → tagged_and_emitted s ref q').
Proof.
  intros Hobs. unfold tagged_and_emitted.
  assert (Hemit : ∀ ev args q0, observers q0 = observers q →
    Pipeline.emit_or_throw H ev args q0 = Some (Pipeline.emit H ev args q0)).
  { intros ev args q0 Hq0. unfold Pipeline.emit_or_throw.
    rewrite decide_False; [done|]. rewrite Hq0. by intros [_ ?]. }
  destruct h as [| | |ev k|k|name]; simpl;
    rewrite ?Hemit by done; eexists; (split; [done|]).
  - unfold Pipeline._readHandler.
    destruct (emit_frame H "_read" [] q) as [-> ->].
    split; [|done]. intros [Hin Hobj]. split; [|done].
    apply elem_of_app. by left.
  - split; [|done]. by intros [Hin Hobj].
  - match goal with
    | |- context [Pipeline.emit H ?ev ?args ?q0] =>
        destruct (emit_frame H ev args q0) as [-> ->]
    end.
    assert (Hnow : ("error", [VObj ref]) ∈ emitted q ++ [("error", [VObj ref])]
      ∧ (<[ref := <["stream" := VObj s]> (default ∅ (objects q !! ref))]>
           (objects q) !! ref) ≫= (λ props, props !! "stream")
        = Some (VObj s)).
    { split.
      - apply elem_of_app. right. apply list_elem_of_here.
      - rewrite lookup_insert_eq. simpl. by rewrite lookup_insert_eq. }
    by split.
  - destruct (emit_frame H ev (VObj ref :: rest) q) as [-> ->].
    split; [|done]. intros [Hin Hobj]. split; [|done].
    apply elem_of_app. by left.
  - by split.
  - by split.
Qed.

Lemma emission_tags H s ref rest l q :
  "error" ∈ observers q →
  tagged_and_emitted s ref q ∨ ErrorHandler ∈ l →
  ∃ q',
    foldl (λ acc h, acc ≫= Pipeline.call_handler H h s (VObj ref :: rest))
      (Some q) l
    = Some q'
    ∧ tagged_and_emitted s ref q'.
Proof.
  revert q. induction l as [|h l IH]; intros q Hobs Hq.
  - exists q. split; [done|].
    destruct Hq as [?|Hin]; [done|]. by apply elem_of_nil in Hin.
  - destruct (call_handler_tags H s ref rest h q Hobs)
      as (q1 & Hcall & Hkeep & Hnew).
    simpl. rewrite Hcall. apply IH.
    + by rewrite (call_handler_observers _ _ _ _ _ _ Hcall).
    + destruct Hq as [Ht|Hin]; [left; by apply Hkeep|].
      apply elem_of_cons in Hin as [<-|Hin]; [left; by apply Hnew|by right].
Qed.

(** The shared handler throws when the error is not an object, and when
    nobody listens for errors on the composite. *)
Lemma error_handler_throws H s args q :
  (∀ ref, head args ≠ Some (VObj ref)) ∨ "error" ∉ observers q →
  Pipeline.call_handler H ErrorHandler s args q = None.
Proof.
  intros Hcase. simpl. unfold Pipeline._errorHandler.
  destruct args as [|[| | | | |ref] rest]; simpl; try done.
  destruct Hcase as [Hprim|Hobs]; [by destruct (Hprim ref)|].
  unfold Pipeline.emit_or_throw. by rewrite decide_True.
Qed.

Lemma emission_throws H s args l q :
  (∀ ref, head args ≠ Some (VObj ref)) ∨ "error" ∉ observers q →
  ErrorHandler ∈ l →
  foldl (λ acc h, acc ≫= Pipeline.call_handler H h s args) (Some q) l = None.
Proof.
  revert q. induction l as [|h l IH]; intros q Hcase Hin.
  - by apply elem_of_nil in Hin.
  - simpl.
    destruct (Pipeline.call_handler H h s args q) as [q1|] eqn:Hcall;
      [|apply emission_aborted].
    apply elem_of_cons in Hin as [<-|Hin].
    + by rewrite error_handler_throws in Hcall.
    + apply IH; [|done].
      by rewrite (call_handler_observers _ _ _ _ _ _ Hcall).
Qed.

(** A mutation changes nothing about who listens on the composite. *)
Lemma splice_observers index remove streams p :
  observers (Pipeline.splice index remove streams p).2 = observers p.
Proof.
  assert (Hfe : ∀ f l q, (∀ a b q', observers (f a b q') = observers q') →
    observers (forEach_next f l q) = observers q).
  { intros f l q Hf.
    apply (forEach_next_ind (λ q', observers q' = observers q)); [|done].
    intros a b q' Hq'. by rewrite Hf. }
  assert (Hfl : ∀ (f : pipeline → stage → pipeline) l q,
    (∀ q' x, observers (f q' x) = observers q') →
    observers (foldl f q l) = observers q).
  { intros f l q Hf.
    apply (foldl_ind (λ q', observers q' = observers q)); [|done].
    intros q' x Hq'. by rewrite Hf. }
  assert (Hbefore : ∀ q, observers (Pipeline._beforeMutate q) = observers q).
  { intros q. unfold Pipeline._beforeMutate. rewrite Hfe by done.
    by destruct (last (_streams q)). }
  assert (Hafter : ∀ q, observers (Pipeline._afterMutate q) = observers q).
  { intros q. unfold Pipeline._afterMutate. rewrite Hfe by done.
    by destruct (last (_streams q)). }
  unfold Pipeline.splice.
  destruct (JsArray.splice _ _ _ _) as [removed streams'].
  cbn [snd]. rewrite Hafter, Hfl.
  - cbn. by rewrite Hfl, Hbefore.
  - intros q' x.
    by destruct (unbindAll_heap x
      (with_stage x (Emitter.removeListener "error" ErrorHandler) q'))
      as [h ->].
Qed.

Lemma mutate_observers m p : observers (mutate m p).2 = observers p.
Proof.
  destruct (mutate_cases m p) as [(i & r & ss & ->)| ->];
    [apply splice_observers|done].
Qed.

(** C6: from a wired pipeline, after every mutation each stream carries as
    many shared error handlers as it has occurrences in the stream list, so
    a stream carries the handler exactly when it is a member.  The handler
    tags an error object with a reference to the stream it runs on and
    emits it as the composite's own ['error'].  When a member raises an
    error object and somebody listens for errors on the composite, the
    emission goes through and leaves the object tagged with a reference to
    that member and re-emitted on the composite; when nobody listens there,
    the re-emission throws, as an unhandled ['error'] does; and when what
    the member raises is not an object, the handler throws at the tagging
    and nothing is re-emitted. *)
Theorem error_handler_follows_membership H m p :
  wired p →
  (∀ s, occurrences ErrorHandler
          (Emitter.listeners (stage_at (mutate m p).2 s) "error")
        = occurrences s (_streams (mutate m p).2))
  ∧ (∀ s, has_error (mutate m p).2 s ↔ s ∈ _streams (mutate m p).2)
  ∧ (∀ s ref q,
       Pipeline._errorHandler H s (VObj ref) q
       = Pipeline.emit_or_throw H "error" [VObj ref]
           (set_objects
              (<[ref := <["stream" := VObj s]> (default ∅ (objects q !! ref))]>
                 (objects q)) q))
  ∧ (∀ s ref rest, s ∈ _streams (mutate m p).2 → "error" ∈ observers p →
       ∃ p'',
         Pipeline.stage_emit H s "error" (VObj ref :: rest) (mutate m p).2
         = Some p''
         ∧ tagged_and_emitted s ref p'')
  ∧ (∀ s ref rest, s ∈ _streams (mutate m p).2 → "error" ∉ observers p →
       Pipeline.stage_emit H s "error" (VObj ref :: rest) (mutate m p).2
       = None)
  ∧ (∀ s args, s ∈ _streams (mutate m p).2 →
       (∀ ref, head args ≠ Some (VObj ref)) →
       Pipeline.stage_emit H s "error" args (mutate m p).2 = None).
Proof.
  intros Hw. apply (mutate_wired m) in Hw.
  split; [apply (wired_error _ Hw)|].
  split; [intros s; by apply wired_has_error|].
  split; [done|].
  split; [|split].
  - intros s ref rest Hin Hobs. apply emission_tags.
    + by rewrite mutate_observers.
    + right. by apply (wired_has_error _ s Hw).
  - intros s ref rest Hin Hobs. apply emission_throws.
    + right. by rewrite mutate_observers.
    + by apply (wired_has_error _ s Hw).
  - intros s args Hin Hprim. apply emission_throws; [by left|].
    by apply (wired_has_error _ s Hw).
Qed.

Lemma error_handler_follows_membership_witness :
  wired (Pipeline.on "error" (Pipeline.new (Some [0; 1; 2]) ∅))
  ∧ ∃ p'',
      Pipeline.stage_emit (Host (λ _, true) (λ _ _, true)) 3 "error" [VObj 0]
        (mutate (MAppend [3])
           (Pipeline.on "error" (Pipeline.new (Some [0; 1; 2]) ∅))).2
      = Some p''
      ∧ tagged_and_emitted 3 0 p''.
Proof.
  assert (Hw : wired (Pipeline.on "error" (Pipeline.new (Some [0; 1; 2]) ∅)))
    by (apply wired_on, wired_new; intros s st Hs; by rewrite lookup_empty in Hs).
  split; [exact Hw|].
  apply (proj1 (proj2 (proj2 (proj2
    (error_handler_follows_membership (Host (λ _, true) (λ _ _, true))
       (MAppend [3]) _ Hw))))).
  - vm_compute. do 3 apply list_elem_of_further. apply list_elem_of_here.
  - vm_compute. apply list_elem_of_here.
Defined.

(** A member raises a string, with somebody listening for errors on the
    composite: the shared handler throws at the tagging, the emission is
    aborted. *)
Lemma error_that_is_no_object_is_not_relayed :
  let p := Pipeline.on "error" (Pipeline.new (Some [0; 1; 2]) ∅) in
  "error" ∈ observers p
  ∧ has_error p 1
  ∧ ¬ relays_error (Host (λ _, true) (λ _ _, true)) 1 [VStr "broken"] p.
Proof.
  cbv zeta. split; [vm_compute; apply list_elem_of_here|].
  split; [vm_compute; apply list_elem_of_here|].
  intros (p' & Hemit & _). vm_compute in Hemit. discriminate.
Qed.

(** ** Looking streams up *)

Lemma find_from_spec (s : stage) l k :
  (JsArray.find_from s l k = (-1)%Z ∧ s ∉ l)
  ∨ ∃ i : nat,
      JsArray.find_from s l k = (k + Z.of_nat i)%Z
      ∧ l !! i = Some s
      ∧ ∀ j, j < i → l !! j ≠ Some s.
Proof.
  revert k. induction l as [|a l IH]; intros k.
  - left. split; [done|]. apply not_elem_of_nil.
  - simpl. destruct (decide (a = s)) as [->|Hne].
    + right. exists 0. split; [lia|]. split; [done|]. intros j Hj. lia.
    + destruct (IH (k + 1)%Z) as [[Hf Hn]|(i & Hf & Hi & Hmin)].
      * left. split; [done|]. by apply not_elem_of_cons.
      * right. exists (S i). split; [lia|]. split; [done|].
        intros [|j] Hj; simpl; [congruence|]. apply Hmin. lia.
Qed.

Lemma scan_down_spec (s : stage) arr k :
  (JsArray.scan_down s arr k = (-1)%Z ∧ ∀ j, j ≤ k → arr !! j ≠ Some s)
  ∨ ∃ i : nat,
      JsArray.scan_down s arr k = Z.of_nat i
      ∧ i ≤ k ∧ arr !! i = Some s
      ∧ ∀ j, i < j ≤ k → arr !! j ≠ Some s.
Proof.
  induction k as [|k IH]; simpl.
  - destruct (decide (arr !! 0 = Some s)) as [H0|H0].
    + right. exists 0. repeat split; try done. intros j Hj. lia.
    + left. split; [done|]. intros j Hj. by replace j with 0 by lia.
  - destruct (decide (arr !! S k = Some s)) as [Hk|Hk].
    + right. exists (S k). repeat split; try done. intros j Hj. lia.
    + destruct IH as [[Hs Hn]|(i & Hs & Hi & Hl & Hn)].
      * left. split; [done|]. intros j Hj.
        destruct (decide (j = S k)) as [->|?]; [done|]. apply Hn. lia.
      * right. exists i. split; [done|]. split; [lia|]. split; [done|].
        intros j Hj.
        destruct (decide (j = S k)) as [->|?]; [done|]. apply Hn. lia.
Qed.

Lemma get_nat p (i : nat) : Pipeline.get (Z.of_nat i) p = _streams p !! i.
Proof.
  unfold Pipeline.get.
  destruct (Z.leb_spec 0 (Z.of_nat i)); [|lia].
  destruct (Z.ltb_spec (Z.of_nat i) 0); [lia|].
  by rewrite Nat2Z.id.
Qed.

(** X1: [get(index)] reads the list from either end: for a position i below the
    length, [get(i)] and [get(i - length)] are both the stream at i; an index
    from the length upwards, or below minus the length, gives nothing. *)
Theorem get_reads_from_either_end p (i : nat) :
  i < Pipeline.length p →
  (∃ s, _streams p !! i = Some s
        ∧ Pipeline.get (Z.of_nat i) p = Some s
        ∧ Pipeline.get (Z.of_nat i - Z.of_nat (Pipeline.length p)) p = Some s)
  ∧ Pipeline.get (-1) p = last (_streams p)
  ∧ ∀ index,
      (index < - Z.of_nat (Pipeline.length p)
       ∨ Z.of_nat (Pipeline.length p) ≤ index)%Z →
      Pipeline.get index p = None.
Proof.
  unfold Pipeline.length. intros Hi.
  split; [|split].
  - destruct (lookup_lt_is_Some_2 (_streams p) i Hi) as [s Hs].
    exists s. split; [done|]. split; [by rewrite get_nat|].
    unfold Pipeline.get.
    destruct (Z.leb_spec 0 (Z.of_nat i - Z.of_nat (List.length (_streams p))));
      [lia|].
    replace (Z.of_nat (List.length (_streams p))
             + (Z.of_nat i - Z.of_nat (List.length (_streams p))))%Z
      with (Z.of_nat i) by lia.
    destruct (Z.ltb_spec (Z.of_nat i) 0); [lia|]. by rewrite Nat2Z.id.
  - unfold Pipeline.get. rewrite last_lookup. simpl.
    destruct (Z.ltb_spec (Z.of_nat (List.length (_streams p)) + -1) 0); [lia|].
    f_equal. lia.
  - intros index Hout. unfold Pipeline.get.
    destruct (Z.leb_spec 0 index).
    + destruct (Z.ltb_spec index 0); [done|].
      apply lookup_ge_None. lia.
    + destruct (Z.ltb_spec (Z.of_nat (List.length (_streams p)) + index) 0);
        [done|lia].
Qed.

Lemma get_reads_from_either_end_witness :
  ∃ s, _streams (Pipeline.new (Some [4; 5; 6]) ∅) !! 2 = Some s
       ∧ Pipeline.get 2 (Pipeline.new (Some [4; 5; 6]) ∅) = Some s
       ∧ Pipeline.get (2 - 3) (Pipeline.new (Some [4; 5; 6]) ∅) = Some s.
Proof.
  apply (get_reads_from_either_end (Pipeline.new (Some [4; 5; 6]) ∅) 2).
  vm_compute. lia.
Defined.

(** X2: [indexOf(stream, fromIndex)] is a first-match search from the start
    position (0 without [fromIndex], [fromIndex] itself when it is not
    negative, else the length plus it, floored at 0): the answer is -1
    exactly when no position from there on holds the stream, and otherwise it
    is the first such position, which [get] maps back to the stream. *)
Theorem indexOf_finds_the_first s fromIndex p :
  let k :=
    match fromIndex with
    | None => 0
    | Some f =>
        if (0 <=? f)%Z then Z.to_nat f
        else Z.to_nat (Z.of_nat (Pipeline.length p) + f)
    end in
  (Pipeline.indexOf s fromIndex p = (-1)%Z
   ∧ ∀ j, k ≤ j → _streams p !! j ≠ Some s)
  ∨ ∃ i : nat,
      Pipeline.indexOf s fromIndex p = Z.of_nat i
      ∧ k ≤ i
      ∧ Pipeline.get (Z.of_nat i) p = Some s
      ∧ ∀ j, k ≤ j < i → _streams p !! j ≠ Some s.
Proof.
  intros k. unfold Pipeline.indexOf, JsArray.indexOf, Pipeline.length in *.
  set (l := _streams p) in *. set (n := default 0%Z fromIndex).
  assert (Hk : k = if (0 <=? n)%Z then Z.to_nat n
                   else Z.to_nat (Z.of_nat (List.length l) + n)).
  { unfold k, n. by destruct fromIndex. }
  clearbody k n.
  destruct (Z.leb_spec (Z.of_nat (List.length l)) n) as [Hge|Hlt].
  { left. split; [done|]. intros j Hj.
    destruct (Z.leb_spec 0 n); [|lia].
    rewrite (proj2 (lookup_ge_None l j)); [done|lia]. }
  set (k' := if (0 <=? n)%Z then n
             else Z.max (Z.of_nat (List.length l) + n) 0).
  assert (Hk' : k' = Z.of_nat k)
    by (unfold k'; subst k; destruct (Z.leb_spec 0 n); lia).
  rewrite Hk', Nat2Z.id.
  destruct (find_from_spec s (drop k l) (Z.of_nat k))
    as [[Hf Hn]|(i & Hf & Hi & Hmin)].
  - left. split; [done|]. intros j Hj Hjs. apply Hn.
    apply list_elem_of_lookup. exists (j - k). rewrite lookup_drop.
    by replace (k + (j - k)) with j by lia.
  - right. exists (k + i). rewrite lookup_drop in Hi.
    split; [rewrite Hf; lia|]. split; [lia|]. split; [by rewrite get_nat|].
    intros j Hj Hjs. apply (Hmin (j - k)); [lia|].
    rewrite lookup_drop. by replace (k + (j - k)) with j by lia.
Qed.

(** X3: [lastIndexOf(stream, fromIndex)] with a numeric [fromIndex] is a
    last-match search up to the bound ([fromIndex] itself when it is not
    negative, else the length plus it): -1 exactly when no position up to the
    bound holds the stream, otherwise the last such position. *)
Theorem lastIndexOf_finds_the_last_up_to s f p :
  let bound :=
    if (0 <=? f)%Z then f else (Z.of_nat (Pipeline.length p) + f)%Z in
  (Pipeline.lastIndexOf s (Some f) p = (-1)%Z
   ∧ ∀ j : nat, (Z.of_nat j ≤ bound)%Z → _streams p !! j ≠ Some s)
  ∨ ∃ i : nat,
      Pipeline.lastIndexOf s (Some f) p = Z.of_nat i
      ∧ (Z.of_nat i ≤ bound)%Z
      ∧ Pipeline.get (Z.of_nat i) p = Some s
      ∧ ∀ j : nat, (Z.of_nat i < Z.of_nat j ≤ bound)%Z →
          _streams p !! j ≠ Some s.
Proof.
  intros bound. unfold Pipeline.lastIndexOf, JsArray.lastIndexOf,
    Pipeline.length in *. simpl.
  set (l := _streams p) in *.
  destruct (Z.eqb_spec (Z.of_nat (List.length l)) 0) as [Hz|Hnz].
  { left. split; [done|]. intros j _.
    rewrite (proj2 (lookup_ge_None l j)); [done|lia]. }
  set (k := if (0 <=? f)%Z then Z.min f (Z.of_nat (List.length l) - 1)
            else (Z.of_nat (List.length l) + f)%Z).
  assert (Hkb : (k ≤ bound)%Z
    ∧ ∀ j : nat, (k < Z.of_nat j ≤ bound)%Z → l !! j = None).
  { unfold k, bound. destruct (Z.leb_spec 0 f).
    - split; [lia|]. intros j Hj. apply lookup_ge_None. lia.
    - split; [lia|]. intros j Hj. lia. }
  destruct Hkb as [Hkb Hbeyond].
  destruct (Z.ltb_spec k 0) as [Hneg|Hpos].
  { left. split; [done|]. intros j Hj.
    destruct (decide (Z.of_nat j ≤ k)%Z); [lia|].
    rewrite Hbeyond; [done|lia]. }
  destruct (scan_down_spec s l (Z.to_nat k))
    as [[Hs Hn]|(i & Hs & Hi & Hl & Hn)].
  - left. split; [done|]. intros j Hj.
    destruct (decide (Z.of_nat j ≤ k)%Z); [apply Hn; lia|].
    rewrite Hbeyond; [done|lia].
  - right. exists i. split; [done|]. split; [lia|].
    split; [by rewrite get_nat|]. intros j Hj.
    destruct (decide (Z.of_nat j ≤ k)%Z); [apply Hn; lia|].
    rewrite Hbeyond; [done|lia].
Qed.

(** X4: [lastIndexOf(stream)] without [fromIndex] looks at position 0 only: the
    method passes the missing argument on as [undefined], which the array
    search takes as the bound 0.  A stream that is a member elsewhere only
    is reported absent. *)
Theorem lastIndexOf_without_bound_sees_the_head s p :
  Pipeline.lastIndexOf s None p
  = (if decide (head (_streams p) = Some s) then 0 else -1)%Z
  ∧ ∀ x rest, _streams p = x :: rest → x ≠ s → s ∈ rest →
      Pipeline.lastIndexOf s None p = (-1)%Z
      ∧ Pipeline.indexOf s None p ≠ (-1)%Z.
Proof.
  assert (Hhead : Pipeline.lastIndexOf s None p
    = (if decide (head (_streams p) = Some s) then 0 else -1)%Z).
  { unfold Pipeline.lastIndexOf, JsArray.lastIndexOf. simpl.
    destruct (_streams p) as [|x rest]; [done|].
    destruct (Z.eqb_spec (Z.of_nat (List.length (x :: rest))) 0) as [Hz|_];
      [simpl in Hz; lia|].
    replace (Z.min 0 (Z.of_nat (List.length (x :: rest)) - 1)) with 0%Z
      by (simpl; lia).
    simpl. by repeat case_decide. }
  split; [done|]. intros x rest Hl Hx Hin. rewrite Hhead, Hl. simpl.
  split; [rewrite decide_False; [done|congruence]|].
  destruct (indexOf_present s p) as (i & -> & _); [|lia].
  rewrite Hl. by apply list_elem_of_further.
Qed.

Lemma lastIndexOf_without_bound_sees_the_head_witness :
  Pipeline.lastIndexOf 5 None (Pipeline.new (Some [4; 5; 6]) ∅) = (-1)%Z
  ∧ Pipeline.indexOf 5 None (Pipeline.new (Some [4; 5; 6]) ∅) ≠ (-1)%Z.
Proof.
  apply (proj2 (lastIndexOf_without_bound_sees_the_head 5
    (Pipeline.new (Some [4; 5; 6]) ∅)) 4 [5; 6]).
  - reflexivity.
  - discriminate.
  - apply list_elem_of_here.
Defined.

(** ** The stream list after a mutation *)

Lemma splice_lists index remove streams p :
  let n := Z.of_nat (List.length (_streams p)) in
  let i := Z.to_nat (normalized_index n index) in
  let k := Z.to_nat (clamped_count n (normalized_index n index) remove) in
  (- n ≤ index ≤ n)%Z →
  i + k ≤ List.length (_streams p)
  ∧ (Pipeline.splice index remove streams p).1 = take k (drop i (_streams p))
  ∧ _streams (Pipeline.splice index remove streams p).2
    = take i (_streams p) ++ streams ++ drop (i + k) (_streams p).
Proof.
  intros n i k Hrange.
  destruct (splice_results index remove streams p) as [-> ->].
  fold n. subst i k.
  set (zi := normalized_index n index).
  set (zk := clamped_count n zi remove).
  assert (Hi : (0 ≤ zi ≤ n)%Z)
    by (unfold zi, normalized_index; destruct (Z.ltb_spec index 0); lia).
  assert (Hk : (0 ≤ zk ≤ n - zi)%Z) by (unfold zk, clamped_count; lia).
  assert (Hik : Z.to_nat zi + Z.to_nat zk ≤ List.length (_streams p))
    by (unfold n in *; lia).
  split; [done|].
  pose proof (js_splice_in_range (_streams p) (Z.to_nat zi) (Z.to_nat zk)
    streams Hik) as Hsp.
  rewrite !Z2Nat.id in Hsp by lia. by rewrite Hsp.
Qed.

(** X5: Whatever the index and the count, [splice] takes one contiguous run out
    of the list and puts the new streams in its place: the streams before and
    after the run keep their places and their order, and the lengths add
    up. *)
Theorem splice_replaces_one_run index remove streams p :
  ∃ pre post,
    _streams p = pre ++ (Pipeline.splice index remove streams p).1 ++ post
    ∧ _streams (Pipeline.splice index remove streams p).2
      = pre ++ streams ++ post
    ∧ Pipeline.length (Pipeline.splice index remove streams p).2
      + List.length (Pipeline.splice index remove streams p).1
      = Pipeline.length p + List.length streams.
Proof.
  destruct (splice_streams index remove streams p)
    as (pre & post & Hold & Hnew).
  exists pre, post. split; [done|]. split; [done|].
  unfold Pipeline.length. rewrite Hnew, Hold, !length_app. lia.
Qed.

(** X6: With the count left out, [splice(index, undefined, ...streams)] cuts the
    list at the index (counted from the end when negative), returns
    everything from there on and puts the new streams at the end; at index 0
    it replaces the whole list. *)
Theorem splice_without_count_truncates index streams p :
  (- Z.of_nat (Pipeline.length p) ≤ index ≤ Z.of_nat (Pipeline.length p))%Z →
  let i := Z.to_nat (normalized_index (Z.of_nat (Pipeline.length p)) index) in
  (Pipeline.splice index None streams p).1 = drop i (_streams p)
  ∧ _streams (Pipeline.splice index None streams p).2
    = take i (_streams p) ++ streams.
Proof.
  intros Hrange i. unfold Pipeline.length in *.
  destruct (splice_lists index None streams p Hrange) as (Hik & -> & ->).
  fold i in Hik |- *.
  set (k := Z.to_nat (clamped_count _ _ None)) in *.
  assert (Hk : i + k = List.length (_streams p)).
  { unfold k, clamped_count, i in *. simpl.
    assert (0 ≤ normalized_index (Z.of_nat (List.length (_streams p))) index
            ≤ Z.of_nat (List.length (_streams p)))%Z
      by (unfold normalized_index; destruct (Z.ltb_spec index 0); lia).
    lia. }
  split.
  - apply take_ge. rewrite length_drop. lia.
  - rewrite Hk, drop_all. by rewrite app_nil_r.
Qed.

Lemma splice_without_count_truncates_witness :
  (Pipeline.splice (-2) None [9] (Pipeline.new (Some [4; 5; 6]) ∅)).1 = [5; 6]
  ∧ _streams (Pipeline.splice (-2) None [9] (Pipeline.new (Some [4; 5; 6]) ∅)).2
    = [4; 9].
Proof.
  apply (splice_without_count_truncates (-2) [9]
           (Pipeline.new (Some [4; 5; 6]) ∅)).
  vm_compute. split; discriminate.
Defined.

Lemma splice_insert_streams index streams p :
  let n := Z.of_nat (List.length (_streams p)) in
  let i := normalized_index n index in
  let j := Z.to_nat (if (i <? 0)%Z then Z.max (n + i) 0 else Z.min i n) in
  _streams (Pipeline.splice index (Some 0%Z) streams p).2
  = take j (_streams p) ++ streams ++ drop j (_streams p).
Proof.
  intros n i j.
  destruct (splice_results index (Some 0%Z) streams p) as [_ ->].
  fold n i. unfold JsArray.splice. cbn [snd]. fold n j.
  replace (Z.to_nat _) with 0
    by (unfold clamped_count; destruct (Z.ltb_spec i 0); simpl; lia).
  by rewrite Nat.add_0_r.
Qed.

(** X7: [append] puts the new streams after the old ones and [prepend] before
    them, each returning the old length plus the number of streams given. *)
Theorem append_prepend_place streams p :
  _streams (Pipeline.append streams p).2 = _streams p ++ streams
  ∧ (Pipeline.append streams p).1 = Pipeline.length p + List.length streams
  ∧ _streams (Pipeline.prepend streams p).2 = streams ++ _streams p
  ∧ (Pipeline.prepend streams p).1 = Pipeline.length p + List.length streams.
Proof.
  unfold Pipeline.append, Pipeline.prepend. cbn [fst snd].
  rewrite !splice_zero_length, !splice_insert_streams.
  unfold normalized_index.
  destruct (Z.ltb_spec (Z.of_nat (List.length (_streams p))) 0); [lia|].
  destruct (Z.ltb_spec (Z.of_nat (List.length (_streams p))) 0); [lia|].
  simpl.
  rewrite Z.min_id, Nat2Z.id, take_ge, drop_all by lia.
  rewrite Z.min_l by lia. simpl.
  by rewrite drop_0, app_nil_r.
Qed.

(** X8: [insert(index, ...streams)] with a number from minus the length upwards
    puts the new streams in front of the stream at that index (counted from
    the end when negative); an index beyond the end appends.  It returns the
    new length and never throws. *)
Theorem insert_places_at_index index streams p :
  (- Z.of_nat (Pipeline.length p) ≤ index)%Z →
  let j :=
    Z.to_nat (if (index <? 0)%Z then Z.of_nat (Pipeline.length p) + index
              else Z.min index (Z.of_nat (Pipeline.length p)))%Z in
  ∃ p',
    Pipeline.insert (VNum index) streams p
    = Returned (Pipeline.length p + List.length streams) p'
    ∧ _streams p' = take j (_streams p) ++ streams ++ drop j (_streams p).
Proof.
  intros Hrange j. unfold Pipeline.length in *.
  exists (Pipeline.splice index (Some 0%Z) streams p).2.
  cbn [Pipeline.insert]. rewrite splice_zero_length. split; [done|].
  rewrite splice_insert_streams. unfold normalized_index, j.
  destruct (Z.ltb_spec index 0) as [Hneg|Hpos].
  - destruct (Z.ltb_spec (Z.of_nat (List.length (_streams p)) + index) 0);
      [lia|].
    by rewrite Z.min_l by lia.
  - destruct (Z.ltb_spec index 0); [lia|done].
Qed.

Lemma insert_places_at_index_witness :
  ∃ p',
    Pipeline.insert (VNum (-1)) [9] (Pipeline.new (Some [4; 5; 6]) ∅)
    = Returned (3 + 1) p'
    ∧ _streams p' = [4; 5] ++ [9] ++ [6].
Proof.
  apply (insert_places_at_index (-1) [9] (Pipeline.new (Some [4; 5; 6]) ∅)).
  vm_compute. discriminate.
Defined.

(** X9: [shift()] on a non-empty pipeline returns the first stream and leaves
    the others in order; [pop()] returns the last and leaves the others. *)
Theorem shift_pop_take_the_ends p :
  (∀ x rest, _streams p = x :: rest →
     (Pipeline.shift p).1 = Some x ∧ _streams (Pipeline.shift p).2 = rest)
  ∧ (∀ x front, _streams p = front ++ [x] →
     (Pipeline.pop p).1 = Some x ∧ _streams (Pipeline.pop p).2 = front).
Proof.
  split.
  - intros x rest Hl. unfold Pipeline.shift.
    destruct (splice_lists 0 (Some 1%Z) [] p) as (_ & Hrem & Hnew); [lia|].
    destruct (Pipeline.splice 0 (Some 1%Z) [] p) as [removed p'].
    cbn [fst snd] in *. rewrite Hrem, Hnew, Hl.
    replace (Z.to_nat (clamped_count _ _ _)) with 1
      by (unfold clamped_count, normalized_index; simpl; lia).
    by simpl.
  - intros x front Hl. unfold Pipeline.pop.
    assert (Hn : List.length (_streams p) = S (List.length front))
      by (rewrite Hl, length_app; simpl; lia).
    destruct (splice_lists (Z.of_nat (List.length (_streams p)) - 1)
      (Some 1%Z) [] p) as (_ & Hrem & Hnew); [lia|].
    destruct (Pipeline.splice _ (Some 1%Z) [] p) as [removed p'].
    cbn [fst snd] in *. rewrite Hrem, Hnew.
    replace (Z.to_nat (normalized_index _ _)) with (List.length front)
      by (unfold normalized_index;
          destruct (Z.ltb_spec (Z.of_nat (List.length (_streams p)) - 1) 0);
          lia).
    replace (Z.to_nat (clamped_count _ _ _)) with 1.
    2:{ unfold clamped_count, normalized_index.
        destruct (Z.ltb_spec (Z.of_nat (List.length (_streams p)) - 1) 0);
          simpl; lia. }
    rewrite Hl, drop_app_length, take_app_length. simpl.
    rewrite drop_ge by (rewrite length_app; simpl; lia).
    by rewrite app_nil_r.
Qed.

Lemma shift_pop_take_the_ends_witness :
  (Pipeline.shift (Pipeline.new (Some [4; 5; 6]) ∅)).1 = Some 4
  ∧ _streams (Pipeline.shift (Pipeline.new (Some [4; 5; 6]) ∅)).2 = [5; 6].
Proof.
  apply (proj1 (shift_pop_take_the_ends (Pipeline.new (Some [4; 5; 6]) ∅))).
  reflexivity.
Defined.

(** X10: [remove(stream)] of a member takes out its first occurrence only: the
    stream is returned, the list is the old one without that position, and
    the stream has one occurrence fewer. *)
Theorem remove_takes_first_occurrence s p :
  s ∈ _streams p →
  ∃ i,
    _streams p !! i = Some s
    ∧ (∀ j, j < i → _streams p !! j ≠ Some s)
    ∧ (Pipeline.remove s p).1 = Some s
    ∧ _streams (Pipeline.remove s p).2
      = take i (_streams p) ++ drop (S i) (_streams p)
    ∧ occurrences s (_streams (Pipeline.remove s p).2)
      = pred (occurrences s (_streams p)).
Proof.
  intros Hin. rewrite remove_present by done. cbn [fst snd].
  assert (Hidx : ∃ i, Pipeline.indexOf s None p = Z.of_nat i
    ∧ _streams p !! i = Some s ∧ ∀ j, j < i → _streams p !! j ≠ Some s).
  { unfold Pipeline.indexOf, JsArray.indexOf. simpl.
    destruct (Z.leb_spec (Z.of_nat (List.length (_streams p))) 0) as [Hle|_].
    { destruct (_streams p);
        [by apply elem_of_nil in Hin | simpl in Hle; lia]. }
    destruct (find_from_spec s (_streams p) 0)
      as [[_ Hn]|(i & Hf & Hi & Hmin)]; [done|].
    rewrite Z.add_0_l in Hf. exists i. split; [exact Hf|done]. }
  destruct Hidx as (i & -> & Hi & Hmin).
  exists i. split; [done|]. split; [done|]. split; [done|].
  pose proof (lookup_lt_Some _ _ _ Hi) as Hlt.
  destruct (splice_lists (Z.of_nat i) (Some 1%Z) [] p) as (_ & _ & Hnew);
    [lia|].
  rewrite Hnew.
  replace (Z.to_nat (normalized_index _ _)) with i
    by (unfold normalized_index;
        destruct (Z.ltb_spec (Z.of_nat i) 0); lia).
  replace (Z.to_nat (clamped_count _ _ _)) with 1.
  2:{ unfold clamped_count, normalized_index.
      destruct (Z.ltb_spec (Z.of_nat i) 0); simpl; lia. }
  replace (i + 1) with (S i) by lia. simpl. split; [done|].
  rewrite <- (take_drop_middle _ _ _ Hi) at 3.
  rewrite !occurrences_app, occurrences_cons, decide_True by done. lia.
Qed.

Lemma remove_takes_first_occurrence_witness :
  ∃ i,
    _streams (Pipeline.new (Some [4; 5; 4]) ∅) !! i = Some 4
    ∧ (∀ j, j < i → _streams (Pipeline.new (Some [4; 5; 4]) ∅) !! j ≠ Some 4)
    ∧ (Pipeline.remove 4 (Pipeline.new (Some [4; 5; 4]) ∅)).1 = Some 4
    ∧ _streams (Pipeline.remove 4 (Pipeline.new (Some [4; 5; 4]) ∅)).2
      = take i (_streams (Pipeline.new (Some [4; 5; 4]) ∅))
        ++ drop (S i) (_streams (Pipeline.new (Some [4; 5; 4]) ∅))
    ∧ occurrences 4 (_streams (Pipeline.remove 4 (Pipeline.new (Some [4; 5; 4]) ∅)).2)
      = pred (occurrences 4 (_streams (Pipeline.new (Some [4; 5; 4]) ∅))).
Proof.
  apply (remove_takes_first_occurrence 4 (Pipeline.new (Some [4; 5; 4]) ∅)).
  vm_compute. apply list_elem_of_here.
Defined.

(** ** The constructor *)

Lemma new_streams streams h : _streams (Pipeline.new (Some streams) h) = streams.
Proof.
  unfold Pipeline.new. rewrite splice_insert_streams. simpl.
  by rewrite app_nil_r.
Qed.

(** X11: [new Pipeline(streams)] over stream objects nobody has wired installs
    exactly the given streams, in order, and wires them: adjacent streams are
    piped, the last one is observed, every member carries the error handler;
    it is the pipeline [prepend] makes of an empty one. *)
Theorem constructor_installs_and_wires streams h :
  (∀ s st, h !! s = Some st → pristine st) →
  _streams (Pipeline.new (Some streams) h) = streams
  ∧ Pipeline.new (Some streams) h
    = (Pipeline.prepend streams (Pipeline.new None h)).2
  ∧ wired (Pipeline.new (Some streams) h)
  ∧ adjacent_piped (Pipeline.new (Some streams) h)
  ∧ last_observed (Pipeline.new (Some streams) h)
  ∧ ∀ s, has_error (Pipeline.new (Some streams) h) s ↔ s ∈ streams.
Proof.
  intros Hh. pose proof (wired_new h Hh (Some streams)) as Hw.
  split; [apply new_streams|]. split; [done|]. split; [done|].
  split; [by apply wired_adjacent_piped|].
  split; [by apply wired_last_observed|].
  intros s. by rewrite (wired_has_error _ s Hw), new_streams.
Qed.

Lemma constructor_installs_and_wires_witness :
  _streams (Pipeline.new (Some [4; 5; 6]) ∅) = [4; 5; 6]
  ∧ Pipeline.new (Some [4; 5; 6]) ∅
    = (Pipeline.prepend [4; 5; 6] (Pipeline.new None ∅)).2
  ∧ wired (Pipeline.new (Some [4; 5; 6]) ∅)
  ∧ adjacent_piped (Pipeline.new (Some [4; 5; 6]) ∅)
  ∧ last_observed (Pipeline.new (Some [4; 5; 6]) ∅)
  ∧ ∀ s, has_error (Pipeline.new (Some [4; 5; 6]) ∅) s ↔ s ∈ [4; 5; 6].
Proof.
  apply constructor_installs_and_wires.
  intros s st Hs. by rewrite lookup_empty in Hs.
Defined.

(** ** The rebinder, one name at a time *)

Lemma bind_cons s ev evs p :
  Pipeline.bind s (ev :: evs) p = Pipeline.bind s evs (Pipeline.bind s [ev] p).
Proof.
  unfold Pipeline.bind. fold (ensure_registry s p). cbn [foldl].
  match goal with
  | |- foldl ?f ?q evs = _ =>
      assert (Hq : ensure_registry s q = q);
        [|fold (ensure_registry s q); by rewrite Hq]
  end.
  assert (Hsome : ∀ q, ensure_registry s (ensure_registry s q)
                       = ensure_registry s q).
  { intros q. unfold ensure_registry at 1.
    eapply with_stage_id; [apply heap_with_stage|].
    by destruct (stage_at q s) as [? ? [?|] ? ? ?]. }
  destruct (is_nullish (registry_lookup (stage_at (ensure_registry s p) s) ev));
    [|apply Hsome].
  unfold ensure_registry at 1.
  eapply with_stage_id; [apply heap_with_stage|].
  rewrite stage_at_with_stage_eq.
  change (stage_at (set_closures ?n ?q)) with (stage_at q).
  unfold ensure_registry. rewrite stage_at_with_stage_eq.
  by destruct (stage_at p s) as [? ? [?|] ? ? ?].
Qed.

Lemma unbind_registered_cons s ev evs p :
  unbind_registered s (ev :: evs) p
  = unbind_registered s evs (unbind_registered s [ev] p).
Proof.
  unfold unbind_registered.
  destruct (st_registry (stage_at p s)) as [r|] eqn:Hr; [|by rewrite Hr].
  simpl.
  destruct (registry_get (stage_at p s) ev) as [h|] eqn:Hg; [|by rewrite Hr].
  rewrite !stage_at_with_stage_eq.
  unfold registry_set. rewrite registry_removeListener, Hr. done.
Qed.

Lemma plain_unbind_registered s ev p x :
  plain (stage_at p s) x → plain (stage_at (unbind_registered s [ev] p) s) x.
Proof.
  intros Hx. unfold unbind_registered.
  destruct (st_registry (stage_at p s)); [|done]. cbn [foldl].
  destruct (registry_get (stage_at p s) ev); [|done].
  by apply plain_unbind_step.
Qed.

Lemma unbind_cons s ev evs p :
  (∀ x, x ∈ ev :: evs → plain (stage_at p s) x) →
  Pipeline.unbind s (ev :: evs) p
  = Pipeline.unbind s evs (Pipeline.unbind s [ev] p).
Proof.
  intros Hplain.
  rewrite (unbind_plain_state s [ev])
    by (intros x ->%list_elem_of_singleton; apply Hplain, list_elem_of_here).
  rewrite !unbind_plain_state; [apply unbind_registered_cons| |done].
  intros x Hx. by apply plain_unbind_registered, Hplain, list_elem_of_further.
Qed.

Lemma bind_other s evs p t : t ≠ s → stage_at (Pipeline.bind s evs p) t = stage_at p t.
Proof.
  intros Hne. unfold Pipeline.bind.
  apply (foldl_ind (λ q, stage_at q t = stage_at p t)).
  - intros q ev Hq.
    destruct (is_nullish (registry_lookup (stage_at q s) ev)); [|done].
    rewrite !stage_at_with_stage_ne by done. done.
  - by rewrite stage_at_with_stage_ne.
Qed.

Lemma unbind_each_other s evs p t :
  t ≠ s →
  stage_at (state_after (Pipeline.unbind_each s evs p)) t = stage_at p t.
Proof.
  intros Hne. revert p. induction evs as [|ev evs IH]; intros p; [done|].
  cbn [Pipeline.unbind_each].
  destruct (registry_lookup (stage_at p s) ev); [apply IH|apply IH| |done].
  by rewrite IH, !stage_at_with_stage_ne.
Qed.

Lemma unbind_other s evs p t :
  t ≠ s → stage_at (Pipeline.unbind s evs p) t = stage_at p t.
Proof.
  intros Hne. unfold Pipeline.unbind, Pipeline.unbind_call.
  destruct (st_registry (stage_at p s)); [|done].
  by apply unbind_each_other.
Qed.

Lemma unbindAll_other s p t :
  t ≠ s → stage_at (Pipeline.unbindAll s p) t = stage_at p t.
Proof.
  intros Hne. unfold Pipeline.unbindAll.
  destruct (st_registry (stage_at p s)); [|done].
  rewrite stage_at_with_stage_ne by done. by apply unbind_other.
Qed.

Lemma unbind_registered_get s evs p e :
  registry_get (stage_at (unbind_registered s evs p) s) e
  = if decide (e ∈ evs) then None else registry_get (stage_at p s) e.
Proof.
  revert p. induction evs as [|x evs IH]; intros p.
  - rewrite decide_False by apply not_elem_of_nil.
    unfold unbind_registered. by destruct (st_registry _).
  - rewrite unbind_registered_cons, IH.
    assert (Hone : registry_get (stage_at (unbind_registered s [x] p) s) e
      = if decide (e = x) then None else registry_get (stage_at p s) e).
    { unfold unbind_registered.
      destruct (st_registry (stage_at p s)) as [r|] eqn:Hr.
      - simpl. destruct (registry_get (stage_at p s) x) as [h|] eqn:Hg.
        + rewrite !stage_at_with_stage_eq, registry_get_set,
            registry_removeListener, registry_get_removeListener, Hr. done.
        + destruct (decide (e = x)) as [->|?]; [exact Hg|done].
      - unfold registry_get. rewrite Hr. by destruct (decide (e = x)). }
    rewrite Hone.
    destruct (decide (e ∈ evs)) as [Hin|Hnin].
    + by rewrite decide_True by by apply list_elem_of_further.
    + destruct (decide (e = x)) as [->|Hne].
      * by rewrite decide_True by apply list_elem_of_here.
      * rewrite decide_False; [done|]. by intros [?|?]%elem_of_cons.
Qed.

Lemma unbind_registry_get s evs p e :
  (∀ x, x ∈ evs → plain (stage_at p s) x) →
  registry_get (stage_at (Pipeline.unbind s evs p) s) e
  = if decide (e ∈ evs) then None else registry_get (stage_at p s) e.
Proof.
  intros Hplain. rewrite unbind_plain_state by done.
  apply unbind_registered_get.
Qed.

Lemma unbind_registered_unbound s evs p :
  (∀ e, e ∈ evs → registry_get (stage_at p s) e = None) →
  unbind_registered s evs p = p.
Proof.
  intros Hnone. unfold unbind_registered.
  destruct (st_registry (stage_at p s)); [|done].
  induction evs as [|x evs IH]; [done|]. simpl.
  rewrite Hnone by apply list_elem_of_here.
  apply IH. intros e He. apply Hnone. by apply list_elem_of_further.
Qed.

(** X12: [unbind(stream, events)] works on that stream alone.  When the
    listed names are names no object inherits, the call returns and has
    worked name by name: for each listed name the registered forwarder is
    off the listeners and the entry is cleared, other names are untouched,
    unbinding a list is unbinding its names one after the other, and when
    none of the names is bound nothing changes at all.  A name that
    objects inherit as a function and the registry does not hold itself is
    treated as bound: the inherited function goes to [removeListener] and
    the name gets a [null] entry of the registry's own; for [__proto__]
    what the registry answers is no function and the call throws, nothing
    changed. *)
Theorem unbind_detaches_the_named s evs p :
  (∀ t, t ≠ s → stage_at (Pipeline.unbind s evs p) t = stage_at p t)
  ∧ ((∀ e, e ∈ evs → inherited e = false) →
     Pipeline.unbind_call s evs p = Returned tt (Pipeline.unbind s evs p)
     ∧ (∀ e, Emitter.listeners (stage_at (Pipeline.unbind s evs p) s) e
             = if decide (e ∈ evs) then unbound_listeners p s e
               else Emitter.listeners (stage_at p s) e)
     ∧ (∀ e, registry_get (stage_at (Pipeline.unbind s evs p) s) e
             = if decide (e ∈ evs) then None
               else registry_get (stage_at p s) e)
     ∧ (∀ ev, inherited ev = false →
          Pipeline.unbind s (ev :: evs) p
          = Pipeline.unbind s evs (Pipeline.unbind s [ev] p))
     ∧ ((∀ e, e ∈ evs → registry_get (stage_at p s) e = None) →
        Pipeline.unbind s evs p = p))
  ∧ (∀ r ev, st_registry (stage_at p s) = Some r → r !! ev = None →
       ev ∈ inherited_functions →
       Pipeline.unbind_call s [ev] p
       = Returned tt
           (with_stage s (registry_set ev None)
              (with_stage s (Emitter.removeListener ev (Inherited ev)) p))
       ∧ default ∅ (st_registry (stage_at (Pipeline.unbind s [ev] p) s)) !! ev
         = Some None)
  ∧ (∀ r, st_registry (stage_at p s) = Some r → r !! "__proto__" = None →
       ∃ message, Pipeline.unbind_call s ["__proto__"] p = Thrown message p).
Proof.
  split; [intros t; apply unbind_other|]. split; [|split].
  - intros Hev.
    assert (Hplain : ∀ x, x ∈ evs → plain (stage_at p s) x)
      by (intros x Hx; left; by apply Hev).
    split; [by rewrite unbind_plain, unbind_plain_state|].
    split; [intros e; by apply unbind_listeners|].
    split; [intros e; by apply unbind_registry_get|].
    split.
    + intros ev Hnew. apply unbind_cons.
      intros x [->|Hx]%elem_of_cons; [by left|by apply Hplain].
    + intros Hnone. rewrite unbind_plain_state by done.
      by apply unbind_registered_unbound.
  - intros r ev Hr Hown Hin.
    assert (Hlook : registry_lookup (stage_at p s) ev
                    = PFunction (Inherited ev)).
    { unfold registry_lookup. rewrite Hr, Hown.
      rewrite decide_False; [by rewrite decide_True|].
      intros ->. revert Hin. by apply (bool_decide_unpack _). }
    unfold Pipeline.unbind, Pipeline.unbind_call.
    rewrite Hr. cbn [Pipeline.unbind_each]. rewrite Hlook.
    split; [done|]. cbn [state_after].
    rewrite !stage_at_with_stage_eq. unfold registry_set.
    rewrite registry_removeListener, Hr. simpl. by rewrite lookup_insert_eq.
  - intros r Hr Hown. unfold Pipeline.unbind_call.
    rewrite Hr. cbn [Pipeline.unbind_each].
    unfold registry_lookup. rewrite Hr, Hown. rewrite decide_True by done.
    by eexists.
Qed.

Lemma unbind_detaches_the_named_witness :
  Emitter.listeners
    (stage_at (Pipeline.unbind 4 ["a"]
       (Pipeline.bind 4 ["a"; "b"] (Pipeline.new (Some [4; 5]) ∅))) 4) "a"
  = []
  ∧ Emitter.listeners
      (stage_at (Pipeline.unbind 4 ["a"]
         (Pipeline.bind 4 ["a"; "b"] (Pipeline.new (Some [4; 5]) ∅))) 4) "b"
    = [Forwarder "b" 1].
Proof.
  pose proof (proj1 (proj2 (proj1 (proj2
    (unbind_detaches_the_named 4 ["a"]
       (Pipeline.bind 4 ["a"; "b"] (Pipeline.new (Some [4; 5]) ∅))))
    ltac:(intros e ->%list_elem_of_singleton; reflexivity)))) as Hl.
  split; [exact (Hl "a")|exact (Hl "b")].
Defined.

(** X13: Binding a name that no object inherits and that is not bound, and
    unbinding it again, gives the stream its listeners back, leaves the
    name unbound, and has used up one closure: binding once more attaches
    a closure that is not the first one. *)
Theorem bind_unbind_round_trip s ev p :
  inherited ev = false →
  registry_get (stage_at p s) ev = None →
  (∀ e, Emitter.listeners
          (stage_at (Pipeline.unbind s [ev] (Pipeline.bind s [ev] p)) s) e
        = Emitter.listeners (stage_at p s) e)
  ∧ (∀ e, registry_get
            (stage_at (Pipeline.unbind s [ev] (Pipeline.bind s [ev] p)) s) e
          = registry_get (stage_at p s) e)
  ∧ registry_get (stage_at (Pipeline.bind s [ev] p) s) ev
    = Some (Forwarder ev (closures p))
  ∧ Emitter.listeners (stage_at (Pipeline.bind s [ev] p) s) ev
    = Emitter.listeners (stage_at p s) ev ++ [Forwarder ev (closures p)]
  ∧ registry_get
      (stage_at (Pipeline.bind s [ev]
         (Pipeline.unbind s [ev] (Pipeline.bind s [ev] p))) s) ev
    = Some (Forwarder ev (S (closures p))).
Proof.
  intros Hev Hnone.
  assert (Hplain : ∀ q x, x ∈ [ev] → plain (stage_at q s) x)
    by (intros q x ->%list_elem_of_singleton; by left).
  pose proof (bind_one_plain s ev p (plain_not_inherited _ _ Hev)) as Hone.
  cbv zeta in Hone.
  rewrite Hnone in Hone. destruct Hone as [Hl Hg].
  assert (Hul : ∀ e, Emitter.listeners
      (stage_at (Pipeline.unbind s [ev] (Pipeline.bind s [ev] p)) s) e
    = Emitter.listeners (stage_at p s) e).
  { intros e. rewrite unbind_listeners by apply Hplain.
    unfold unbound_listeners.
    rewrite Hg, Hl. destruct (decide (e = ev)) as [->|Hne].
    - rewrite decide_True by apply list_elem_of_here. apply remove_last_snoc.
    - rewrite decide_False; [done|]. by intros ?%list_elem_of_singleton. }
  assert (Hug : ∀ e, registry_get
      (stage_at (Pipeline.unbind s [ev] (Pipeline.bind s [ev] p)) s) e
    = registry_get (stage_at p s) e).
  { intros e. rewrite unbind_registry_get by apply Hplain. rewrite Hg.
    destruct (decide (e = ev)) as [->|Hne].
    - by rewrite decide_True by apply list_elem_of_here.
    - rewrite decide_False; [done|]. by intros ?%list_elem_of_singleton. }
  split; [done|]. split; [done|].
  split; [by rewrite Hg, decide_True|].
  split; [by rewrite Hl, decide_True|].
  pose proof (bind_one_plain s ev
    (Pipeline.unbind s [ev] (Pipeline.bind s [ev] p))
    (plain_not_inherited _ _ Hev)) as Hagain.
  cbv zeta in Hagain. rewrite Hug, Hnone in Hagain.
  destruct Hagain as [_ Hg2]. rewrite Hg2, decide_True by done.
  do 2 f_equal.
  destruct (unbind_heap s [ev] (Pipeline.bind s [ev] p)) as [h ->].
  change (closures (set_heap h ?q)) with (closures q).
  pose proof (plain_not_inherited (stage_at (ensure_registry s p) s) _ Hev)
    as Hlook.
  apply registry_lookup_plain in Hlook.
  rewrite ensure_registry_get, Hnone in Hlook.
  unfold Pipeline.bind. fold (ensure_registry s p).
  cbn [foldl]. by rewrite Hlook.
Qed.

Lemma bind_unbind_round_trip_witness :
  registry_get
    (stage_at (Pipeline.bind 4 ["custom"]
       (Pipeline.unbind 4 ["custom"]
          (Pipeline.bind 4 ["custom"] (Pipeline.new (Some [4; 5]) ∅)))) 4)
    "custom"
  = Some (Forwarder "custom" 1).
Proof.
  apply (bind_unbind_round_trip 4 "custom" (Pipeline.new (Some [4; 5]) ∅));
    reflexivity.
Defined.

(** ** Rebinding and the wiring *)

Lemma same_wiring_wired p p' :
  wired p → same_wiring p p' →
  (∀ s ev h, registry_get (stage_at p' s) ev = Some h → is_forwarder h) →
  wired p'.
Proof.
  intros [H1 H2 H3 H4 H5] (Hs & Hpipes & Hocc) Hreg.
  split; intros s; rewrite ?Hs.
  - by rewrite Hpipes.
  - by rewrite Hocc.
  - by rewrite Hocc.
  - by rewrite Hocc.
  - apply Hreg.
Qed.

Lemma prunes_wired p p' : wired p → prunes p p' → wired p'.
Proof.
  intros Hw (Hs & Hpipes & Hocc & Hreg).
  apply (same_wiring_wired p); [done|by repeat split|].
  intros s ev h Hh. eapply (wired_registry _ Hw), Hreg, Hh.
Qed.

Lemma bind_same_wiring s evs p :
  same_wiring p (Pipeline.bind s evs p)
  ∧ ((∀ t ev h, registry_get (stage_at p t) ev = Some h → is_forwarder h) →
     ∀ t ev h, registry_get (stage_at (Pipeline.bind s evs p) t) ev = Some h →
       is_forwarder h).
Proof.
  unfold Pipeline.bind. fold (ensure_registry s p).
  apply (foldl_ind (λ q,
    same_wiring p q
    ∧ ((∀ t ev h, registry_get (stage_at p t) ev = Some h → is_forwarder h) →
       ∀ t ev h, registry_get (stage_at q t) ev = Some h → is_forwarder h))).
  - intros q ev [(Hs & Hpipes & Hocc) Hreg].
    destruct (is_nullish (registry_lookup (stage_at q s) ev)); [|done].
    split; [split; [done|split]|].
    + intros t. destruct (decide (t = s)) as [->|?];
        [|rewrite !stage_at_with_stage_ne by done; apply Hpipes].
      rewrite !stage_at_with_stage_eq, pipes_on, pipes_registry_set.
      apply Hpipes.
    + intros t e h Hh. destruct (decide (t = s)) as [->|?];
        [|rewrite !stage_at_with_stage_ne by done; by apply Hocc].
      rewrite !stage_at_with_stage_eq, listeners_on, !listeners_registry_set.
      change (stage_at (set_closures ?n ?q')) with (stage_at q').
      destruct (decide (e = ev)) as [->|?]; [|by apply Hocc].
      rewrite occurrences_app, occurrences_cons, occurrences_nil.
      rewrite decide_False by (intros <-; exact Hh).
      rewrite Hocc by done. lia.
    + intros Hp t e h. destruct (decide (t = s)) as [->|?];
        [|rewrite !stage_at_with_stage_ne by done; by apply Hreg].
      rewrite !stage_at_with_stage_eq.
      change (registry_get (Emitter.on ?a ?b ?st)) with (registry_get st).
      rewrite registry_get_set.
      change (stage_at (set_closures ?n ?q')) with (stage_at q').
      destruct (decide (e = ev)) as [->|?]; [|by apply Hreg].
      destruct (st_registry (stage_at q s)); [|done]. by intros [= <-].
  - split; [split; [done|split]|].
    + intros t. unfold ensure_registry. rewrite stage_at_with_stage.
      by destruct (decide (t = s)) as [->|?].
    + intros t e h _. unfold ensure_registry. rewrite stage_at_with_stage.
      by destruct (decide (t = s)) as [->|?].
    + intros Hp t e h.
      destruct (decide (t = s)) as [->|?].
      * rewrite ensure_registry_get. apply Hp.
      * unfold ensure_registry. rewrite stage_at_with_stage_ne by done.
        apply Hp.
Qed.

(** X14: Rebinding never rewires: [bind], [unbind] and [unbindAll] leave the
    stream list as it is and keep a wired pipeline wired. *)
Theorem rebinding_keeps_the_wiring s evs p :
  wired p →
  (_streams (Pipeline.bind s evs p) = _streams p
   ∧ wired (Pipeline.bind s evs p))
  ∧ (_streams (Pipeline.unbind s evs p) = _streams p
     ∧ wired (Pipeline.unbind s evs p))
  ∧ (_streams (Pipeline.unbindAll s p) = _streams p
     ∧ wired (Pipeline.unbindAll s p)).
Proof.
  intros Hw.
  destruct (bind_same_wiring s evs p) as [Hsame Hreg].
  pose proof (unbind_prunes s evs p
    (λ ev h, wired_registry p Hw s ev h)) as Hun.
  pose proof (unbindAll_prunes s p
    (λ ev h, wired_registry p Hw s ev h)) as Hall.
  split; [|split].
  - split; [apply Hsame|].
    apply (same_wiring_wired p); [done..|].
    apply Hreg. apply (wired_registry _ Hw).
  - split; [apply Hun|]. by apply (prunes_wired p).
  - split; [apply Hall|]. by apply (prunes_wired p).
Qed.

Lemma rebinding_keeps_the_wiring_witness :
  wired (Pipeline.bind 5 ["a"; "b"] (Pipeline.new (Some [4; 5; 6]) ∅)).
Proof.
  apply (rebinding_keeps_the_wiring 5 ["a"; "b"]
           (Pipeline.new (Some [4; 5; 6]) ∅)).
  apply wired_new. intros s st Hs. by rewrite lookup_empty in Hs.
Defined.

(** ** What becomes of a removed stream's registry *)

Lemma afterMutate_registry p s :
  st_registry (stage_at (Pipeline._afterMutate p) s) = st_registry (stage_at p s).
Proof.
  unfold Pipeline._afterMutate.
  set (p1 := match last (_streams p) with Some _ => _ | None => p end).
  destruct (pipe_all_frame (_streams p1) p1) as [_ Hframe].
  rewrite (proj2 (Hframe s)). unfold p1.
  destruct (last (_streams p)) as [l|]; [|done].
  destruct (decide (s = l)) as [->|?].
  - by rewrite !stage_at_with_stage_eq.
  - by rewrite !stage_at_with_stage_ne.
Qed.

Lemma detach_clears_registry removed p r :
  r ∈ removed →
  st_registry (stage_at
    (foldl (λ p stream,
       Pipeline.unbindAll stream
         (with_stage stream (Emitter.removeListener "error" ErrorHandler) p))
       p removed) r) = None.
Proof.
  assert (Hkeep : ∀ q x, st_registry (stage_at q r) = None →
    st_registry (stage_at (Pipeline.unbindAll x
      (with_stage x (Emitter.removeListener "error" ErrorHandler) q)) r) = None).
  { intros q x Hq. destruct (decide (r = x)) as [->|Hne].
    - apply unbindAll_registry.
    - by rewrite unbindAll_other, stage_at_with_stage_ne. }
  revert p. induction removed as [|x removed IH]; intros p Hin.
  - by apply elem_of_nil in Hin.
  - simpl. apply elem_of_cons in Hin as [->|Hin]; [|by apply IH].
    apply (foldl_ind (λ q, st_registry (stage_at q x) = None)).
    + intros q y Hq. by apply Hkeep.
    + apply unbindAll_registry.
Qed.

Lemma mutate_clears_registry m p r :
  r ∈ (mutate m p).1 → st_registry (stage_at (mutate m p).2 r) = None.
Proof.
  destruct (mutate_cases m p) as [(i & k & ss & ->)| ->].
  2:{ intros Hin. by apply elem_of_nil in Hin. }
  unfold Pipeline.splice.
  destruct (JsArray.splice _ _ _ _) as [removed streams']. cbn [fst snd].
  intros Hin. rewrite afterMutate_registry. by apply detach_clears_registry.
Qed.

(** X16: Every stream a mutation takes out leaves without its registry: the
    [_pipageListeners] of a removed stream is null afterwards. *)
Theorem removed_streams_lose_their_registry m p r :
  r ∈ (mutate m p).1 → st_registry (stage_at (mutate m p).2 r) = None.
Proof. apply mutate_clears_registry. Qed.

Lemma removed_streams_lose_their_registry_witness :
  st_registry
    (stage_at (mutate (MRemove 5)
       (Pipeline.bind 5 ["a"] (Pipeline.new (Some [4; 5; 6]) ∅))).2 5)
  = None.
Proof.
  apply removed_streams_lose_their_registry.
  vm_compute. apply list_elem_of_here.
Defined.

(** ** The rebinder's bookkeeping, stream by stream *)

Lemma remove_last_subset h x l : x ∈ Emitter.remove_last h l → x ∈ l.
Proof.
  rewrite !occurrences_pos. destruct (decide (x = h)) as [->|Hne].
  - rewrite occurrences_remove_last. lia.
  - by rewrite occurrences_remove_last_ne.
Qed.

Lemma tidy_stage_ext st st' :
  (∀ e, Emitter.listeners st' e = Emitter.listeners st e) →
  (∀ e, registry_get st' e = registry_get st e) →
  tidy_stage st → tidy_stage st'.
Proof.
  intros Hl Hg [H1 H2 H3 H4 H5].
  split.
  - intros ev h Hh. rewrite Hl, Hg. by apply H1.
  - intros ev h. rewrite Hg. apply H2.
  - intros ev. rewrite Hl. apply H3.
  - intros ev. rewrite Hl. apply H4.
  - intros ev. rewrite Hl. apply H5.
Qed.

Lemma tidy_blank : tidy_stage blank_stage.
Proof.
  split; unfold Emitter.listeners, registry_get; simpl; intros;
    rewrite ?lookup_empty; simpl; try done; try apply not_elem_of_nil.
Qed.

Lemma tidy_on ev h st :
  ¬ is_forwarder h →
  (h = ReadHandler → ev = "readable") → (h = EndHandler → ev = "end") →
  (h = ErrorHandler → ev = "error") →
  tidy_stage st → tidy_stage (Emitter.on ev h st).
Proof.
  intros Hh Hr He Hx [H1 H2 H3 H4 H5].
  assert (Hin : ∀ e x, x ∈ Emitter.listeners (Emitter.on ev h st) e →
    x ∈ Emitter.listeners st e ∨ (x = h ∧ e = ev)).
  { intros e x. rewrite listeners_on.
    destruct (decide (e = ev)) as [->|?]; [|by left].
    intros [?|Hsnoc]%elem_of_app; [by left|].
    apply list_elem_of_singleton in Hsnoc as ->. by right. }
  split.
  - intros e h' Hh'.
    change (registry_get (Emitter.on ev h st) e) with (registry_get st e).
    rewrite listeners_on. destruct (decide (e = ev)) as [->|?]; [|by apply H1].
    rewrite occurrences_app, occurrences_cons, occurrences_nil, H1 by done.
    rewrite (decide_False (P := h = h')) by (intros ->; by apply Hh). lia.
  - apply H2.
  - intros e Hne [?|[<- ->]]%Hin; [by apply (H3 e)|]. by apply Hne, Hr.
  - intros e Hne [?|[<- ->]]%Hin; [by apply (H4 e)|]. by apply Hne, He.
  - intros e Hne [?|[<- ->]]%Hin; [by apply (H5 e)|]. by apply Hne, Hx.
Qed.

Lemma tidy_removeListener ev h st :
  ¬ is_forwarder h → tidy_stage st → tidy_stage (Emitter.removeListener ev h st).
Proof.
  intros Hh [H1 H2 H3 H4 H5].
  assert (Hin : ∀ e x, x ∈ Emitter.listeners (Emitter.removeListener ev h st) e →
    x ∈ Emitter.listeners st e).
  { intros e x. rewrite listeners_removeListener.
    destruct (decide (e = ev)) as [->|?]; [apply remove_last_subset|done]. }
  split.
  - intros e h' Hh'. rewrite registry_get_removeListener, listeners_removeListener.
    destruct (decide (e = ev)) as [->|?]; [|by apply H1].
    rewrite occurrences_remove_last_ne by (intros ->; by apply Hh).
    by apply H1.
  - intros e h'. rewrite registry_get_removeListener. apply H2.
  - intros e Hne ?%Hin. by apply (H3 e).
  - intros e Hne ?%Hin. by apply (H4 e).
  - intros e Hne ?%Hin. by apply (H5 e).
Qed.

(** Names whose forwarder has been taken off and whose entry is cleared. *)
Lemma tidy_unbound st st' :
  tidy_stage st →
  (∀ e,
     (Emitter.listeners st' e = Emitter.listeners st e
      ∧ registry_get st' e = registry_get st e)
     ∨ (Emitter.listeners st' e
        = match registry_get st e with
          | Some h => Emitter.remove_last h (Emitter.listeners st e)
          | None => Emitter.listeners st e
          end
        ∧ registry_get st' e = None)) →
  tidy_stage st'.
Proof.
  intros [H1 H2 H3 H4 H5] Hcases.
  assert (Hin : ∀ e x, x ∈ Emitter.listeners st' e → x ∈ Emitter.listeners st e).
  { intros e x. destruct (Hcases e) as [[-> _]|[-> _]]; [done|].
    destruct (registry_get st e); [apply remove_last_subset|done]. }
  split.
  - intros e h Hh. destruct (Hcases e) as [[-> ->]|[-> ->]]; [by apply H1|].
    rewrite decide_False by done.
    specialize (H1 e h Hh).
    destruct (registry_get st e) as [h0|] eqn:Hg.
    + destruct (decide (h = h0)) as [->|Hne].
      * rewrite occurrences_remove_last, H1. by rewrite decide_True.
      * rewrite occurrences_remove_last_ne, H1 by done.
        by rewrite decide_False by congruence.
    + by rewrite H1, decide_False.
  - intros e h. destruct (Hcases e) as [[_ ->]|[_ ->]]; [apply H2|done].
  - intros e Hne ?%Hin. by apply (H3 e).
  - intros e Hne ?%Hin. by apply (H4 e).
  - intros e Hne ?%Hin. by apply (H5 e).
Qed.

Lemma tidy_with_stage s f p :
  tidy p → tidy_stage (f (stage_at p s)) → tidy (with_stage s f p).
Proof.
  intros Hp Hf t. rewrite stage_at_with_stage.
  destruct (decide (t = s)) as [->|?]; [done|apply Hp].
Qed.

(** One step of [unbind] on one stream. *)
Lemma tidy_unbind_step st ev h :
  tidy_stage st → registry_lookup st ev = PFunction h →
  tidy_stage (registry_set ev None (Emitter.removeListener ev h st)).
Proof.
  intros Hst Hlook.
  destruct (registry_lookup_function _ _ _ Hlook) as [Hget|[-> Hget]].
  - apply (tidy_unbound st); [done|]. intros e.
    rewrite listeners_registry_set, listeners_removeListener, registry_get_set,
      registry_removeListener, registry_get_removeListener.
    destruct (decide (e = ev)) as [->|?]; [right|by left].
    rewrite Hget. split; [done|]. by destruct (st_registry st).
  - apply (tidy_stage_ext (Emitter.removeListener ev (Inherited ev) st)).
    + intros e. apply listeners_registry_set.
    + intros e. rewrite registry_get_set, registry_removeListener.
      destruct (decide (e = ev)) as [->|?]; [|done].
      rewrite registry_get_removeListener, Hget.
      by destruct (st_registry st).
    + apply tidy_removeListener; [by intros ?|done].
Qed.

Lemma unbind_each_tidy s evs p :
  tidy p → tidy (state_after (Pipeline.unbind_each s evs p)).
Proof.
  revert p. induction evs as [|ev evs IH]; intros p Hp; [done|].
  cbn [Pipeline.unbind_each].
  destruct (registry_lookup (stage_at p s) ev) as [| |h|] eqn:Hlook;
    [by apply IH|by apply IH| |done].
  apply IH. intros t. destruct (decide (t = s)) as [->|Hne].
  - rewrite !stage_at_with_stage_eq. apply tidy_unbind_step; [apply Hp|done].
  - rewrite !stage_at_with_stage_ne by done. apply Hp.
Qed.

Lemma unbind_tidy s evs p : tidy p → tidy (Pipeline.unbind s evs p).
Proof.
  intros Hp. unfold Pipeline.unbind, Pipeline.unbind_call.
  destruct (st_registry (stage_at p s)); [|done].
  by apply unbind_each_tidy.
Qed.

Lemma unbindAll_tidy s p : tidy p → tidy (Pipeline.unbindAll s p).
Proof.
  intros Hp t. destruct (decide (t = s)) as [->|Hne];
    [|rewrite unbindAll_other by done; apply Hp].
  apply (tidy_unbound (stage_at p s)); [apply Hp|].
  intros e. right. split; [apply unbindAll_listeners|].
  unfold registry_get. by rewrite unbindAll_registry.
Qed.

Lemma bind_tidy s evs p : tidy p → tidy (Pipeline.bind s evs p).
Proof.
  revert p. induction evs as [|ev evs IH]; intros p Hp.
  - intros t. unfold Pipeline.bind. simpl. fold (ensure_registry s p).
    destruct (decide (t = s)) as [->|Hne].
    + apply (tidy_stage_ext (stage_at p s)); [| |apply Hp].
      * apply ensure_registry_listeners.
      * apply ensure_registry_get.
    + unfold ensure_registry. rewrite stage_at_with_stage_ne by done. apply Hp.
  - rewrite bind_cons. apply IH. clear IH. intros t.
    destruct (decide (t = s)) as [->|Hne];
      [|rewrite bind_other by done; apply Hp].
    pose proof (bind_one s ev p) as Hone. cbv zeta in Hone.
    destruct (Hp s) as [H1 H2 H3 H4 H5].
    destruct (is_nullish (registry_lookup (stage_at (ensure_registry s p) s) ev))
      eqn:Hnull.
    2:{ destruct Hone as [Hl Hr].
        by apply (tidy_stage_ext (stage_at p s)). }
    assert (Hg : registry_get (stage_at p s) ev = None).
    { rewrite <- ensure_registry_get. by apply nullish_unregistered. }
    destruct Hone as [Hl Hr].
    assert (Hin : ∀ e x,
      x ∈ Emitter.listeners (stage_at (Pipeline.bind s [ev] p) s) e →
      x ∈ Emitter.listeners (stage_at p s) e ∨ is_forwarder x).
    { intros e x. rewrite Hl. destruct (decide (e = ev)) as [->|?]; [|by left].
      intros [?|Hsnoc]%elem_of_app; [by left|].
    apply list_elem_of_singleton in Hsnoc as ->. by right. }
    split.
    + intros e h Hh. rewrite Hl, Hr.
      destruct (decide (e = ev)) as [->|?]; [|by apply H1].
      rewrite occurrences_app, occurrences_cons, occurrences_nil, H1 by done.
      rewrite Hg, (decide_False (P := None = Some h)) by done.
      destruct (decide (Forwarder ev (closures p) = h)) as [->|Hne].
      * by rewrite decide_True.
      * by rewrite decide_False by congruence.
    + intros e h. rewrite Hr.
      destruct (decide (e = ev)) as [->|?]; [|apply H2].
      intros [= <-]. by eexists.
    + intros e Hne [?|[]]%Hin. by apply (H3 e).
    + intros e Hne [?|[]]%Hin. by apply (H4 e).
    + intros e Hne [?|[]]%Hin. by apply (H5 e).
Qed.

Lemma beforeMutate_tidy p : tidy p → tidy (Pipeline._beforeMutate p).
Proof.
  intros Hp. unfold Pipeline._beforeMutate.
  apply forEach_next_ind.
  - intros a b q Hq. apply tidy_with_stage; [done|].
    apply (tidy_stage_ext (stage_at q a)); [done..|apply Hq].
  - destruct (last (_streams p)) as [l|]; [|done].
    assert (Hl : tidy_stage
      (Emitter.removeListener "readable" ReadHandler (stage_at p l)))
      by (apply tidy_removeListener; [by intros []|apply Hp]).
    apply tidy_with_stage; [by apply tidy_with_stage|].
    rewrite stage_at_with_stage_eq.
    apply tidy_removeListener; [by intros []|done].
Qed.

Lemma afterMutate_tidy p : tidy p → tidy (Pipeline._afterMutate p).
Proof.
  intros Hp. unfold Pipeline._afterMutate.
  apply forEach_next_ind.
  - intros a b q Hq. apply tidy_with_stage; [done|].
    apply (tidy_stage_ext (stage_at q a)); [done..|apply Hq].
  - destruct (last (_streams p)) as [l|]; [|done].
    assert (Hl : tidy_stage (Emitter.on "readable" ReadHandler (stage_at p l)))
      by (apply tidy_on; [by intros []|done..|apply Hp]).
    apply tidy_with_stage; [by apply tidy_with_stage|].
    rewrite stage_at_with_stage_eq.
    by apply tidy_on; [intros []|..].
Qed.

Lemma splice_tidy index remove streams p :
  tidy p → tidy (Pipeline.splice index remove streams p).2.
Proof.
  intros Hp. unfold Pipeline.splice.
  destruct (JsArray.splice _ _ _ _) as [removed streams']. cbn [snd].
  apply afterMutate_tidy, foldl_ind.
  - intros q x Hq. apply unbindAll_tidy, tidy_with_stage; [done|].
    apply tidy_removeListener; [by intros []|apply Hq].
  - change (tidy (set_streams ?l ?q)) with (tidy q).
    apply foldl_ind; [|by apply beforeMutate_tidy].
    intros q x Hq. apply tidy_with_stage; [done|].
    apply tidy_on; [by intros []|done..|apply Hq].
Qed.

Lemma mutate_tidy m p : tidy p → tidy (mutate m p).2.
Proof.
  intros Hp. destruct (mutate_cases m p) as [(i & r & ss & ->)| ->]; [|done].
  by apply splice_tidy.
Qed.

Lemma new_tidy streams h :
  (∀ s st, h !! s = Some st → tidy_stage st) → tidy (Pipeline.new streams h).
Proof.
  intros Hh.
  assert (Hp : tidy (PipelineState [] h 0 ∅ [] 0 [] [] [] false [])).
  { intros s. unfold stage_at. simpl.
    destruct (h !! s) as [st|] eqn:Hs; simpl; [by eapply Hh|apply tidy_blank]. }
  unfold Pipeline.new. destruct streams; [|done]. by apply splice_tidy.
Qed.

(** X17: Through the constructor and every method, each stream keeps its
    forwarders in step with its registry: a forwarding closure is attached
    under a name exactly when it is the one registered for that name, then
    once, and it re-emits that very name; the constructor's three handlers
    sit under their own event names only. *)
Theorem rebinder_keeps_its_books :
  (∀ streams, tidy (Pipeline.new streams ∅))
  ∧ ∀ p, tidy p →
      (∀ m, tidy (mutate m p).2)
      ∧ (∀ s evs, tidy (Pipeline.bind s evs p))
      ∧ (∀ s evs, tidy (Pipeline.unbind s evs p))
      ∧ (∀ s, tidy (Pipeline.unbindAll s p)).
Proof.
  split.
  - intros streams. apply new_tidy. intros s st Hs.
    by rewrite lookup_empty in Hs.
  - intros p Hp. split; [intros m; by apply mutate_tidy|].
    split; [intros s evs; by apply bind_tidy|].
    split; [intros s evs; by apply unbind_tidy|].
    intros s. by apply unbindAll_tidy.
Qed.

Lemma rebinder_keeps_its_books_witness :
  tidy (mutate (MRemove 5)
    (Pipeline.bind 5 ["a"; "b"] (Pipeline.new (Some [4; 5; 6]) ∅))).2.
Proof.
  exact (proj1 (proj2 rebinder_keeps_its_books
    (Pipeline.bind 5 ["a"; "b"] (Pipeline.new (Some [4; 5; 6]) ∅))
    (proj1 (proj2 (proj2 rebinder_keeps_its_books
       (Pipeline.new (Some [4; 5; 6]) ∅)
       (proj1 rebinder_keeps_its_books (Some [4; 5; 6])))) 5 ["a"; "b"]))
    (MRemove 5)).
Defined.

(** ** What a stream's events do to the composite *)

Lemma externals_are_inert H s args l q :
  (∀ h, h ∈ l → is_external h) →
  foldl (λ acc h, acc ≫= Pipeline.call_handler H h s args) (Some q) l = Some q.
Proof.
  induction l as [|h l IH]; intros Hl; [done|]. simpl.
  assert (Hh : is_external h) by apply Hl, list_elem_of_here.
  destruct h; try done; simpl; apply IH;
    intros h' Hh'; by apply Hl, list_elem_of_further.
Qed.

Lemma outsider_listeners p r ev h :
  wired p → tidy p → r ∉ _streams p → st_registry (stage_at p r) = None →
  h ∈ Emitter.listeners (stage_at p r) ev → is_external h.
Proof.
  intros Hw Ht Hr Hreg Hin.
  destruct (wired_detached p r Hw Hr) as (Hread & Hend & _).
  destruct (Ht r) as [H1 _ H3 H4 H5].
  destruct h as [| | |e k|k|name]; simpl; [| | | |done|done].
  - destruct (decide (ev = "readable")) as [->|Hne]; [done|by apply (H3 ev)].
  - destruct (decide (ev = "end")) as [->|Hne]; [done|by apply (H4 ev)].
  - destruct (decide (ev = "error")) as [->|Hne]; [|by apply (H5 ev)].
    by apply (wired_has_error p r Hw) in Hin.
  - apply occurrences_pos in Hin. rewrite H1 in Hin by done.
    unfold registry_get in Hin. rewrite Hreg in Hin.
    rewrite decide_False in Hin by done. lia.
Qed.

(** X18: Once a mutation has taken a stream out and it is no longer a member,
    none of its events reaches the composite: in a pipeline that was wired
    and tidy, whatever the removed stream emits, with whatever payload,
    leaves the pipeline exactly as it is. *)
Theorem removed_stream_is_cut_off H m p r :
  wired p → tidy p →
  r ∈ (mutate m p).1 → r ∉ _streams (mutate m p).2 →
  ∀ ev args,
    Pipeline.stage_emit H r ev args (mutate m p).2 = Some (mutate m p).2.
Proof.
  intros Hw Ht Hin Hout ev args. unfold Pipeline.stage_emit.
  apply externals_are_inert. intros h Hh.
  eapply (outsider_listeners (mutate m p).2 r ev); try done.
  - by apply mutate_wired.
  - by apply mutate_tidy.
  - by apply mutate_clears_registry.
Qed.

Lemma removed_stream_is_cut_off_witness :
  Pipeline.stage_emit (Host (λ _, true) (λ _ _, true)) 5 "a" [VNum 1]
    (mutate (MRemove 5)
       (Pipeline.bind 5 ["a"] (Pipeline.new (Some [4; 5; 6]) ∅))).2
  = Some (mutate (MRemove 5)
       (Pipeline.bind 5 ["a"] (Pipeline.new (Some [4; 5; 6]) ∅))).2.
Proof.
  apply removed_stream_is_cut_off.
  - apply (same_wiring_wired (Pipeline.new (Some [4; 5; 6]) ∅)).
    + apply wired_new. intros s st Hs. by rewrite lookup_empty in Hs.
    + apply bind_same_wiring.
    + apply bind_same_wiring.
      apply (wired_registry (Pipeline.new (Some [4; 5; 6]) ∅)).
      apply wired_new. intros s st Hs. by rewrite lookup_empty in Hs.
  - apply bind_tidy, new_tidy. intros s st Hs. by rewrite lookup_empty in Hs.
  - vm_compute. apply list_elem_of_here.
  - vm_compute. intros Hin.
    repeat (apply elem_of_cons in Hin as [Hin|Hin]; [discriminate|]).
    by apply elem_of_nil in Hin.
Defined.

(** Emitting anything but an ['error'] on the composite goes through. *)
Lemma emit_or_throw_other H ev args q :
  ev ≠ "error" →
  Pipeline.emit_or_throw H ev args q = Some (Pipeline.emit H ev args q).
Proof.
  intros Hev. unfold Pipeline.emit_or_throw.
  rewrite decide_False; [done|]. by intros [? _].
Qed.

Lemma call_handler_logs H ev args h s q :
  h ≠ ErrorHandler → (∀ k, h ≠ Forwarder "error" k) →
  ∃ q',
    Pipeline.call_handler H h s args q = Some q'
    ∧ (∀ x, x ∈ emitted q → x ∈ emitted q')
    ∧ (∀ k, h = Forwarder ev k → (ev, args) ∈ emitted q').
Proof.
  intros Hne Hfw. destruct h as [| | |e k|k|name]; simpl; [| |done| | |];
    rewrite ?emit_or_throw_other by (intros ->; by apply (Hfw k));
    eexists; (split; [done|]).
  - unfold Pipeline._readHandler. destruct (emit_frame H "_read" [] q) as [-> _].
    split; [|done]. intros x Hx. apply elem_of_app. by left.
  - by split.
  - destruct (emit_frame H e args q) as [-> _]. split.
    + intros x Hx. apply elem_of_app. by left.
    + intros k' [= -> _]. apply elem_of_app. right. apply list_elem_of_here.
  - by split.
  - by split.
Qed.

Lemma emission_reaches_composite H ev args s l q :
  ErrorHandler ∉ l → (∀ k, Forwarder "error" k ∉ l) →
  (ev, args) ∈ emitted q ∨ (∃ k, Forwarder ev k ∈ l) →
  ∃ q',
    foldl (λ acc h, acc ≫= Pipeline.call_handler H h s args) (Some q) l
    = Some q'
    ∧ (ev, args) ∈ emitted q'.
Proof.
  revert q. induction l as [|h l IH]; intros q Hno Hfw Hq.
  - exists q. split; [done|].
    destruct Hq as [?|[k Hin]]; [done|]. by apply elem_of_nil in Hin.
  - apply not_elem_of_cons in Hno as [Hh Hno].
    destruct (call_handler_logs H ev args h s q) as (q1 & Hcall & Hkeep & Hnew);
      [done|intros k ->; apply (Hfw k), list_elem_of_here|].
    simpl. rewrite Hcall. apply IH; [done| |].
    { intros k Hk. by apply (Hfw k), list_elem_of_further. }
    destruct Hq as [Hin|[k Hin]]; [left; by apply Hkeep|].
    apply elem_of_cons in Hin as [<-|Hin]; [left; by eapply Hnew|].
    right. by exists k.
Qed.

(** X19: A bound event is forwarded: in a tidy pipeline, when a stream emits a
    name that is bound on it (any name but ['error']), the emission goes
    through and the composite emits that name with the same payload. *)
Theorem bound_event_is_forwarded H s ev args p :
  tidy p → is_Some (registry_get (stage_at p s) ev) → ev ≠ "error" →
  ∃ p',
    Pipeline.stage_emit H s ev args p = Some p' ∧ (ev, args) ∈ emitted p'.
Proof.
  intros Ht [h Hh] Hev. destruct (Ht s) as [H1 H2 _ _ H5].
  destruct (H2 ev h Hh) as [k ->].
  apply emission_reaches_composite; [by apply H5| |].
  - intros k' Hin. apply occurrences_pos in Hin. rewrite H1 in Hin by done.
    rewrite Hh, decide_False in Hin by congruence. lia.
  - right. exists k. apply occurrences_pos.
    rewrite H1 by done. rewrite decide_True by done. lia.
Qed.

Lemma bound_event_is_forwarded_witness :
  ∃ p',
    Pipeline.stage_emit (Host (λ _, true) (λ _ _, true)) 5 "a" [VNum 1]
      (Pipeline.bind 5 ["a"] (Pipeline.new (Some [4; 5; 6]) ∅))
    = Some p'
    ∧ ("a", [VNum 1]) ∈ emitted p'.
Proof.
  apply bound_event_is_forwarded.
  - apply bind_tidy, new_tidy. intros s st Hs. by rewrite lookup_empty in Hs.
  - vm_compute. by eexists.
  - discriminate.
Defined.

Lemma end_emission H s l q :
  (∀ h, h ∈ l →
     h = EndHandler ∨ (∃ k, h = Forwarder "end" k) ∨ is_external h) →
  ∃ q',
    foldl (λ acc h, acc ≫= Pipeline.call_handler H h s []) (Some q) l = Some q'
    ∧ pushed q'
      = pushed q ++ replicate (occurrences EndHandler l) (None, None).
Proof.
  revert q. induction l as [|h l IH]; intros q Hl.
  - exists q. by rewrite app_nil_r.
  - assert (Hh : h = EndHandler ∨ (∃ k, h = Forwarder "end" k) ∨ is_external h)
      by apply Hl, list_elem_of_here.
    assert (Hrest : ∀ h', h' ∈ l →
      h' = EndHandler ∨ (∃ k, h' = Forwarder "end" k) ∨ is_external h')
      by (intros h' Hh'; by apply Hl, list_elem_of_further).
    simpl. rewrite occurrences_cons.
    destruct Hh as [->|[[k ->]|Hext]].
    + simpl. destruct (IH (Pipeline._endHandler H q) Hrest) as (q' & -> & Hq').
      exists q'. split; [done|]. rewrite Hq'.
      unfold Pipeline._endHandler, Pipeline.push. simpl.
      by rewrite <- app_assoc.
    + simpl. rewrite emit_or_throw_other by done.
      destruct (IH (Pipeline.emit H "end" [] q) Hrest) as (q' & -> & Hq').
      exists q'. split; [done|]. by rewrite Hq'.
    + destruct h; try done; simpl;
        destruct (IH q Hrest) as (q' & -> & Hq');
        exists q'; (split; [done|]); by rewrite Hq'.
Qed.

(** X20: Completion travels from the last stream only: in a wired and tidy
    pipeline, when the last stream announces its end the composite's readable
    side gets the end-of-data mark, once; the end of any other stream pushes
    nothing. *)
Theorem end_of_last_stream_ends_composite H p t :
  wired p → tidy p →
  ∃ p',
    Pipeline.stage_emit H t "end" [] p = Some p'
    ∧ pushed p'
      = pushed p
        ++ if decide (last (_streams p) = Some t) then [(None, None)] else [].
Proof.
  intros Hw Ht.
  destruct (end_emission H t (Emitter.listeners (stage_at p t) "end") p)
    as (p' & Hemit & Hpushed).
  - intros h Hin. destruct (Ht t) as [H1 H2 H3 _ H5].
    destruct h as [| | |e k|k|name]; simpl;
      [| | | |by right; right|by right; right].
    + by destruct (H3 "end").
    + by left.
    + by destruct (H5 "end").
    + right. left. apply occurrences_pos in Hin.
      rewrite H1 in Hin by done.
      destruct (decide (registry_get (stage_at p t) "end"
                        = Some (Forwarder e k))) as [Hreg|?]; [|lia].
      destruct (H2 _ _ Hreg) as [k' [= -> ->]]. by exists k'.
  - exists p'. split; [done|]. rewrite Hpushed, (wired_end _ Hw).
    by destruct (decide (last (_streams p) = Some t)).
Qed.

Lemma end_of_last_stream_ends_composite_witness :
  ∃ p',
    Pipeline.stage_emit (Host (λ _, true) (λ _ _, true)) 6 "end" []
      (Pipeline.new (Some [4; 5; 6]) ∅)
    = Some p'
    ∧ pushed p'
      = pushed (Pipeline.new (Some [4; 5; 6]) ∅)
        ++ if decide (last (_streams (Pipeline.new (Some [4; 5; 6]) ∅)) = Some 6)
           then [(None, None)] else [].
Proof.
  apply end_of_last_stream_ends_composite.
  - apply wired_new. intros s st Hs. by rewrite lookup_empty in Hs.
  - apply new_tidy. intros s st Hs. by rewrite lookup_empty in Hs.
Defined.

(** ** The claims: the pull and its retry *)
















(** ** Chunks through the composite *)

(** X21: Pure passthrough: successive writes into a pipeline without streams
    come out on the composite's readable side as the same chunks with the
    same encodings in the same order, every completion callback is called in
    that order, and no stream object is touched. *)
Theorem empty_pipeline_passes_through H ws p :
  _streams p = [] →
  pushed (write_all H ws p) = pushed p ++ (as_passed <$> ws)
  ∧ called (write_all H ws p) = called p ++ ws.*2
  ∧ heap (write_all H ws p) = heap p
  ∧ _streams (write_all H ws p) = [].
Proof.
  revert p. induction ws as [|[[c e] next] ws IH]; intros p Hp.
  - simpl. by rewrite !app_nil_r.
  - unfold write_all in *. cbn [foldl fst snd].
    assert (Hw : (Pipeline._write H c e next p).2
      = set_called (called p ++ [next]) (set_pushed (pushed p ++ [(Some c, e)]) p)).
    { unfold Pipeline._write. by rewrite Hp. }
    rewrite Hw.
    destruct (IH (set_called (called p ++ [next])
      (set_pushed (pushed p ++ [(Some c, e)]) p))) as (-> & -> & -> & ->);
      [done|].
    simpl. by rewrite <- !app_assoc.
Qed.

Lemma empty_pipeline_passes_through_witness :
  pushed (write_all (Host (λ _, false) (λ _ _, true))
    [("a", None, CbHost 1); ("b", Some "utf8", CbHost 2)]
    (Pipeline.new None ∅))
  = pushed (Pipeline.new None ∅)
    ++ (as_passed <$> [("a", None, CbHost 1); ("b", Some "utf8", CbHost 2)]).
Proof.
  apply (empty_pipeline_passes_through (Host (λ _, false) (λ _ _, true))
    [("a", None, CbHost 1); ("b", Some "utf8", CbHost 2)]
    (Pipeline.new None ∅)).
  reflexivity.
Defined.

(** X22: Successive writes into a pipeline with streams all land, in order and
    with their callbacks, in the first stream; the composite's readable side
    gets nothing from them, no callback is called by the pipeline, and no
    other stream is touched. *)
Theorem writes_reach_the_first_stream H ws p first rest :
  _streams p = first :: rest →
  st_inbox (stage_at (write_all H ws p) first)
  = st_inbox (stage_at p first) ++ ws
  ∧ pushed (write_all H ws p) = pushed p
  ∧ called (write_all H ws p) = called p
  ∧ _streams (write_all H ws p) = first :: rest
  ∧ ∀ t, t ≠ first → stage_at (write_all H ws p) t = stage_at p t.
Proof.
  revert p. induction ws as [|[[c e] next] ws IH]; intros p Hp.
  - simpl. by rewrite app_nil_r.
  - unfold write_all in *. cbn [foldl fst snd].
    assert (Hw : (Pipeline._write H c e next p).2
      = with_stage first
          (λ _, set_inbox (st_inbox (stage_at p first) ++ [(c, e, next)])
                  (stage_at p first)) p).
    { unfold Pipeline._write. by rewrite Hp. }
    rewrite Hw.
    destruct (IH (with_stage first
      (λ _, set_inbox (st_inbox (stage_at p first) ++ [(c, e, next)])
              (stage_at p first)) p)) as (-> & -> & -> & -> & Hother); [done|].
    rewrite stage_at_with_stage_eq. simpl. rewrite <- app_assoc.
    repeat split; try done.
    intros t Ht. rewrite Hother by done. by rewrite stage_at_with_stage_ne.
Qed.

Lemma writes_reach_the_first_stream_witness :
  st_inbox (stage_at (write_all (Host (λ _, true) (λ _ _, false))
    [("a", None, CbHost 1); ("b", None, CbHost 2)]
    (Pipeline.new (Some [4; 5]) ∅)) 4)
  = st_inbox (stage_at (Pipeline.new (Some [4; 5]) ∅) 4)
    ++ [("a", None, CbHost 1); ("b", None, CbHost 2)].
Proof.
  apply (writes_reach_the_first_stream (Host (λ _, true) (λ _ _, false))
    [("a", None, CbHost 1); ("b", None, CbHost 2)]
    (Pipeline.new (Some [4; 5]) ∅) 4 [5]).
  reflexivity.
Defined.

(** X23: A pull neither loses, nor repeats, nor reorders: what it has pushed
    followed by what is still buffered in the last stream is what was pushed
    before followed by what was buffered; no other stream is touched; and
    when the consumer never reports saturation the pull empties the last
    stream. *)
Theorem pull_conserves_chunks H p s :
  last (_streams p) = Some s →
  pushed (Pipeline._read H p)
    ++ (as_push <$> st_readable (stage_at (Pipeline._read H p) s))
  = pushed p ++ (as_push <$> st_readable (stage_at p s))
  ∧ _streams (Pipeline._read H p) = _streams p
  ∧ (∀ t, t ≠ s → stage_at (Pipeline._read H p) t = stage_at p t)
  ∧ ((∀ l, push_more H l = true) →
     st_readable (stage_at (Pipeline._read H p) s) = []).
Proof.
  intros Hlast.
  destruct (read_spec H p s Hlast) as (f & r & Hb & -> & _ & Hrest).
  destruct f as [|c f].
  - simpl in Hb. split; [done|]. split; [done|]. split; [done|].
    intros Hroom. destruct r as [|c r]; [exact Hb|].
    by destruct (Hrest ltac:(done)).
  - rewrite readable_pulled, pushed_pulled, Hb, fmap_app, app_assoc.
    split; [done|]. split; [done|]. split.
    + intros t Ht. unfold pulled.
      change (stage_at (set_pushed ?x ?q)) with (stage_at q).
      by rewrite stage_at_with_stage_ne.
    + intros Hroom. destruct r as [|c' r]; [done|].
      destruct (Hrest ltac:(done)) as [_ Hsat]. by rewrite Hroom in Hsat.
Qed.

Lemma pull_conserves_chunks_witness :
  pushed (Pipeline._read (Host (λ l, bool_decide (List.length l < 2)) (λ _ _, true))
    (Pipeline.new (Some [4; 5]) {[5 := set_readable ["a"; "b"; "c"] blank_stage]}))
    ++ (as_push <$> st_readable (stage_at
         (Pipeline._read (Host (λ l, bool_decide (List.length l < 2)) (λ _ _, true))
            (Pipeline.new (Some [4; 5])
               {[5 := set_readable ["a"; "b"; "c"] blank_stage]})) 5))
  = pushed (Pipeline.new (Some [4; 5])
      {[5 := set_readable ["a"; "b"; "c"] blank_stage]})
    ++ (as_push <$> st_readable (stage_at (Pipeline.new (Some [4; 5])
         {[5 := set_readable ["a"; "b"; "c"] blank_stage]}) 5)).
Proof.
  apply (pull_conserves_chunks
    (Host (λ l, bool_decide (List.length l < 2)) (λ _ _, true))
    (Pipeline.new (Some [4; 5])
       {[5 := set_readable ["a"; "b"; "c"] blank_stage]}) 5).
  reflexivity.
Defined.

(** X24: Suspension and resumption: a pull that found the last stream empty has
    registered one retry; when that stream has buffered [data] since and
    announces readiness, the handler emits ['_read'] on the composite and runs
    one pull: with data it forwards a non-empty prefix of it and no retry
    stays pending, without data exactly one retry is pending again. *)
Theorem readiness_resumes_the_pull H p s data :
  last (_streams p) = Some s →
  st_readable (stage_at p s) = [] →
  read_waiters p = 0 →
  let p2 := with_stage s (set_readable data) (Pipeline._read H p) in
  Pipeline._readHandler H p2
  = Pipeline._read H
      (set_read_waiters 0 (set_emitted (emitted p2 ++ [("_read", [])]) p2))
  ∧ (data = [] → read_waiters (Pipeline._readHandler H p2) = 1)
  ∧ (data ≠ [] →
     read_waiters (Pipeline._readHandler H p2) = 0
     ∧ ∃ forwarded rest,
         data = forwarded ++ rest ∧ forwarded ≠ []
         ∧ pushed (Pipeline._readHandler H p2)
           = pushed p ++ (as_push <$> forwarded)
         ∧ st_readable (stage_at (Pipeline._readHandler H p2) s) = rest).
Proof.
  intros Hlast Hempty Hw p2.
  assert (Hp1 : Pipeline._read H p = set_read_waiters 1 p).
  { destruct (read_spec H p s Hlast) as (f & r & Hb & -> & _).
    rewrite Hempty in Hb. symmetry in Hb. apply app_eq_nil in Hb as [-> ->].
    by rewrite Hw. }
  assert (Hhandler : Pipeline._readHandler H p2
    = Pipeline._read H
        (set_read_waiters 0 (set_emitted (emitted p2 ++ [("_read", [])]) p2))).
  { unfold Pipeline._readHandler, Pipeline.emit.
    rewrite decide_True by done. unfold p2. by rewrite Hp1. }
  split; [done|]. rewrite Hhandler.
  set (q := set_read_waiters 0 (set_emitted _ p2)).
  assert (Hq : last (_streams q) = Some s) by (unfold q, p2; by rewrite Hp1).
  assert (Hdata : st_readable (stage_at q s) = data).
  { unfold q, p2.
    change (stage_at (set_read_waiters ?n (set_emitted ?l ?q'))) with (stage_at q').
    by rewrite stage_at_with_stage_eq. }
  assert (Hpushed : pushed q = pushed p) by (unfold q, p2; by rewrite Hp1).
  destruct (read_spec H q s Hq) as (f & r & Hb & -> & _ & Hrest).
  rewrite Hdata in Hb. split.
  - intros ->. symmetry in Hb. by apply app_eq_nil in Hb as [-> ->].
  - intros Hne. destruct f as [|c f].
    + simpl in Hb. subst r. by destruct (Hrest Hne).
    + split; [done|]. exists (c :: f), r.
      by rewrite readable_pulled, pushed_pulled, Hpushed.
Qed.

Lemma readiness_resumes_the_pull_witness :
  read_waiters (Pipeline._readHandler (Host (λ _, true) (λ _ _, true))
    (with_stage 5 (set_readable [])
       (Pipeline._read (Host (λ _, true) (λ _ _, true))
          (Pipeline.new (Some [4; 5]) ∅))))
  = 1.
Proof.
  apply (proj1 (proj2 (readiness_resumes_the_pull
    (Host (λ _, true) (λ _ _, true)) (Pipeline.new (Some [4; 5]) ∅) 5 []
    ltac:(reflexivity) ltac:(vm_compute; reflexivity) ltac:(reflexivity)))).
  reflexivity.
Defined.

(** X25: [end(chunk, encoding, callback)] with a string chunk on a pipeline
    without streams, followed by the host's finish: the chunk, in the form
    in which the host's writable side hands it on (with the default options
    a [Buffer] with encoding ['buffer']), and then the end-of-data mark come
    out on the composite's readable side, and the write's own callback is
    called before the callbacks waiting for the finish. *)
Theorem end_with_chunk_on_empty_pipeline H o to_buffer c e cb p :
  _streams p = [] →
  let c' := (handed o to_buffer c e).1 in
  let e' := (handed o to_buffer c e).2 in
  pushed (Pipeline.emit H "finish" []
            (Pipeline.end_ H (Some c') (Some e') cb p))
  = pushed p ++ [(Some c', Some e'); (None, None)]
  ∧ called (Pipeline.emit H "finish" []
              (Pipeline.end_ H (Some c') (Some e') cb p))
    = called p ++ [CbHost 0] ++ finish_once p ++ option_list cb
  ∧ (o = default_options → c' = to_buffer c (default "utf8" e) ∧ e' = "buffer").
Proof.
  intros Hp c' e'. split; [|split; [|by intros ->]].
  all: unfold Pipeline.end_, Pipeline.emit, Pipeline.on_finish,
    Pipeline._write, Pipeline.push;
    rewrite !(decide_False (P := "finish" = "_read")) by done;
    rewrite !(decide_True (P := "finish" = "finish")) by done;
    destruct p as [l h cl o' pu rw fo ca em en ob]; simpl in Hp; subst l;
    destruct cb as [cb|]; cbn; rewrite <- ?app_assoc, ?app_nil_r; done.
Qed.

Lemma end_with_chunk_on_empty_pipeline_witness :
  pushed (Pipeline.emit (Host (λ _, true) (λ _ _, true)) "finish" []
    (Pipeline.end_ (Host (λ _, true) (λ _ _, true)) (Some "z") (Some "buffer")
       (Some (CbUser 3)) (Pipeline.new None ∅)))
  = pushed (Pipeline.new None ∅) ++ [(Some "z", Some "buffer"); (None, None)].
Proof.
  apply (end_with_chunk_on_empty_pipeline (Host (λ _, true) (λ _ _, true))
    default_options (λ c _, c) "z" None (Some (CbUser 3))
    (Pipeline.new None ∅)).
  reflexivity.
Defined.

(** ** Binding several names *)

Lemma bind_keeps_bound s evs p e h :
  registry_get (stage_at p s) e = Some h →
  registry_get (stage_at (Pipeline.bind s evs p) s) e = Some h.
Proof.
  revert p. induction evs as [|ev evs IH]; intros p Hb.
  - unfold Pipeline.bind. simpl. fold (ensure_registry s p).
    by rewrite ensure_registry_get.
  - rewrite bind_cons. apply IH.
    pose proof (bind_one s ev p) as Hone. cbv zeta in Hone.
    destruct (is_nullish (registry_lookup (stage_at (ensure_registry s p) s) ev))
      eqn:Hnull.
    + destruct Hone as [_ Hr]. rewrite Hr.
      apply nullish_unregistered in Hnull.
      rewrite ensure_registry_get in Hnull.
      rewrite decide_False; [done|]. intros ->. congruence.
    + destruct Hone as [_ Hr]. by rewrite Hr.
Qed.

Lemma bind_registers s evs p ev :
  ev ∈ evs → inherited ev = false →
  is_Some (registry_get (stage_at (Pipeline.bind s evs p) s) ev).
Proof.
  revert p. induction evs as [|x evs IH]; intros p Hin Hev.
  - by apply elem_of_nil in Hin.
  - rewrite bind_cons.
    destruct (decide (ev = x)) as [<-|Hne].
    + pose proof (bind_one_plain s ev p (plain_not_inherited _ _ Hev)) as Hone.
      cbv zeta in Hone.
      destruct (registry_get (stage_at p s) ev) as [h|] eqn:Hg.
      * destruct Hone as [_ Hr]. exists h. apply bind_keeps_bound.
        by rewrite Hr.
      * destruct Hone as [_ Hr]. eexists. apply bind_keeps_bound.
        by rewrite Hr, decide_True.
    + apply IH; [|done]. by apply elem_of_cons in Hin as [?|?].
Qed.

(** X15: [bind(stream, events)] with several names binds them one after the
    other on that stream alone.  On a stream whose bookkeeping is in order,
    every listed name that no object inherits has afterwards one forwarding
    closure for that very name, registered and attached to the stream's
    listeners for the name exactly once; a closure registered before is
    still the one registered and attached; a name listed twice is bound
    once. *)
Theorem bind_binds_every_name s evs p :
  tidy p →
  (∀ ev, ev ∈ evs → inherited ev = false →
     ∃ k,
       registry_get (stage_at (Pipeline.bind s evs p) s) ev
       = Some (Forwarder ev k)
       ∧ occurrences (Forwarder ev k)
           (Emitter.listeners (stage_at (Pipeline.bind s evs p) s) ev) = 1)
  ∧ (∀ ev h, registry_get (stage_at p s) ev = Some h →
       registry_get (stage_at (Pipeline.bind s evs p) s) ev = Some h
       ∧ occurrences h
           (Emitter.listeners (stage_at (Pipeline.bind s evs p) s) ev) = 1)
  ∧ (∀ ev, Pipeline.bind s (ev :: evs) p
           = Pipeline.bind s evs (Pipeline.bind s [ev] p))
  ∧ (∀ ev, Pipeline.bind s [ev; ev] p = Pipeline.bind s [ev] p)
  ∧ (∀ t, t ≠ s → stage_at (Pipeline.bind s evs p) t = stage_at p t).
Proof.
  intros Hp.
  assert (Hattached : ∀ ev h,
    registry_get (stage_at (Pipeline.bind s evs p) s) ev = Some h →
    (∃ k, h = Forwarder ev k)
    ∧ occurrences h
        (Emitter.listeners (stage_at (Pipeline.bind s evs p) s) ev) = 1).
  { intros ev h Hh.
    destruct (bind_tidy s evs p Hp s) as [H1 H2 _ _ _].
    destruct (H2 ev h Hh) as [k ->]. split; [by exists k|].
    rewrite H1 by done. by rewrite decide_True. }
  split; [|split; [|split; [|split]]].
  - intros ev Hin Hev.
    destruct (bind_registers s evs p ev Hin Hev) as [h Hh].
    destruct (Hattached ev h Hh) as [[k ->] Hocc]. by exists k.
  - intros ev h Hh. apply (bind_keeps_bound s evs) in Hh.
    split; [done|]. by apply Hattached.
  - intros ev. apply bind_cons.
  - intros ev. by rewrite bind_cons, bind_twice.
  - intros t. apply bind_other.
Qed.

Lemma bind_binds_every_name_witness :
  ∃ k,
    registry_get
      (stage_at (Pipeline.bind 5 ["a"; "b"; "a"] (Pipeline.new (Some [4; 5]) ∅))
         5) "b"
    = Some (Forwarder "b" k)
    ∧ occurrences (Forwarder "b" k)
        (Emitter.listeners
           (stage_at (Pipeline.bind 5 ["a"; "b"; "a"]
              (Pipeline.new (Some [4; 5]) ∅)) 5) "b") = 1.
Proof.
  apply (proj1 (bind_binds_every_name 5 ["a"; "b"; "a"]
    (Pipeline.new (Some [4; 5]) ∅)
    (new_tidy (Some [4; 5]) ∅
       (λ s st Hs, False_ind _ (lookup_empty_Some s st Hs))))).
  - apply list_elem_of_further, list_elem_of_here.
  - reflexivity.
Defined.
